(** * smart-job-finder: matching core and posting store

    A shallow embedding of the résumé/job matching code
    ([src/nlp/resume_parser.py], [src/nlp/semantic_matcher.py],
    [src/matching/job_matcher.py], [config/settings.py]) and of the SQLite
    posting store ([src/database/db_manager.py]), with the properties the
    specification states about them.

    Modelling conventions.
    - Python [str] is Rocq's [string]; the character tables
      ([str.lower], [str.isalpha], the regex class [\w]) are Python's on the
      ASCII range, and a character above 127 is neither a letter nor a word
      character and is left alone by [lower].
    - Python [float] is idealised as an exact rational ([Q]); [round(x, 2)]
      is rounding to the nearest hundredth, ties to even.  Where the value a
      float operation rounds to matters, the scoring is stated over the
      arithmetic itself ([PyFloat]), binary64 being one instance.
    - [set] is stdpp's [gset], a [dict] with string keys is [gmap string _].
    - The external models (spaCy's pipeline, the sentence transformer and
      [util.cos_sim]) are parameters. *)

From Stdlib Require Import Ascii QArith Qround.
From stdpp Require Import gmap strings sorting pretty.
From Stdlib Require Import Lqa.
From Stdlib Require Floats Uint63.

Local Open Scope Z_scope.

(** ** Python strings *)

Module PyStr.

Definition code (c : ascii) : N := Ascii.N_of_ascii c.

Definition in_range (lo hi : N) (c : ascii) : bool :=
  ((lo <=? code c) && (code c <=? hi))%N.

Definition is_upper (c : ascii) : bool := in_range 65 90 c.
Definition is_lower (c : ascii) : bool := in_range 97 122 c.
Definition is_digit (c : ascii) : bool := in_range 48 57 c.

(** [c.isalpha()] *)
Definition isalpha_char (c : ascii) : bool := is_upper c || is_lower c.

(** the regex class [\w]: letters, digits and the underscore *)
Definition is_word_char (c : ascii) : bool :=
  isalpha_char c || is_digit c || (code c =? 95)%N.

(** [c.lower()] *)
Definition lower_char (c : ascii) : ascii :=
  if is_upper c then Ascii.ascii_of_N (code c + 32) else c.

(** [s.lower()] *)
Fixpoint lower (s : string) : string :=
  match s with
  | EmptyString => EmptyString
  | String c s' => String (lower_char c) (lower s')
  end.

Fixpoint forallb_str (p : ascii → bool) (s : string) : bool :=
  match s with
  | EmptyString => true
  | String c s' => p c && forallb_str p s'
  end.

Fixpoint existsb_str (p : ascii → bool) (s : string) : bool :=
  match s with
  | EmptyString => false
  | String c s' => p c || existsb_str p s'
  end.

(** [s.isalpha()]: non-empty and every character a letter *)
Definition isalpha (s : string) : bool :=
  match s with
  | EmptyString => false
  | _ => forallb_str isalpha_char s
  end.

(** [c in s] for a one-character [c] *)
Definition contains_char (c : ascii) (s : string) : bool :=
  existsb_str (λ d, bool_decide (d = c)) s.

(** truth value of a string: [not s] holds exactly for the empty one *)
Definition truthy (s : string) : bool :=
  match s with EmptyString => false | _ => true end.

Definition head (s : string) : option ascii :=
  match s with EmptyString => None | String c _ => Some c end.

Fixpoint last_or (d : option ascii) (s : string) : option ascii :=
  match s with
  | EmptyString => d
  | String c s' => last_or (Some c) s'
  end.

End PyStr.

(** ** The fragment of [re] the code uses

    Every pattern the code compiles is [r'\b' + re.escape(w) + r'\b']: a word
    boundary, the characters of [w] taken literally, a word boundary. *)

Module Re.

Inductive node : Type :=
| Boundary                (* \b *)
| Literal (c : ascii).    (* an escaped or ordinary character *)

(** [re.escape(s)]: every character stands for itself *)
Fixpoint escape (s : string) : list node :=
  match s with
  | EmptyString => []
  | String c s' => Literal c :: escape s'
  end.

Definition is_word (o : option ascii) : bool :=
  match o with Some c => PyStr.is_word_char c | None => false end.

(** [\b] holds between [prev] and [next] when exactly one of them is a
    word character; the outside of the string counts as a non-word one. *)
Definition at_boundary (prev next : option ascii) : bool :=
  xorb (is_word prev) (is_word next).

(** match the pattern at the current position; [prev] is the character
    just before it *)
Fixpoint match_here (p : list node) (prev : option ascii) (s : string) : bool :=
  match p with
  | [] => true
  | Boundary :: p' => at_boundary prev (PyStr.head s) && match_here p' prev s
  | Literal c :: p' =>
      match s with
      | EmptyString => false
      | String d s' => bool_decide (c = d) && match_here p' (Some d) s'
      end
  end.

Fixpoint search_from (p : list node) (prev : option ascii) (s : string) : bool :=
  match_here p prev s ||
  match s with
  | EmptyString => false
  | String c s' => search_from p (Some c) s'
  end.

(** [re.search(p, s)], as a truth value *)
Definition search (p : list node) (s : string) : bool := search_from p None s.

(** [r'\b' + re.escape(w) + r'\b'] *)
Definition whole_word (w : string) : list node :=
  Boundary :: escape w ++ [Boundary].

End Re.

(** ** Python's [sorted(list(set(xs)))] on strings *)

(** [list(set(xs))]: the distinct elements, in an order Python leaves open *)
Definition list_of_set (xs : list string) : list string :=
  elements (list_to_set xs : gset string).

(** [sorted]: ascending by code point *)
Definition sorted (xs : list string) : list string := merge_sort String.le xs.

(** ** [src/nlp/resume_parser.py] *)

(** What the code reads from a spaCy token. [is_alpha] is a lexical
    attribute computed from the text ([token.text.isalpha()]); [is_stop] comes
    from the language's stop list. *)
Record Token : Type := mkToken { tok_text : string; is_stop : bool }.

Definition is_alpha (t : Token) : bool := PyStr.isalpha (tok_text t).

(** A loaded pipeline: [nlp(text)] yields the tokens of [text]. *)
Definition Language : Type := string → list Token.

(** A Python call either returns or raises. *)
Inductive outcome (A : Type) : Type :=
| Returns (a : A)
| Raises (msg : string).
Arguments Returns {A} a.
Arguments Raises {A} msg.

Module ResumeParser.

Record t : Type := mk {
  nlp : option Language;              (* None when loading failed *)
  common_skills : list string;
  common_keywords : list string;
  common_skills_lower : list string;
  common_keywords_lower : list string
}.

Definition COMMON_SKILLS : list string :=
  [ "CAD"; "SolidWorks"; "AutoCAD"; "Inventor"; "Fusion 360"; "CATIA";
    "ANSYS"; "FEA"; "CFD"; "Fluent"; "MATLAB"; "Simulink"; "Python"; "R";
    "C++"; "GD&T"; "DFM"; "Lean Manufacturing"; "Six Sigma"; "Prototyping";
    "3D Printing"; "CNC Machining"; "Robotics"; "Thermodynamics"; "Fluid Mechanics";
    "Heat Transfer"; "Materials Science"; "Finite Element Analysis"; "Design";
    "Stress Analysis"; "Kinematics"; "Dynamics"; "Mechatronics"; "Control Systems";
    "Jigs & Fixtures"; "Manufacturing"; "Assembly"; "Solid Modeling"; "Mechanical Design";
    "Tolerance Analysis"; "Failure Analysis"; "Root Cause Analysis"; "FMEA"; "P&ID" ].

Definition COMMON_KEYWORDS : list string :=
  [ "design"; "analysis"; "development"; "engineering"; "systems"; "project";
    "research"; "testing"; "prototyping"; "manufacturing"; "process"; "solution";
    "optimize"; "innovate"; "implement"; "manage"; "lead"; "collaborate"; "technical";
    "mechanical"; "product"; "problem-solving"; "troubleshooting"; "efficiency";
    "performance"; "quality"; "simulation"; "validation"; "documentation";
    "report"; "technical reports"; "client"; "vendor"; "supply chain" ].

(** The parser with the given lexicons; [__init__] below uses the two
    lists above. *)
Definition with_lexicons (nlp : option Language) (skills keywords : list string) : t :=
  {| nlp := nlp;
     common_skills := skills;
     common_keywords := keywords;
     common_skills_lower := PyStr.lower <$> skills;
     common_keywords_lower := PyStr.lower <$> keywords |}.

(** [ResumeParser()]: [load] is what [spacy.load('en_core_web_sm')] does.
    An exception is caught and logged, and [nlp] is set to [None]. *)
Definition __init__ (load : outcome Language) : outcome t :=
  let nlp :=
    match load with
    | Returns m => Some m
    | Raises _ => None
    end in
  Returns (with_lexicons nlp COMMON_SKILLS COMMON_KEYWORDS).

Definition extract_skills (self : t) (text : string) : list string :=
  let text_lower := PyStr.lower text in
  let found_skills :=
    filter (λ skill, Re.search (Re.whole_word skill) text_lower = true)
           (common_skills_lower self) in
  sorted (list_of_set found_skills).

Definition keyword_found (tokens : list string) (keyword : string) : bool :=
  bool_decide (keyword ∈ tokens)
  || existsb (λ token, Re.search (Re.whole_word keyword) token) tokens.

Definition extract_general_keywords (self : t) (text : string) : list string :=
  match nlp self with
  | None => []
  | Some model =>
      let doc := model (PyStr.lower text) in
      let tokens :=
        tok_text <$>
          filter (λ token, is_alpha token = true ∧ is_stop token = false
                           ∧ (2 < String.length (tok_text token))%nat) doc in
      let found_keywords :=
        filter (λ keyword, keyword_found tokens keyword = true)
               (common_keywords_lower self) in
      sorted (list_of_set found_keywords)
  end.

End ResumeParser.

(** ** [src/nlp/semantic_matcher.py] *)

Module SemanticMatcher.

(** The loaded sentence transformer: [encode] is
    [model.encode(text, convert_to_tensor=True)], [cos_sim] is the library's
    [util.cos_sim(a, b).item()]. *)
Record t : Type := mk {
  Emb : Type;
  encode : string → Emb;
  cos_sim : Emb → Emb → Q
}.

(** [SemanticMatcher()]: a loading failure is logged and raised again. *)
Definition __init__ (load : outcome t) : outcome t :=
  match load with
  | Returns m => Returns m
  | Raises e => Raises e
  end.

Definition get_embedding (self : t) (text : string) : option (Emb self) :=
  if PyStr.truthy text then Some (encode self text) else None.

Definition calculate_similarity (self : t) (embedding1 embedding2 : option (Emb self)) : Q :=
  match embedding1, embedding2 with
  | Some e1, Some e2 => cos_sim self e1 e2
  | _, _ => 0
  end.

Definition get_semantic_score (self : t) (text1 text2 : string) : Q :=
  if negb (PyStr.truthy text1) || negb (PyStr.truthy text2) then 0
  else
    let embedding1 := get_embedding self text1 in
    let embedding2 := get_embedding self text2 in
    calculate_similarity self embedding1 embedding2.

(** The library's contract for the cosine: a value between -1 and 1. *)
Definition cosine_in_range (self : t) : Prop :=
  ∀ a b : Emb self, (-1 <= cos_sim self a b)%Q ∧ (cos_sim self a b <= 1)%Q.

End SemanticMatcher.

(** ** [config/settings.py] *)

Record Settings : Type := mkSettings {
  DB_PATH : string;
  SEMANTIC_THRESHOLD : Q;
  KEYWORD_WEIGHT : Q;
  SEMANTIC_WEIGHT : Q;
  RESUME_DIR : string
}.

Definition settings : Settings :=
  {| DB_PATH := "data/job_database.db";
     SEMANTIC_THRESHOLD := 0.75;
     KEYWORD_WEIGHT := 0.5;
     SEMANTIC_WEIGHT := 0.5;
     RESUME_DIR := "resumes/" |}.

(** ** Python's [round(x, ndigits)] *)

(** nearest integer, ties to the even one *)
Definition round_half_even (x : Q) : Z :=
  let f := Qfloor x in
  match (x - inject_Z f ?= 1 # 2)%Q with
  | Lt => f
  | Gt => f + 1
  | Eq => if Z.even f then f else f + 1
  end.

Definition round (x : Q) (ndigits : nat) : Q :=
  let scale := inject_Z (10 ^ Z.of_nat ndigits) in
  (inject_Z (round_half_even (x * scale)) / scale)%Q.

(** ** [src/matching/job_matcher.py] *)

(** The values the résumé and result dictionaries hold. *)
Inductive PyVal : Type :=
| VFloat (x : Q)
| VList (l : list string).

(** The parsed résumé, [{'text': ..., 'skills': [...], 'keywords': [...]}];
    [None] stands for an absent key. *)
Record ParsedResume : Type := mkResume {
  r_text : option string;
  r_skills : option (list string);
  r_keywords : option (list string)
}.

(** [d.get(k, default)] *)
Definition get_or {A} (o : option A) (default : A) : A :=
  match o with Some v => v | None => default end.

Module JobMatcher.

Record t : Type := mk {
  resume_parser : ResumeParser.t;
  semantic_matcher : SemanticMatcher.t
}.

(** [JobMatcher()]: builds both collaborators; the semantic matcher's
    failure propagates. *)
Definition __init__ (load_spacy : outcome Language)
    (load_transformer : outcome SemanticMatcher.t) : outcome t :=
  match ResumeParser.__init__ load_spacy with
  | Raises e => Raises e
  | Returns rp =>
      match SemanticMatcher.__init__ load_transformer with
      | Raises e => Raises e
      | Returns sm => Returns (mk rp sm)
      end
  end.

Definition is_empty_list {A} (l : list A) : bool :=
  match l with [] => true | _ => false end.

Definition _calculate_keyword_overlap_score
    (resume_keywords job_keywords : list string) : Q :=
  if is_empty_list resume_keywords || is_empty_list job_keywords then 0
  else
    let resume_set : gset string := list_to_set resume_keywords in
    let job_set : gset string := list_to_set job_keywords in
    let intersection := size (resume_set ∩ job_set) in
    let union := size (resume_set ∪ job_set) in
    if (union =? 0)%nat then 0
    else (inject_Z (Z.of_nat intersection) / inject_Z (Z.of_nat union))%Q.

Definition match_job_to_resume (cfg : Settings) (self : t)
    (resume_parsed_data : ParsedResume) (job_data : gmap string string)
    : gmap string PyVal :=
  let resume_text := get_or (r_text resume_parsed_data) "" in
  let resume_skills := get_or (r_skills resume_parsed_data) [] in
  let resume_keywords := get_or (r_keywords resume_parsed_data) [] in
  let job_description := get_or (job_data !! "job_description") "" in
  let job_title := get_or (job_data !! "job_title") "" in
  if negb (PyStr.truthy resume_text) || negb (PyStr.truthy job_description) then
    <["final_score" := VFloat 0]>
      (<["keyword_score" := VFloat 0]> (<["semantic_score" := VFloat 0]> ∅))
  else
    let job_description_skills :=
      ResumeParser.extract_skills (resume_parser self)
        (job_description +:+ " " +:+ job_title) in
    let job_description_keywords :=
      ResumeParser.extract_general_keywords (resume_parser self) job_description in
    let keyword_score :=
      _calculate_keyword_overlap_score resume_keywords job_description_keywords in
    let semantic_score :=
      SemanticMatcher.get_semantic_score (semantic_matcher self)
        resume_text job_description in
    let normalized_semantic_score := ((semantic_score + 1) / 2)%Q in
    let final_score :=
      (keyword_score * KEYWORD_WEIGHT cfg
       + normalized_semantic_score * SEMANTIC_WEIGHT cfg)%Q in
    let final_score := round (final_score * 100) 2 in
    <["final_score" := VFloat final_score]>
      (<["keyword_score" := VFloat (round (keyword_score * 100) 2)]>
         (<["semantic_score" := VFloat (round (normalized_semantic_score * 100) 2)]>
            (<["matched_keywords" :=
                 VList (elements ((list_to_set resume_keywords : gset string)
                                    ∩ list_to_set job_description_keywords))]> ∅))).

End JobMatcher.

(** ** [src/database/db_manager.py] *)

Module DBManager.

(** A row of table [jobs]. [job_id] is the primary key; the data columns
    are nullable [TEXT]. *)
Record Row : Type := mkRow {
  job_id : string;
  job_title : option string;
  company_name : option string;
  location : option string;
  job_description : option string;
  job_url : option string;
  employer_website : option string;
  job_employment_type : option string;
  job_posted_at_datetime_utc : option string;
  status : string;
  retrieved_at : string
}.

Definition set_status (new_status : string) (r : Row) : Row :=
  {| job_id := job_id r;
     job_title := job_title r;
     company_name := company_name r;
     location := location r;
     job_description := job_description r;
     job_url := job_url r;
     employer_website := employer_website r;
     job_employment_type := job_employment_type r;
     job_posted_at_datetime_utc := job_posted_at_datetime_utc r;
     status := new_status;
     retrieved_at := retrieved_at r |}.

(** The table, keyed by its primary key. *)
Abbreviation Table := (gmap string Row).

(** How SQLite behaves during one call: all goes well, the connection
    cannot be opened, or the statement given to [cursor.execute] raises
    [sqlite3.Error] and nothing is written.  A [commit] that fails is not
    among these states. *)
Inductive Sqlite : Type := Healthy | CannotConnect | StatementFails.

(** [_get_connection]: a connection, or [None] after a logged error *)
Definition _get_connection (io : Sqlite) : option unit :=
  match io with
  | CannotConnect => None
  | _ => Some tt
  end.

(** [with self._get_connection() as conn: body]: [None] is no context
    manager, so entering the block raises before [body] runs. *)
Definition with_connection {A} (io : Sqlite) (db : Table)
    (body : unit → Table * A) : Table * outcome A :=
  match _get_connection io with
  | None => (db, Raises "'NoneType' object does not support the context manager protocol")
  | Some conn => let '(db', a) := body conn in (db', Returns a)
  end.

(** [INSERT OR IGNORE INTO jobs (...) VALUES (...)]: the new table and
    [cursor.rowcount]. [status] and [retrieved_at] take their column
    defaults, ['new'] and the current timestamp [now]. *)
Definition insert_or_ignore (now : string) (db : Table) (id : string)
    (job_data : gmap string string) : Table * nat :=
  match db !! id with
  | Some _ => (db, 0%nat)
  | None =>
      (<[id := {| job_id := id;
                  job_title := job_data !! "job_title";
                  company_name := job_data !! "company_name";
                  location := job_data !! "job_location";
                  job_description := job_data !! "job_description";
                  job_url := job_data !! "job_apply_link";
                  employer_website := job_data !! "employer_website";
                  job_employment_type := job_data !! "job_employment_type";
                  job_posted_at_datetime_utc := job_data !! "job_posted_at_datetime_utc";
                  status := "new";
                  retrieved_at := now |}]> db, 1%nat)
  end.

(** [UPDATE jobs SET status = ? WHERE job_id = ?] *)
Definition update_status (db : Table) (new_status id : string) : Table * nat :=
  match db !! id with
  | Some r => (<[id := set_status new_status r]> db, 1%nat)
  | None => (db, 0%nat)
  end.

Definition insert_job (io : Sqlite) (now : string) (db : Table)
    (job_data : gmap string string) : Table * outcome bool :=
  match job_data !! "job_id" with
  | None => (db, Returns false)
  | Some id =>
      if negb (PyStr.truthy id) then (db, Returns false)
      else
        with_connection io db (λ conn,
          match io with
          | StatementFails => (db, false)
          | _ =>
              let '(db', rowcount) := insert_or_ignore now db id job_data in
              if (0 <? rowcount)%nat then (db', true) else (db', false)
          end)
  end.

Definition get_all_jobs (io : Sqlite) (db : Table) : outcome (list Row) :=
  (with_connection io db (λ conn,
     match io with
     | StatementFails => (db, [])
     | _ => (db, (map_to_list db).*2)
     end)).2.

Definition get_job_by_id (io : Sqlite) (db : Table) (id : string)
    : outcome (option Row) :=
  (with_connection io db (λ conn,
     match io with
     | StatementFails => (db, None)
     | _ => (db, db !! id)
     end)).2.

Definition update_job_status (io : Sqlite) (db : Table)
    (id new_status : string) : Table * outcome bool :=
  with_connection io db (λ conn,
    match io with
    | StatementFails => (db, false)
    | _ =>
        let '(db', rowcount) := update_status db new_status id in
        if (0 <? rowcount)%nat then (db', true) else (db', false)
    end).

(** The status vocabulary the user interface offers ([app.py]). *)
Definition status_options : list string :=
  ["new"; "seen"; "applied"; "interviewing"; "rejected"].

End DBManager.

(** ** The specification's wording of the two scores *)

Module Spec.

(** Jaccard index: intersection size divided by union size. *)
Definition jaccard (A B : gset string) : Q :=
  (inject_Z (Z.of_nat (size (A ∩ B))) / inject_Z (Z.of_nat (size (A ∪ B))))%Q.

(** Step 3 of the score combiner: the Jaccard index of the two keyword
    sets, and 0.0 when either set is empty. *)
Definition keyword_score (A B : gset string) : Q :=
  if decide (A = ∅ ∨ B = ∅) then 0%Q else jaccard A B.

(** Whole-word occurrence: [w] occurs in [s] with a word boundary on either
    side, a word boundary being a place where exactly one of the two
    neighbouring characters is a word character. *)
Definition occurs_as_word (w s : string) : Prop :=
  ∃ pre post : string,
    s = pre +:+ w +:+ post
    ∧ Re.at_boundary (PyStr.last_or None pre) (PyStr.head (w +:+ post)) = true
    ∧ Re.at_boundary (PyStr.last_or None (pre +:+ w)) (PyStr.head post) = true.

(** [(rawSemantic + 1) / 2] *)
Definition normalized (raw : Q) : Q := ((raw + 1) / 2)%Q.

(** Step 6: the weighted sum as a percentage with two decimals. *)
Definition final_score (Wk Ws keywordScore semanticScore : Q) : Q :=
  round ((keywordScore * Wk + semanticScore * Ws) * 100) 2.

(** What the specification says [match] returns when a text is empty. *)
Definition empty_match_result : gmap string PyVal :=
  <["final_score" := VFloat 0]>
    (<["keyword_score" := VFloat 0]>
       (<["semantic_score" := VFloat 0]>
          (<["matched_keywords" := VList []]> ∅))).

End Spec.

(** ** Sample collaborators and data *)

Module Sample.

(** A stand-in pipeline: whitespace-separated tokens, a short stop list. *)
Definition stop_words : list string := ["and"; "the"; "for"; "with"; "am"].

Definition nlp : Language :=
  λ text, (λ w, mkToken w (bool_decide (w ∈ stop_words))) <$> String.words text.

(** A stand-in embedder: a text is embedded as its lowercase form, and two
    embeddings are at cosine 1 when equal and 0 otherwise. *)
Definition embedder : SemanticMatcher.t :=
  {| SemanticMatcher.Emb := string;
     SemanticMatcher.encode := PyStr.lower;
     SemanticMatcher.cos_sim := λ a b, if decide (a = b) then 1%Q else 0%Q |}.

Definition parser : ResumeParser.t :=
  ResumeParser.with_lexicons (Some nlp)
    ResumeParser.COMMON_SKILLS ResumeParser.COMMON_KEYWORDS.

Definition matcher : JobMatcher.t := JobMatcher.mk parser embedder.

Definition resume_text : string :=
  "Mechanical design engineer with manufacturing and testing experience in CAD".

Definition resume : ParsedResume :=
  {| r_text := Some resume_text;
     r_skills := Some (ResumeParser.extract_skills parser resume_text);
     r_keywords := Some (ResumeParser.extract_general_keywords parser resume_text) |}.

Definition empty_resume : ParsedResume :=
  {| r_text := Some ""; r_skills := Some []; r_keywords := Some [] |}.

Definition job : gmap string string :=
  <["job_id" := "job-1"]>
    (<["job_title" := "Design Engineer"]>
       (<["job_description" := "Product design and testing for the quality team"]> ∅)).

Definition job_without_id : gmap string string :=
  <["job_title" := "Design Engineer"]> ∅.

Definition job_empty_id : gmap string string :=
  <["job_id" := ""]> (<["job_title" := "Design Engineer"]> ∅).

(** A parser whose skill lexicon is just ["CAD"]. *)
Definition cad_parser : ResumeParser.t := ResumeParser.with_lexicons None ["CAD"] [].

Definition cad_sentence : string := "I am proficient in AutoCAD and CAD modeling".

(** The same posting fetched again, with a changed title. *)
Definition job_refetched : gmap string string :=
  <["job_title" := "Senior Design Engineer"]> job.

Definition now : string := "2025-01-15 09:30:00".
Definition later : string := "2025-01-16 18:00:00".

(** A table holding one posting. *)
Definition table : gmap string DBManager.Row :=
  (DBManager.insert_job DBManager.Healthy now ∅ job).1.

End Sample.

(** ** Histories of the posting store *)

Module Store.

(** Every row is stored under its own [job_id]. *)
Definition keyed_by_id (db : gmap string DBManager.Row) : Prop :=
  ∀ id r, db !! id = Some r → DBManager.job_id r = id.

(** The two calls that write to the table, with the state SQLite is in
    while they run. *)
Inductive call : Type :=
| Insert (io : DBManager.Sqlite) (now : string) (job_data : gmap string string)
| SetStatus (io : DBManager.Sqlite) (id new_status : string).

Definition run_call (db : gmap string DBManager.Row) (c : call)
    : gmap string DBManager.Row :=
  match c with
  | Insert io now job_data => (DBManager.insert_job io now db job_data).1
  | SetStatus io id new_status => (DBManager.update_job_status io db id new_status).1
  end.

(** [r'] is [r] up to the status column. *)
Definition same_posting (r r' : DBManager.Row) : Prop :=
  r' = DBManager.set_status (DBManager.status r') r.

(** The statuses that the calls of a history write for [id]. *)
Definition statuses_set (id : string) (calls : list call) : list string :=
  omap (λ c, match c with
             | SetStatus _ id' s => if decide (id' = id) then Some s else None
             | Insert _ _ _ => None
             end) calls.

(** The table after a sequence of calls. *)
Definition run (db : gmap string DBManager.Row) (calls : list call)
    : gmap string DBManager.Row :=
  foldl run_call db calls.

End Store.

(** ** [src/nlp/resume_parser.py]: reading a résumé *)

Module ResumeFiles.

Fixpoint drop_str (n : nat) (s : string) : string :=
  match n, s with
  | O, _ => s
  | S n', String _ s' => drop_str n' s'
  | S _, EmptyString => EmptyString
  end.

(** [s.endswith(suffix)] *)
Definition endswith (s suffix : string) : bool :=
  (String.length suffix <=? String.length s)%nat
  && bool_decide (drop_str (String.length s - String.length suffix) s = suffix).

(** What the code asks of the file system: [os.path.exists(path)], and
    [open(path, 'r', encoding='utf-8').read()], which returns the text or
    raises. *)
Record FileSystem : Type := mkFS {
  path_exists : string → bool;
  read_text : string → outcome string
}.

(** An uploaded file: its [name] attribute if it has one, what
    [pypdf.PdfReader(file).pages] yields (the reader may raise, and so may
    each page's [extract_text()], which returns a text or [None]), and what
    [file.getvalue().decode('utf-8')] gives. *)
Record UploadedFile : Type := mkUpload {
  name : option string;
  pdf_pages : outcome (list (outcome (option string)));
  decoded : outcome string
}.

(** The first argument of [parse_resume]: a path ([is_file_path=True]) or an
    uploaded file ([is_file_path=False]). *)
Inductive ResumeSource : Type :=
| Path (file_path : string)
| Upload (file : UploadedFile).

Definition _read_txt_text (fs : FileSystem) (file_path : string) : string :=
  match read_text fs file_path with
  | Returns text => text
  | Raises _ => ""
  end.

(** The loop [for page in reader.pages: text += page.extract_text() or ""] *)
Fixpoint add_pages (text : string) (pages : list (outcome (option string)))
    : outcome string :=
  match pages with
  | [] => Returns text
  | Returns extracted :: pages' => add_pages (text +:+ get_or extracted "") pages'
  | Raises e :: _ => Raises e
  end.

Definition _read_pdf_text (file : UploadedFile) : string :=
  match pdf_pages file with
  | Raises _ => ""
  | Returns pages =>
      match add_pages "" pages with
      | Returns text => text
      | Raises _ => ""
      end
  end.

Definition empty_result : ParsedResume :=
  {| r_text := Some ""; r_skills := Some []; r_keywords := Some [] |}.

(** the part of [parse_resume] after the text has been read *)
Definition parse_text (self : ResumeParser.t) (resume_text : string) : ParsedResume :=
  if negb (PyStr.truthy resume_text) then empty_result
  else
    let skills := ResumeParser.extract_skills self resume_text in
    let general_keywords := ResumeParser.extract_general_keywords self resume_text in
    {| r_text := Some resume_text;
       r_skills := Some skills;
       r_keywords := Some general_keywords |}.

Definition has_suffix (o : option string) (suffix : string) : bool :=
  match o with
  | Some n => endswith (PyStr.lower n) suffix
  | None => false
  end.

Definition parse_resume (self : ResumeParser.t) (fs : FileSystem)
    (resume_source : ResumeSource) : outcome ParsedResume :=
  match resume_source with
  | Path file_path =>
      if negb (path_exists fs file_path) then Returns empty_result
      else if endswith (PyStr.lower file_path) ".txt"
      then Returns (parse_text self (_read_txt_text fs file_path))
      else Returns empty_result
  | Upload file =>
      if has_suffix (name file) ".pdf"
      then Returns (parse_text self (_read_pdf_text file))
      else if has_suffix (name file) ".txt"
      then match decoded file with
           | Returns resume_text => Returns (parse_text self resume_text)
           | Raises e => Raises e
           end
      else Returns empty_result
  end.

End ResumeFiles.

(** ** [src/nlp/keyword_extractor.py] *)

Module KeywordExtractor.

(** [c.isspace()], on the ASCII range: tab to carriage return, the four
    separators and the space *)
Definition is_space_char (c : ascii) : bool :=
  PyStr.in_range 9 13 c || PyStr.in_range 28 32 c.

(** [s.lstrip()] *)
Fixpoint lstrip (s : string) : string :=
  match s with
  | EmptyString => EmptyString
  | String c s' => if is_space_char c then lstrip s' else s
  end.

(** [s.rstrip()] *)
Fixpoint rstrip (s : string) : string :=
  match s with
  | EmptyString => EmptyString
  | String c s' =>
      match rstrip s' with
      | EmptyString => if is_space_char c then EmptyString else String c EmptyString
      | r => String c r
      end
  end.

(** [s.strip()] *)
Definition strip (s : string) : string := rstrip (lstrip s).

(** What the code reads from a token of the tagged document, all four
    computed by spaCy. *)
Record TaggedToken : Type := mkTagged {
  lemma_ : string;
  pos_ : string;
  is_stop : bool;
  is_alpha : bool
}.

(** A string of ASCII characters: on these [lower], [strip] and [len] are
    the functions of this file. *)
Definition is_ascii (s : string) : bool :=
  PyStr.forallb_str (λ c, (PyStr.code c <? 128)%N) s.

Definition EXCLUDE_TERMS : list string :=
  [ "project"; "team"; "work"; "year"; "email"; "phone"; "location"; "new";
    "education"; "learning"; "experience"; "college"; "univ"; "linkedin";
    "technical"; "languages"; "degree"; "skills"; "profile"; "field"; "area";
    "tools"; "tasks"; "support"; "system"; "development"; "method"; "part";
    "solution"; "sebastian"; "juan"; "maya"; "langara"; "herragro"; "makroing";
    "manizales"; "national"; "s.a.s"; "pgwp"; "canada"; "b.sc"; "post";
    "colombia"; "westminster"; "office"; "order"; "information"; "design";
    "designer"; "management";
    "jan"; "feb"; "mar"; "apr"; "may"; "jun"; "jul"; "aug"; "sep"; "oct"; "nov"; "dec" ].

(** the test of the outer [if] *)
Definition is_candidate (token : TaggedToken) : bool :=
  bool_decide (pos_ token ∈ ["NOUN"; "PROPN"]) && negb (is_stop token) && is_alpha token.

(** one turn of the loop over the document *)
Definition add_token (keywords : gset string) (token : TaggedToken) : gset string :=
  if is_candidate token then
    let word := strip (PyStr.lower (lemma_ token)) in
    if (2 <? String.length word)%nat && negb (bool_decide (word ∈ EXCLUDE_TERMS))
    then keywords ∪ {[word]}
    else keywords
  else keywords.

(** [load] is what [spacy.load("en_core_web_sm")] does on this call; its
    exception is not caught. *)
Definition extract_keywords_from_text (load : outcome (string → list TaggedToken))
    (text : string) : outcome (list string) :=
  match load with
  | Raises e => Raises e
  | Returns nlp =>
      let doc := nlp text in
      let keywords := foldl add_token ∅ doc in
      Returns (sorted (elements keywords))
  end.

End KeywordExtractor.

(** ** [src/api/jsearch_api.py] *)

Module JSearchAPI.

Definition BASE_URL : string := "https://jsearch.p.rapidapi.com/".

(** The keys of [ENDPOINTS]. *)
Inductive Endpoint : Type := search | job_details | search_filters.

Definition ENDPOINTS (endpoint : Endpoint) : string :=
  match endpoint with
  | search => "search"
  | job_details => "job-details"
  | search_filters => "search-filters"
  end.

Record t : Type := mk { headers : gmap string string }.

(** [JSearchAPI()]: [api_key] is [settings.JSEARCH_API_KEY], the value of the
    environment variable or [None]. *)
Definition __init__ (api_key : option string) : outcome t :=
  let headers : gmap string string :=
    <["X-RapidAPI-Host" := "jsearch.p.rapidapi.com"]>
      (match api_key with
       | Some key => <["X-RapidAPI-Key" := key]> ∅
       | None => ∅
       end) in
  if negb (PyStr.truthy (get_or api_key ""))
  then Raises "JSEARCH_API_KEY is missing. Cannot proceed without API access."
  else Returns (mk headers).

(** The parsed body of a successful response, as far as the code reads it:
    its [data] entry, a list of job objects, [None] when the entry is absent
    or null. *)
Record Body : Type := mkBody { data : option (list (gmap string string)) }.

(** What one [requests.get] followed by [raise_for_status] and [json()]
    does. *)
Inductive Reply : Type :=
| Json (body : Body)
| HTTPError (status_code : Z)
| ConnectionError
| Timeout
| OtherException.

(** The network: the reply to the n-th request sent, given its URL, headers
    and query parameters. *)
Definition Network : Type :=
  nat → string → gmap string string → gmap string string → Reply.

(** What the calls leave behind: the number of requests sent so far and the
    pauses taken, in seconds, in order. *)
Record World : Type := mkWorld { sent : nat; slept : list Q }.

Definition send (w : World) : World := mkWorld (S (sent w)) (slept w).
Definition sleep (seconds : Q) (w : World) : World :=
  mkWorld (sent w) (slept w ++ [seconds]).

(** The loop [for attempt in range(max_retries)] of [_make_request], with
    [attempts] turns left. *)
Fixpoint attempt_loop (net : Network) (self : t) (url : string)
    (params : gmap string string) (attempts : nat) (retry_delay : Z) (w : World)
    : option Body * World :=
  match attempts with
  | O => (None, w)
  | S attempts' =>
      let retry :=
        attempt_loop net self url params attempts' (retry_delay * 2)
          (sleep (inject_Z retry_delay) (send w)) in
      match net (sent w) url (headers self) params with
      | Json body => (Some body, send w)
      | HTTPError status_code =>
          if (status_code =? 429) then retry
          else if (400 <=? status_code) && (status_code <? 500) then (None, send w)
          else retry
      | ConnectionError => retry
      | Timeout => retry
      | OtherException => (None, send w)
      end
  end.

Definition _make_request (net : Network) (self : t) (endpoint : Endpoint)
    (params : gmap string string) (w : World) : option Body * World :=
  let url := BASE_URL +:+ ENDPOINTS endpoint in
  let max_retries := 3%nat in
  let retry_delay := 5 in
  attempt_loop net self url params max_retries retry_delay w.

Definition truthy_opt (o : option string) : bool := PyStr.truthy (get_or o "").

(** The query parameters that [search_jobs] builds for page [p]. *)
Definition page_params (query : string) (location : option string) (p : Z)
    (date_posted : option string) (remote_jobs_only : bool)
    (employment_type experience_level : option string) : gmap string string :=
  let params : gmap string string :=
    <["query" := query]> (<["page" := pretty p]> ∅) in
  let params :=
    if truthy_opt location
    then <["query" := query +:+ " in " +:+ get_or location ""]> params else params in
  let params :=
    if truthy_opt date_posted
    then <["date_posted" := get_or date_posted ""]> params else params in
  let params :=
    if remote_jobs_only then <["remote_jobs_only" := "true"]> params else params in
  let params :=
    if truthy_opt employment_type
    then <["employment_type" := get_or employment_type ""]> params else params in
  if truthy_opt experience_level
  then <["job_requirements" := get_or experience_level ""]> params else params.

(** [job['api_source'] = 'jsearch'] *)
Definition tag (job : gmap string string) : gmap string string :=
  <["api_source" := "jsearch"]> job.

(** The loop of [search_jobs] over the pages still to fetch. *)
Fixpoint page_loop (net : Network) (self : t) (params_of : Z → gmap string string)
    (pages : list Z) (all_jobs : list (gmap string string)) (w : World)
    : list (gmap string string) * World :=
  match pages with
  | [] => (all_jobs, w)
  | p :: pages' =>
      let '(response_data, w1) := _make_request net self search (params_of p) w in
      match response_data with
      | Some (mkBody (Some (job :: jobs))) =>
          page_loop net self params_of pages'
            (all_jobs ++ (tag <$> job :: jobs)) (sleep 0.5 w1)
      | Some _ => page_loop net self params_of pages' all_jobs (sleep 0.5 w1)
      | None => (all_jobs, w1)
      end
  end.

(** [range(page, page + num_pages)] *)
Definition page_range (page num_pages : Z) : list Z :=
  (λ i : nat, page + Z.of_nat i) <$> seq 0 (Z.to_nat num_pages).

Definition search_jobs (net : Network) (self : t) (query : string)
    (location : option string) (page num_pages : Z) (date_posted : option string)
    (remote_jobs_only : bool) (employment_type experience_level : option string)
    (w : World) : list (gmap string string) * World :=
  page_loop net self
    (λ p, page_params query location p date_posted remote_jobs_only
            employment_type experience_level)
    (page_range page num_pages) [] w.

Definition get_job_details (net : Network) (self : t) (job_id : string) (w : World)
    : option (gmap string string) * World :=
  let params : gmap string string := <["job_id" := job_id]> ∅ in
  let '(response_data, w1) := _make_request net self job_details params w in
  match response_data with
  | Some (mkBody (Some (job :: _))) => (Some job, w1)
  | _ => (None, w1)
  end.

(** The replies after which the request is tried again. *)
Definition retried (r : Reply) : bool :=
  match r with
  | HTTPError status_code =>
      (status_code =? 429) || negb ((400 <=? status_code) && (status_code <? 500))
  | ConnectionError | Timeout => true
  | Json _ | OtherException => false
  end.

(** What [_make_request] returns once a reply ends the loop. *)
Definition reply_body (r : Reply) : option Body :=
  match r with
  | Json body => Some body
  | _ => None
  end.

(** The pauses of [k] retries that start at [retry_delay] seconds. *)
Fixpoint backoff (retry_delay : Z) (k : nat) : list Q :=
  match k with
  | O => []
  | S k' => inject_Z retry_delay :: backoff (retry_delay * 2) k'
  end.

End JSearchAPI.

(** ** [app.py]: storing the fetched jobs and ranking the stored ones *)

Module App.

(** The loop
    [for job in fetched_jobs_raw: if db_manager.insert_job(job): new_jobs_count += 1];
    [clock i] is the time at which the i-th job is inserted. An exception of
    [insert_job] ends the loop. *)
Fixpoint store_loop (io : DBManager.Sqlite) (clock : nat → string) (i : nat)
    (db : gmap string DBManager.Row) (fetched_jobs_raw : list (gmap string string))
    (new_jobs_count : nat) : gmap string DBManager.Row * outcome nat :=
  match fetched_jobs_raw with
  | [] => (db, Returns new_jobs_count)
  | job :: jobs =>
      match DBManager.insert_job io (clock i) db job with
      | (db', Returns true) => store_loop io clock (S i) db' jobs (S new_jobs_count)
      | (db', Returns false) => store_loop io clock (S i) db' jobs new_jobs_count
      | (db', Raises e) => (db', Raises e)
      end
  end.

Definition store_fetched_jobs (io : DBManager.Sqlite) (clock : nat → string)
    (db : gmap string DBManager.Row) (fetched_jobs_raw : list (gmap string string))
    : gmap string DBManager.Row * outcome nat :=
  store_loop io clock 0 db fetched_jobs_raw 0.

(** [dict(row)]: one entry per column, [None] for NULL. *)
Definition columns (r : DBManager.Row) : gmap string (option string) :=
  <["job_id" := Some (DBManager.job_id r)]>
  (<["job_title" := DBManager.job_title r]>
  (<["company_name" := DBManager.company_name r]>
  (<["location" := DBManager.location r]>
  (<["job_description" := DBManager.job_description r]>
  (<["job_url" := DBManager.job_url r]>
  (<["employer_website" := DBManager.employer_website r]>
  (<["job_employment_type" := DBManager.job_employment_type r]>
  (<["job_posted_at_datetime_utc" := DBManager.job_posted_at_datetime_utc r]>
  (<["status" := Some (DBManager.status r)]>
  (<["retrieved_at" := Some (DBManager.retrieved_at r)]> ∅)))))))))).

(** The entries of [dict(row)] that hold a string. *)
Definition string_columns (r : DBManager.Row) : gmap string string :=
  omap id (columns r).

(** [job_matcher.match_job_to_resume(parsed_resume, job)] for a stored row.
    The matcher reads [job_description] and [job_title]; on the scored path
    it evaluates [job_description + " " + job_title], which raises a
    [TypeError] when the title column is NULL. *)
Definition match_stored_job (cfg : Settings) (self : JobMatcher.t)
    (resume : ParsedResume) (job : DBManager.Row) : outcome (gmap string PyVal) :=
  let scored :=
    PyStr.truthy (get_or (r_text resume) "")
    && PyStr.truthy (get_or (DBManager.job_description job) "") in
  match DBManager.job_title job with
  | None =>
      if scored then Raises "TypeError: can only concatenate str (not NoneType) to str"
      else Returns (JobMatcher.match_job_to_resume cfg self resume (string_columns job))
  | Some _ =>
      Returns (JobMatcher.match_job_to_resume cfg self resume (string_columns job))
  end.

(** A value of the merged dictionary: a column of the row or a value of the
    match result. *)
Inductive Cell : Type :=
| Column (v : option string)
| Match (v : PyVal).

(** [{**job, **match_result}]: the entries of the match result win. *)
Definition merge (job : DBManager.Row) (match_result : gmap string PyVal)
    : gmap string Cell :=
  (Match <$> match_result) ∪ (Column <$> columns job).

(** The loop that builds [jobs_with_scores]. *)
Fixpoint score_loop (cfg : Settings) (self : JobMatcher.t) (resume : ParsedResume)
    (all_jobs_from_db : list DBManager.Row) : outcome (list (gmap string Cell)) :=
  match all_jobs_from_db with
  | [] => Returns []
  | job :: jobs =>
      match match_stored_job cfg self resume job with
      | Raises e => Raises e
      | Returns match_result =>
          match score_loop cfg self resume jobs with
          | Raises e => Raises e
          | Returns jobs_with_scores => Returns (merge job match_result :: jobs_with_scores)
          end
      end
  end.

(** The sort key [lambda x: x['final_score']] *)
Definition final_score_key (x : gmap string Cell) : outcome Q :=
  match x !! "final_score" with
  | Some (Match (VFloat score)) => Returns score
  | _ => Raises "KeyError: final_score"
  end.

Fixpoint keyed (xs : list (gmap string Cell)) : outcome (list (Q * gmap string Cell)) :=
  match xs with
  | [] => Returns []
  | x :: xs' =>
      match final_score_key x with
      | Raises e => Raises e
      | Returns k =>
          match keyed xs' with
          | Raises e => Raises e
          | Returns rest => Returns ((k, x) :: rest)
          end
      end
  end.

(** [sorted(..., reverse=True)] on the keys: descending, elements with equal
    keys staying in their original order. *)
Fixpoint insert_desc (x : Q * gmap string Cell) (l : list (Q * gmap string Cell))
    : list (Q * gmap string Cell) :=
  match l with
  | [] => [x]
  | y :: l' => if Qle_bool y.1 x.1 then x :: l else y :: insert_desc x l'
  end.

Definition sorted_desc (l : list (Q * gmap string Cell)) : list (Q * gmap string Cell) :=
  foldr insert_desc [] l.

(** [st.session_state.jobs_data] after "Fetch & Match" *)
Definition rank_jobs (cfg : Settings) (self : JobMatcher.t) (resume : ParsedResume)
    (all_jobs_from_db : list DBManager.Row) : outcome (list (gmap string Cell)) :=
  match all_jobs_from_db with
  | [] => Returns []
  | _ =>
      match score_loop cfg self resume all_jobs_from_db with
      | Raises e => Raises e
      | Returns jobs_with_scores =>
          match keyed jobs_with_scores with
          | Raises e => Raises e
          | Returns ks => Returns ((sorted_desc ks).*2)
          end
      end
  end.

(** A row the matcher can score without raising. *)
Definition scorable (resume : ParsedResume) (job : DBManager.Row) : Prop :=
  DBManager.job_title job = None →
  get_or (r_text resume) "" = "" ∨ get_or (DBManager.job_description job) "" = "".

End App.

(** ** [src/matching/job_matcher.py], in the arithmetic of the program

    The scoring of [match_job_to_resume] once more, over the numbers and
    the operations the code applies to them instead of over the rationals.
    In the program the numbers are binary64 floats ([binary64] below); the
    rest of this development reads them as exact rationals ([exact]). *)

Module PyFloat.

Record Arith : Type := mkArith {
  num : Type;
  f_of_int : Z → num;              (* an [int] where a float is used: [len(...)], [1], [2], [100] *)
  f_add : num → num → num;
  f_mul : num → num → num;
  f_div : num → num → num;
  f_round : num → nat → num;       (* [round(x, ndigits)] *)
  f_le : num → num → Prop
}.

(** The values of the result dictionary. *)
Inductive Val (F : Type) : Type :=
| VNum (x : F)
| VWords (l : list string).
Arguments VNum {F} x.
Arguments VWords {F} l.

(** The loaded sentence transformer, as in [SemanticMatcher.t], its cosine
    being a number of the arithmetic. *)
Record Transformer (A : Arith) : Type := mkTransformer {
  Emb : Type;
  encode : string → Emb;
  cos_sim : Emb → Emb → num A
}.
Arguments Emb {A} _.
Arguments encode {A} _ _.
Arguments cos_sim {A} _ _ _.

Definition get_embedding {A} (self : Transformer A) (text : string) : option (Emb self) :=
  if PyStr.truthy text then Some (encode self text) else None.

Definition calculate_similarity {A} (self : Transformer A)
    (embedding1 embedding2 : option (Emb self)) : num A :=
  match embedding1, embedding2 with
  | Some e1, Some e2 => cos_sim self e1 e2
  | _, _ => f_of_int A 0
  end.

Definition get_semantic_score {A} (self : Transformer A) (text1 text2 : string) : num A :=
  if negb (PyStr.truthy text1) || negb (PyStr.truthy text2) then f_of_int A 0
  else
    let embedding1 := get_embedding self text1 in
    let embedding2 := get_embedding self text2 in
    calculate_similarity self embedding1 embedding2.

Definition _calculate_keyword_overlap_score (A : Arith)
    (resume_keywords job_keywords : list string) : num A :=
  if JobMatcher.is_empty_list resume_keywords || JobMatcher.is_empty_list job_keywords
  then f_of_int A 0
  else
    let resume_set : gset string := list_to_set resume_keywords in
    let job_set : gset string := list_to_set job_keywords in
    let intersection := size (resume_set ∩ job_set) in
    let union := size (resume_set ∪ job_set) in
    if (union =? 0)%nat then f_of_int A 0
    else f_div A (f_of_int A (Z.of_nat intersection)) (f_of_int A (Z.of_nat union)).

(** [keyword_weight] and [semantic_weight] are [settings.KEYWORD_WEIGHT] and
    [settings.SEMANTIC_WEIGHT]. *)
Definition match_job_to_resume (A : Arith) (keyword_weight semantic_weight : num A)
    (resume_parser : ResumeParser.t) (semantic_matcher : Transformer A)
    (resume_parsed_data : ParsedResume) (job_data : gmap string string)
    : gmap string (Val (num A)) :=
  let resume_text := get_or (r_text resume_parsed_data) "" in
  let resume_skills := get_or (r_skills resume_parsed_data) [] in
  let resume_keywords := get_or (r_keywords resume_parsed_data) [] in
  let job_description := get_or (job_data !! "job_description") "" in
  let job_title := get_or (job_data !! "job_title") "" in
  if negb (PyStr.truthy resume_text) || negb (PyStr.truthy job_description) then
    <["final_score" := VNum (f_of_int A 0)]>
      (<["keyword_score" := VNum (f_of_int A 0)]>
         (<["semantic_score" := VNum (f_of_int A 0)]> ∅))
  else
    let job_description_skills :=
      ResumeParser.extract_skills resume_parser (job_description +:+ " " +:+ job_title) in
    let job_description_keywords :=
      ResumeParser.extract_general_keywords resume_parser job_description in
    let keyword_score :=
      _calculate_keyword_overlap_score A resume_keywords job_description_keywords in
    let semantic_score := get_semantic_score semantic_matcher resume_text job_description in
    let normalized_semantic_score :=
      f_div A (f_add A semantic_score (f_of_int A 1)) (f_of_int A 2) in
    let final_score :=
      f_add A (f_mul A keyword_score keyword_weight)
              (f_mul A normalized_semantic_score semantic_weight) in
    let final_score := f_round A (f_mul A final_score (f_of_int A 100)) 2 in
    <["final_score" := VNum final_score]>
      (<["keyword_score" := VNum (f_round A (f_mul A keyword_score (f_of_int A 100)) 2)]>
         (<["semantic_score" :=
              VNum (f_round A (f_mul A normalized_semantic_score (f_of_int A 100)) 2)]>
            (<["matched_keywords" :=
                 VWords (elements ((list_to_set resume_keywords : gset string)
                                     ∩ list_to_set job_description_keywords))]> ∅))).

(** *** The rationals *)

Definition exact : Arith :=
  {| num := Q; f_of_int := inject_Z; f_add := Qplus; f_mul := Qmult; f_div := Qdiv;
     f_round := round; f_le := Qle |}.

Definition of_semantic_matcher (sm : SemanticMatcher.t) : Transformer exact :=
  mkTransformer exact
    (SemanticMatcher.Emb sm) (SemanticMatcher.encode sm) (SemanticMatcher.cos_sim sm).

Definition to_PyVal (v : Val Q) : PyVal :=
  match v with
  | VNum x => VFloat x
  | VWords l => VList l
  end.

(** *** Binary64 floats *)

(** [float(n)], for an [int] below 2^63 in absolute value. *)
Definition float_of_Z (z : Z) : PrimFloat.float :=
  match z with
  | Z0 => PrimFloat.zero
  | Zpos _ => PrimFloat.of_uint63 (Uint63.of_Z z)
  | Zneg p => PrimFloat.opp (PrimFloat.of_uint63 (Uint63.of_Z (Zpos p)))
  end.

(** The rational a finite float stands for. *)
Definition float_to_Q (x : PrimFloat.float) : option Q :=
  match FloatOps.Prim2SF x with
  | SpecFloat.S754_zero _ => Some 0%Q
  | SpecFloat.S754_finite s m e =>
      Some (inject_Z (if s then Zneg m else Zpos m) * Qpower 2 e)%Q
  | _ => None
  end.

(** [round(x, ndigits)] on a float: the float's exact value is rounded to
    [ndigits] decimals, ties to even, and the decimal read back as the
    nearest float. *)
Definition float_round (x : PrimFloat.float) (ndigits : nat) : PrimFloat.float :=
  match float_to_Q x with
  | Some q =>
      let scale := 10 ^ Z.of_nat ndigits in
      PrimFloat.div (float_of_Z (round_half_even (q * inject_Z scale))) (float_of_Z scale)
  | None => x
  end.

Definition binary64 : Arith :=
  {| num := PrimFloat.float; f_of_int := float_of_Z;
     f_add := PrimFloat.add; f_mul := PrimFloat.mul; f_div := PrimFloat.div;
     f_round := float_round;
     f_le := λ x y, PrimFloat.leb x y = true |}.

(** *** The quantities the specification names *)

(** The Jaccard index of two keyword sets: the size of the intersection
    divided by the size of the union. *)
Definition jaccard (A : Arith) (X Y : gset string) : num A :=
  f_div A (f_of_int A (Z.of_nat (size (X ∩ Y)))) (f_of_int A (Z.of_nat (size (X ∪ Y)))).

Definition keywordScore (A : Arith) (X Y : gset string) : num A :=
  if decide (X = ∅ ∨ Y = ∅) then f_of_int A 0 else jaccard A X Y.

(** [(rawSemantic + 1) / 2] *)
Definition semanticScore (A : Arith) (raw : num A) : num A :=
  f_div A (f_add A raw (f_of_int A 1)) (f_of_int A 2).



End PyFloat.

(** ** Further sample data *)

Module Demo.

(** A short history: a posting is stored, marked as applied, fetched again,
    and a second posting arrives while a statement fails. *)
Definition history : list Store.call :=
  [ Store.Insert DBManager.Healthy Sample.now Sample.job;
    Store.SetStatus DBManager.Healthy "job-1" "applied";
    Store.Insert DBManager.Healthy Sample.later Sample.job_refetched;
    Store.Insert DBManager.StatementFails Sample.later
      (<["job_id" := "job-2"]> Sample.job) ].

(** A résumé directory with a text file, a PDF and an unreadable file. *)
Definition fs : ResumeFiles.FileSystem :=
  {| ResumeFiles.path_exists :=
       λ p, bool_decide (p ∈ ["resumes/cv.TXT"; "resumes/cv.pdf"; "resumes/locked.txt"]);
     ResumeFiles.read_text :=
       λ p, if bool_decide (p = "resumes/cv.TXT") then Returns Sample.resume_text
            else Raises "PermissionError" |}.

(** An uploaded PDF of two pages, the second without extractable text. *)
Definition pdf_upload : ResumeFiles.UploadedFile :=
  {| ResumeFiles.name := Some "CV.PDF";
     ResumeFiles.pdf_pages := Returns [Returns (Some "CAD and design"); Returns None];
     ResumeFiles.decoded := Raises "UnicodeDecodeError" |}.

(** An uploaded text file that is not valid UTF-8. *)
Definition bad_txt_upload : ResumeFiles.UploadedFile :=
  {| ResumeFiles.name := Some "cv.txt";
     ResumeFiles.pdf_pages := Raises "PdfReadError";
     ResumeFiles.decoded := Raises "UnicodeDecodeError" |}.

(** A tagged document for "Designing gearboxes in Jan for the new Team CAD". *)
Definition tagged : string → list KeywordExtractor.TaggedToken :=
  λ _, [ KeywordExtractor.mkTagged "design" "VERB" false true;
         KeywordExtractor.mkTagged "Gearbox " "NOUN" false true;
         KeywordExtractor.mkTagged "in" "ADP" true true;
         KeywordExtractor.mkTagged "Jan" "PROPN" false true;
         KeywordExtractor.mkTagged "for" "ADP" true true;
         KeywordExtractor.mkTagged "the" "DET" true true;
         KeywordExtractor.mkTagged "new" "ADJ" false true;
         KeywordExtractor.mkTagged "team" "NOUN" false true;
         KeywordExtractor.mkTagged "CAD" "PROPN" false true ].

Definition api : JSearchAPI.t :=
  JSearchAPI.mk (<["X-RapidAPI-Host" := "jsearch.p.rapidapi.com"]>
                   (<["X-RapidAPI-Key" := "secret"]> ∅)).

(** A network that is rate-limited once, then serves page 1, then rejects
    every further request as malformed. *)
Definition net : JSearchAPI.Network :=
  λ n url headers params,
    match n with
    | 0%nat => JSearchAPI.HTTPError 429
    | 1%nat => JSearchAPI.Json (JSearchAPI.mkBody (Some [Sample.job]))
    | _ => JSearchAPI.HTTPError 400
    end.

Definition world0 : JSearchAPI.World := JSearchAPI.mkWorld 0 [].

(** Two stored rows, the second with a longer description. *)
Definition row1 : DBManager.Row :=
  {| DBManager.job_id := "job-1";
     DBManager.job_title := Some "Design Engineer";
     DBManager.company_name := None;
     DBManager.location := Some "Vancouver";
     DBManager.job_description := Some "Product design and testing for the quality team";
     DBManager.job_url := None;
     DBManager.employer_website := None;
     DBManager.job_employment_type := Some "FULLTIME";
     DBManager.job_posted_at_datetime_utc := None;
     DBManager.status := "applied";
     DBManager.retrieved_at := Sample.now |}.

Definition row2 : DBManager.Row :=
  {| DBManager.job_id := "job-2";
     DBManager.job_title := Some "Manufacturing Engineer";
     DBManager.company_name := None;
     DBManager.location := None;
     DBManager.job_description :=
       Some "Mechanical design, manufacturing and testing of gearboxes";
     DBManager.job_url := None;
     DBManager.employer_website := None;
     DBManager.job_employment_type := None;
     DBManager.job_posted_at_datetime_utc := None;
     DBManager.status := "new";
     DBManager.retrieved_at := Sample.later |}.

(** A fetched job that has a description but no title. *)
Definition untitled_job : gmap string string :=
  <["job_id" := "job-3"]> (<["job_description" := "Design of gearboxes"]> ∅).

Definition clock : nat → string := λ _, Sample.now.


(** Cosine -1/8 for every pair of texts, as a float and as a rational. *)
Definition eighth_float : PyFloat.Transformer PyFloat.binary64 :=
  PyFloat.mkTransformer PyFloat.binary64 string (λ text, text)
    (λ _ _, PrimFloat.div (PyFloat.float_of_Z (-1)) (PyFloat.float_of_Z 8)).

Definition eighth : SemanticMatcher.t :=
  {| SemanticMatcher.Emb := string;
     SemanticMatcher.encode := λ text, text;
     SemanticMatcher.cos_sim := λ _ _, (-1 # 8)%Q |}.

(** A résumé with one keyword and a job whose description has five, the
    résumé's among them: a Jaccard index of 1/5. *)
Definition one_keyword_resume : ParsedResume :=
  {| r_text := Some "Design engineer";
     r_skills := Some [];
     r_keywords := Some ["design"] |}.

Definition five_keyword_job : gmap string string :=
  <["job_title" := "Engineer"]>
    (<["job_description" := "design analysis testing quality process"]> ∅).

(** 0.5 *)
Definition half : PrimFloat.float :=
  PrimFloat.div (PyFloat.float_of_Z 1) (PyFloat.float_of_Z 2).

End Demo.

(** * Properties *)

(** ** Rational arithmetic helpers *)

Lemma Qdiv_nat_bounds (a b : nat) :
  (0 < b)%nat → (a ≤ b)%nat →
  (0 <= inject_Z (Z.of_nat a) / inject_Z (Z.of_nat b))%Q
  ∧ (inject_Z (Z.of_nat a) / inject_Z (Z.of_nat b) <= 1)%Q.
Proof.
  intros Hb Hab.
  assert (Hpos : (0 < inject_Z (Z.of_nat b))%Q).
  { change 0%Q with (inject_Z 0). rewrite <- Zlt_Qlt. lia. }
  split.
  - apply Qle_shift_div_l; [exact Hpos|].
    rewrite Qmult_0_l. change 0%Q with (inject_Z 0). rewrite <- Zle_Qle. lia.
  - apply Qle_shift_div_r; [exact Hpos|].
    rewrite Qmult_1_l. rewrite <- Zle_Qle. lia.
Qed.

Lemma Qdiv_nat_eq_1 (a b : nat) :
  (0 < b)%nat →
  (inject_Z (Z.of_nat a) / inject_Z (Z.of_nat b) == 1)%Q ↔ a = b.
Proof.
  intros Hb.
  assert (Hnz : ¬ (inject_Z (Z.of_nat b) == 0)%Q).
  { change 0%Q with (inject_Z 0). rewrite inject_Z_injective. lia. }
  split.
  - intros H.
    assert (He : (inject_Z (Z.of_nat a) == inject_Z (Z.of_nat b))%Q).
    { rewrite <- (Qmult_div_r (inject_Z (Z.of_nat a)) (inject_Z (Z.of_nat b))) by exact Hnz.
      rewrite H. ring. }
    rewrite inject_Z_injective in He. lia.
  - intros ->. field. exact Hnz.
Qed.

(** ** Sets of keywords *)

Lemma list_to_set_nonempty (l : list string) :
  l ≠ [] → (list_to_set l : gset string) ≠ ∅.
Proof.
  destruct l as [|x l]; [done|]. intros _ He.
  assert (Hx : x ∈ (list_to_set (x :: l) : gset string)).
  { apply elem_of_list_to_set. by left. }
  rewrite He in Hx. by apply not_elem_of_empty in Hx.
Qed.

Lemma size_inter_le_union (A B : gset string) : (size (A ∩ B) ≤ size (A ∪ B))%nat.
Proof.
  apply subseteq_size. etrans; [apply intersection_subseteq_l|apply union_subseteq_l].
Qed.

Lemma size_inter_eq_union (A B : gset string) :
  size (A ∩ B) = size (A ∪ B) ↔ A = B.
Proof.
  split.
  - intros H.
    assert (Heq : A ∩ B = A ∪ B).
    { apply set_subseteq_size_eq; [|lia].
      etrans; [apply intersection_subseteq_l|apply union_subseteq_l]. }
    apply set_eq. intros x. split; intros Hx.
    + assert (x ∈ A ∪ B) as Hu by (apply elem_of_union; by left).
      rewrite <- Heq in Hu. by apply elem_of_intersection in Hu as [_ ?].
    + assert (x ∈ A ∪ B) as Hu by (apply elem_of_union; by right).
      rewrite <- Heq in Hu. by apply elem_of_intersection in Hu as [? _].
  - intros ->. by rewrite intersection_idemp_L, union_idemp_L.
Qed.

Lemma is_empty_list_false {A} (l : list A) :
  l ≠ [] → JobMatcher.is_empty_list l = false.
Proof. by destruct l. Qed.

Lemma overlap_score_unfold (rk jk : list string) :
  rk ≠ [] → jk ≠ [] →
  JobMatcher._calculate_keyword_overlap_score rk jk
  = Spec.jaccard (list_to_set rk) (list_to_set jk)
  ∧ (0 < size ((list_to_set rk : gset string) ∪ list_to_set jk))%nat.
Proof.
  intros Hr Hj.
  assert (Hpos : (0 < size ((list_to_set rk : gset string) ∪ list_to_set jk))%nat).
  { destruct (decide (size ((list_to_set rk : gset string) ∪ list_to_set jk) = 0%nat)) as [E|E]; [|lia].
    apply size_empty_inv in E. apply list_to_set_nonempty in Hr.
    exfalso. apply Hr, set_eq. intros x. split; [|by intros ?%not_elem_of_empty].
    intros Hx. apply (proj1 (E x)). apply elem_of_union. by left. }
  split; [|exact Hpos].
  unfold JobMatcher._calculate_keyword_overlap_score.
  rewrite !is_empty_list_false by done. cbn [orb].
  destruct (Nat.eqb_spec (size ((list_to_set rk : gset string) ∪ list_to_set jk)) 0); [lia|done].
Qed.

(** ** C3: the keyword overlap score *)

(** C3. For non-empty keyword lists the score of
    [_calculate_keyword_overlap_score] is the Jaccard index of the two sets,
    lies between 0 and 1, and is 1 exactly when the two sets are equal (and
    then non-empty); when either list is empty the score is 0.0. *)
Theorem keyword_overlap_score_jaccard (resume_keywords job_keywords : list string) :
  let resume_set : gset string := list_to_set resume_keywords in
  let job_set : gset string := list_to_set job_keywords in
  let score := JobMatcher._calculate_keyword_overlap_score resume_keywords job_keywords in
  (resume_keywords ≠ [] → job_keywords ≠ [] →
     score = Spec.jaccard resume_set job_set
     ∧ (0 <= score)%Q ∧ (score <= 1)%Q
     ∧ ((score == 1)%Q ↔ resume_set = job_set ∧ resume_set ≠ ∅))
  ∧ (resume_keywords = [] ∨ job_keywords = [] → score = 0%Q).
Proof.
  intros resume_set job_set score. split.
  - intros Hr Hj.
    destruct (overlap_score_unfold _ _ Hr Hj) as [Hs Hpos].
    fold resume_set job_set score in Hs, Hpos.
    pose proof (size_inter_le_union resume_set job_set) as Hle.
    destruct (Qdiv_nat_bounds _ _ Hpos Hle) as [H0 H1].
    split; [exact Hs|]. rewrite Hs. unfold Spec.jaccard.
    split; [exact H0|]. split; [exact H1|].
    rewrite (Qdiv_nat_eq_1 _ _ Hpos), size_inter_eq_union.
    split; [|tauto].
    intros E. split; [exact E|]. by apply list_to_set_nonempty.
  - subst score. unfold JobMatcher._calculate_keyword_overlap_score.
    intros [-> | ->]; [done|]. by destruct resume_keywords.
Qed.

Lemma keyword_overlap_score_jaccard_witness :
  JobMatcher._calculate_keyword_overlap_score ["design"; "testing"] ["design"; "quality"]
  = Spec.jaccard {["design"; "testing"]} {["design"; "quality"]}
  ∧ JobMatcher._calculate_keyword_overlap_score [] ["design"] = 0%Q.
Proof.
  destruct (keyword_overlap_score_jaccard ["design"; "testing"] ["design"; "quality"])
    as [H _].
  destruct (keyword_overlap_score_jaccard [] ["design"]) as [_ H0].
  cbv zeta in H, H0.
  destruct (H ltac:(discriminate) ltac:(discriminate)) as (Hs & _).
  split.
  - rewrite Hs. by vm_compute.
  - apply H0. left. reflexivity.
Defined.

(** ** Rounding *)

Lemma round_half_even_bounds (x : Q) (lo hi : Z) :
  (inject_Z lo <= x)%Q → (x <= inject_Z hi)%Q →
  lo ≤ round_half_even x ∧ round_half_even x ≤ hi.
Proof.
  intros Hlo Hhi.
  assert (Hf1 : lo ≤ Qfloor x).
  { rewrite <- (Qfloor_Z lo). by apply Qfloor_resp_le. }
  assert (Hf2 : Qfloor x ≤ hi).
  { rewrite <- (Qfloor_Z hi). by apply Qfloor_resp_le. }
  assert (Hup : (0 < x - inject_Z (Qfloor x))%Q → Qfloor x + 1 ≤ hi).
  { intros Hfrac.
    assert (Hlt : (inject_Z (Qfloor x) < inject_Z hi)%Q) by lra.
    rewrite <- Zlt_Qlt in Hlt. lia. }
  unfold round_half_even.
  destruct (x - inject_Z (Qfloor x) ?= 1 # 2)%Q eqn:Hc.
  - apply Qeq_alt in Hc. destruct (Z.even (Qfloor x)); [lia|].
    split; [lia|]. apply Hup. lra.
  - lia.
  - apply Qgt_alt in Hc. split; [lia|]. apply Hup. lra.
Qed.

Lemma round_half_even_comp (x y : Q) :
  (x == y)%Q → round_half_even x = round_half_even y.
Proof.
  intros E. unfold round_half_even.
  rewrite (Qfloor_comp _ _ E).
  assert (Hc : ((x - inject_Z (Qfloor y) ?= 1 # 2) = (y - inject_Z (Qfloor y) ?= 1 # 2))%Q).
  { apply Qcompare_comp; [by rewrite E|reflexivity]. }
  by rewrite Hc.
Qed.

Lemma round_2_percent (x : Q) :
  (0 <= x)%Q → (x <= 100)%Q → (0 <= round x 2)%Q ∧ (round x 2 <= 100)%Q.
Proof.
  intros H0 H100. unfold round.
  change (inject_Z (10 ^ Z.of_nat 2)) with (inject_Z 100).
  destruct (round_half_even_bounds (x * inject_Z 100) 0 10000) as [Ha Hb].
  - change (inject_Z 0) with 0%Q. change (inject_Z 100) with 100%Q. lra.
  - change (inject_Z 10000) with 10000%Q. change (inject_Z 100) with 100%Q. lra.
  - rewrite Zle_Qle in Ha, Hb.
    set (r := inject_Z (round_half_even (x * inject_Z 100))) in *.
    change (inject_Z 0) with 0%Q in Ha. change (inject_Z 10000) with 10000%Q in Hb.
    change (inject_Z 100) with 100%Q.
    split.
    + apply Qle_shift_div_l; lra.
    + apply Qle_shift_div_r; lra.
Qed.

(** ** The semantic score *)

Lemma truthy_false_iff (s : string) : PyStr.truthy s = false ↔ s = "".
Proof. by destruct s. Qed.

Lemma semantic_score_in_range (sm : SemanticMatcher.t) (text1 text2 : string) :
  SemanticMatcher.cosine_in_range sm →
  (-1 <= SemanticMatcher.get_semantic_score sm text1 text2)%Q
  ∧ (SemanticMatcher.get_semantic_score sm text1 text2 <= 1)%Q.
Proof.
  intros Hcos. unfold SemanticMatcher.get_semantic_score, SemanticMatcher.get_embedding.
  destruct (PyStr.truthy text1), (PyStr.truthy text2); cbn; try lra.
  apply Hcos.
Qed.

Lemma normalized_in_unit (raw : Q) :
  (-1 <= raw)%Q → (raw <= 1)%Q →
  (0 <= Spec.normalized raw)%Q ∧ (Spec.normalized raw <= 1)%Q.
Proof.
  intros Hlo Hhi. unfold Spec.normalized. split.
  - apply Qle_shift_div_l; lra.
  - apply Qle_shift_div_r; lra.
Qed.

(** ** The keyword score, on every pair of lists *)

Lemma overlap_score_spec (rk jk : list string) :
  JobMatcher._calculate_keyword_overlap_score rk jk
  = Spec.keyword_score (list_to_set rk) (list_to_set jk).
Proof.
  unfold Spec.keyword_score.
  destruct (decide (rk = [])) as [->|Hr].
  { rewrite decide_True; [done|by left]. }
  destruct (decide (jk = [])) as [->|Hj].
  { rewrite decide_True; [by destruct rk|by right]. }
  rewrite decide_False.
  - by apply overlap_score_unfold.
  - intros [E|E]; by eapply list_to_set_nonempty; [|exact E].
Qed.

Lemma overlap_score_in_unit (rk jk : list string) :
  (0 <= JobMatcher._calculate_keyword_overlap_score rk jk)%Q
  ∧ (JobMatcher._calculate_keyword_overlap_score rk jk <= 1)%Q.
Proof.
  destruct (decide (rk = [])) as [->|Hr]; [cbn; lra|].
  destruct (decide (jk = [])) as [->|Hj].
  { destruct rk; cbn; lra. }
  destruct (overlap_score_unfold rk jk Hr Hj) as [-> Hpos].
  apply Qdiv_nat_bounds; [exact Hpos|apply size_inter_le_union].
Qed.

(** ** The two return paths of [match_job_to_resume] *)

Lemma match_empty_unfold cfg self resume job :
  get_or (r_text resume) "" = "" ∨ get_or (job !! "job_description") "" = "" →
  JobMatcher.match_job_to_resume cfg self resume job
  = <["final_score" := VFloat 0]>
      (<["keyword_score" := VFloat 0]> (<["semantic_score" := VFloat 0]> ∅)).
Proof.
  intros H. unfold JobMatcher.match_job_to_resume.
  destruct H as [-> | ->]; cbn [PyStr.truthy negb orb]; [done|].
  by rewrite orb_true_r.
Qed.

Lemma match_scored_unfold cfg self resume job :
  get_or (r_text resume) "" ≠ "" → get_or (job !! "job_description") "" ≠ "" →
  let resume_text := get_or (r_text resume) "" in
  let resume_keywords := get_or (r_keywords resume) [] in
  let job_description := get_or (job !! "job_description") "" in
  let job_keywords :=
    ResumeParser.extract_general_keywords (JobMatcher.resume_parser self) job_description in
  let keywordScore :=
    JobMatcher._calculate_keyword_overlap_score resume_keywords job_keywords in
  let semanticScore :=
    Spec.normalized
      (SemanticMatcher.get_semantic_score (JobMatcher.semantic_matcher self)
         resume_text job_description) in
  JobMatcher.match_job_to_resume cfg self resume job
  = <["final_score" :=
        VFloat (Spec.final_score (KEYWORD_WEIGHT cfg) (SEMANTIC_WEIGHT cfg)
                  keywordScore semanticScore)]>
      (<["keyword_score" := VFloat (round (keywordScore * 100) 2)]>
         (<["semantic_score" := VFloat (round (semanticScore * 100) 2)]>
            (<["matched_keywords" :=
                 VList (elements ((list_to_set resume_keywords : gset string)
                                    ∩ list_to_set job_keywords))]> ∅))).
Proof.
  intros Ht Hd. cbn zeta. unfold JobMatcher.match_job_to_resume.
  destruct (PyStr.truthy (get_or (r_text resume) "")) eqn:E1.
  2:{ by apply truthy_false_iff in E1. }
  destruct (PyStr.truthy (get_or (job !! "job_description") "")) eqn:E2.
  2:{ by apply truthy_false_iff in E2. }
  reflexivity.
Qed.

(** ** C1: empty résumé text or empty job description *)

(** C1, as amended. When the résumé text or the job description is empty (or
    absent), [match_job_to_resume] returns exactly
    [{final_score: 0.0, keyword_score: 0.0, semantic_score: 0.0}]; the
    dictionary holds no [matched_keywords] entry. *)
Theorem match_empty_text_zero_scores cfg self resume job :
  get_or (r_text resume) "" = "" ∨ get_or (job !! "job_description") "" = "" →
  let result := JobMatcher.match_job_to_resume cfg self resume job in
  result = <["final_score" := VFloat 0]>
             (<["keyword_score" := VFloat 0]> (<["semantic_score" := VFloat 0]> ∅))
  ∧ result !! "final_score" = Some (VFloat 0)
  ∧ result !! "keyword_score" = Some (VFloat 0)
  ∧ result !! "semantic_score" = Some (VFloat 0)
  ∧ result !! "matched_keywords" = None
  ∧ dom result = ({["final_score"; "keyword_score"; "semantic_score"]} : gset string).
Proof.
  intros H result. subst result. rewrite (match_empty_unfold _ _ _ _ H).
  repeat split; by vm_compute.
Qed.

Lemma match_empty_text_zero_scores_witness :
  let result :=
    JobMatcher.match_job_to_resume settings Sample.matcher Sample.empty_resume Sample.job in
  result !! "final_score" = Some (VFloat 0) ∧ result !! "matched_keywords" = None.
Proof.
  pose proof (match_empty_text_zero_scores settings Sample.matcher
                Sample.empty_resume Sample.job (or_introl eq_refl)) as H.
  cbv zeta in H. destruct H as (_ & H1 & _ & _ & H2 & _).
  split; [exact H1|exact H2].
Defined.

(** The claim as the specification states it fails: for an empty résumé the
    returned dictionary is not [{0.0, 0.0, 0.0, ∅}], since it has no
    [matched_keywords] component at all. *)
Lemma match_empty_text_lacks_matched_keywords :
  r_text Sample.empty_resume = Some ""
  ∧ JobMatcher.match_job_to_resume settings Sample.matcher Sample.empty_resume Sample.job
    ≠ Spec.empty_match_result
  ∧ JobMatcher.match_job_to_resume settings Sample.matcher Sample.empty_resume Sample.job
    !! "matched_keywords" ≠ Some (VList []).
Proof.
  split; [reflexivity|]. split.
  - intros E. apply (f_equal (λ d : gmap string PyVal, d !! "matched_keywords")) in E.
    vm_compute in E. discriminate E.
  - vm_compute. discriminate.
Qed.

(** ** The sample embedder *)

Lemma sample_embedder_in_range : SemanticMatcher.cosine_in_range Sample.embedder.
Proof.
  intros a b. unfold Sample.embedder. cbn [SemanticMatcher.cos_sim].
  case_decide; lra.
Qed.

(** ** C2: the score formula *)




(** Over the rationals the scoring is the one of [JobMatcher]. *)
Lemma match_job_to_resume_exact cfg self resume job :
  PyFloat.to_PyVal <$>
    PyFloat.match_job_to_resume PyFloat.exact (KEYWORD_WEIGHT cfg) (SEMANTIC_WEIGHT cfg)
      (JobMatcher.resume_parser self)
      (PyFloat.of_semantic_matcher (JobMatcher.semantic_matcher self)) resume job
  = JobMatcher.match_job_to_resume cfg self resume job.
Proof.
  unfold PyFloat.match_job_to_resume, JobMatcher.match_job_to_resume.
  destruct (negb (PyStr.truthy (get_or (r_text resume) ""))
            || negb (PyStr.truthy (get_or (job !! "job_description") ""))).
  - by rewrite !fmap_insert, fmap_empty.
  - by rewrite !fmap_insert, fmap_empty.
Qed.




(** Where a float operation rounds, the two arithmetics part: for a Jaccard
    index of 1/5, a cosine of -1/8 and the default weights the program
    returns 31.87, the weighted sum times 100 being just below 31.875 in
    binary64, and the rationals give 31.88. *)
Example final_score_of_floats_and_of_rationals :
  PyFloat.match_job_to_resume PyFloat.binary64 Demo.half Demo.half
    Sample.parser Demo.eighth_float Demo.one_keyword_resume Demo.five_keyword_job
    !! "final_score"
  = Some (PyFloat.VNum (PrimFloat.div (PyFloat.float_of_Z 3187) (PyFloat.float_of_Z 100)))
  ∧ JobMatcher.match_job_to_resume settings (JobMatcher.mk Sample.parser Demo.eighth)
      Demo.one_keyword_resume Demo.five_keyword_job
    !! "final_score" = Some (VFloat (3188 # 100)).
Proof. split; vm_compute; reflexivity. Qed.

(** ** C7: the final score is a percentage *)

Lemma weighted_sum_in_unit (k s Wk Ws : Q) :
  (0 <= k)%Q → (k <= 1)%Q → (0 <= s)%Q → (s <= 1)%Q →
  (0 <= Wk)%Q → (0 <= Ws)%Q → (Wk + Ws == 1)%Q →
  (0 <= (k * Wk + s * Ws) * 100)%Q ∧ ((k * Wk + s * Ws) * 100 <= 100)%Q.
Proof.
  intros Hk0 Hk1 Hs0 Hs1 HWk HWs Hsum.
  pose proof (Qmult_le_0_compat _ _ Hk0 HWk) as H1.
  pose proof (Qmult_le_0_compat _ _ Hs0 HWs) as H2.
  pose proof (Qmult_le_compat_r _ _ _ Hk1 HWk) as H3.
  pose proof (Qmult_le_compat_r _ _ _ Hs1 HWs) as H4.
  split; lra.
Qed.

(** C7. For every résumé and job record, and every configuration whose
    keyword and semantic weights are non-negative and sum to 1, the
    [final_score] that [match_job_to_resume] returns lies in [0, 100] (the
    cosine similarity being in [-1, 1]). *)
Theorem match_final_score_in_range cfg self resume job :
  SemanticMatcher.cosine_in_range (JobMatcher.semantic_matcher self) →
  (0 <= KEYWORD_WEIGHT cfg)%Q → (0 <= SEMANTIC_WEIGHT cfg)%Q →
  (KEYWORD_WEIGHT cfg + SEMANTIC_WEIGHT cfg == 1)%Q →
  ∃ final_score : Q,
    JobMatcher.match_job_to_resume cfg self resume job !! "final_score"
      = Some (VFloat final_score)
    ∧ (0 <= final_score)%Q ∧ (final_score <= 100)%Q.
Proof.
  intros Hcos HWk HWs Hsum.
  destruct (decide (get_or (r_text resume) "" = "")) as [Ht|Ht].
  { exists 0%Q. rewrite match_empty_unfold by (by left).
    split; [by rewrite lookup_insert_eq|]. lra. }
  destruct (decide (get_or (job !! "job_description") "" = "")) as [Hd|Hd].
  { exists 0%Q. rewrite match_empty_unfold by (by right).
    split; [by rewrite lookup_insert_eq|]. lra. }
  rewrite (match_scored_unfold cfg self resume job Ht Hd). cbn zeta.
  eexists. split; [by rewrite lookup_insert_eq|].
  unfold Spec.final_score.
  destruct (overlap_score_in_unit (get_or (r_keywords resume) [])
    (ResumeParser.extract_general_keywords (JobMatcher.resume_parser self)
       (get_or (job !! "job_description") ""))) as [Hk0 Hk1].
  destruct (semantic_score_in_range (JobMatcher.semantic_matcher self)
    (get_or (r_text resume) "") (get_or (job !! "job_description") "") Hcos) as [Hs0 Hs1].
  destruct (normalized_in_unit _ Hs0 Hs1) as [Hn0 Hn1].
  destruct (weighted_sum_in_unit _ _ _ _ Hk0 Hk1 Hn0 Hn1 HWk HWs Hsum) as [Hw0 Hw1].
  by apply round_2_percent.
Qed.

Lemma match_final_score_in_range_witness :
  ∃ final_score : Q,
    JobMatcher.match_job_to_resume settings Sample.matcher Sample.resume Sample.job
      !! "final_score" = Some (VFloat final_score)
    ∧ (0 <= final_score)%Q ∧ (final_score <= 100)%Q.
Proof.
  apply (match_final_score_in_range settings Sample.matcher Sample.resume Sample.job).
  - exact sample_embedder_in_range.
  - vm_compute. intros E. discriminate E.
  - vm_compute. intros E. discriminate E.
  - vm_compute. reflexivity.
Defined.

(** ** The posting store *)

Lemma insert_job_fresh now db job id :
  job !! "job_id" = Some id → id ≠ "" → db !! id = None →
  ∃ row, DBManager.insert_job DBManager.Healthy now db job
         = (<[id := row]> db, Returns true)
         ∧ DBManager.job_id row = id ∧ DBManager.status row = "new"
         ∧ DBManager.retrieved_at row = now.
Proof.
  intros Hid Hne Hfresh. unfold DBManager.insert_job. rewrite Hid.
  destruct id as [|c id]; [done|]. cbn [PyStr.truthy negb].
  unfold DBManager.with_connection, DBManager.insert_or_ignore. cbn.
  rewrite Hfresh. cbn. eexists. split; [reflexivity|done].
Qed.

Lemma insert_job_existing io now db job id :
  io ≠ DBManager.CannotConnect →
  job !! "job_id" = Some id → is_Some (db !! id) →
  DBManager.insert_job io now db job = (db, Returns false).
Proof.
  intros Hio Hid [row Hrow]. unfold DBManager.insert_job. rewrite Hid.
  destruct (PyStr.truthy id); [|done]. cbn [negb].
  unfold DBManager.with_connection, DBManager.insert_or_ignore.
  destruct io; [|done|done]. cbn. by rewrite Hrow.
Qed.

Lemma update_job_status_existing db id new_status row :
  db !! id = Some row →
  DBManager.update_job_status DBManager.Healthy db id new_status
  = (<[id := DBManager.set_status new_status row]> db, Returns true).
Proof.
  intros Hrow. unfold DBManager.update_job_status, DBManager.with_connection,
    DBManager.update_status. cbn. by rewrite Hrow.
Qed.

Lemma update_job_status_missing io db id new_status :
  io ≠ DBManager.CannotConnect → db !! id = None →
  DBManager.update_job_status io db id new_status = (db, Returns false).
Proof.
  intros Hio Hrow. unfold DBManager.update_job_status, DBManager.with_connection,
    DBManager.update_status. destruct io; [|done|done]. cbn. by rewrite Hrow.
Qed.

(** ** C4: inserting the same posting twice *)

(** C4. For a posting with a (non-empty) id that the store does not hold yet,
    [insert_job] returns true; a second [insert_job] with the same id returns
    false and leaves the table as it finds it, also after the status has been
    set to any value in between: the row, its status included, is never
    overwritten. *)
Theorem insert_job_twice now1 now2 (db : gmap string DBManager.Row)
    (job1 job2 : gmap string string) (id : string) :
  job1 !! "job_id" = Some id → job2 !! "job_id" = Some id →
  id ≠ "" → db !! id = None →
  let first := DBManager.insert_job DBManager.Healthy now1 db job1 in
  first.2 = Returns true
  ∧ DBManager.status <$> (first.1 !! id) = Some "new"
  ∧ DBManager.insert_job DBManager.Healthy now2 first.1 job2 = (first.1, Returns false)
  ∧ (∀ new_status,
       let updated :=
         DBManager.update_job_status DBManager.Healthy first.1 id new_status in
       updated.2 = Returns true
       ∧ DBManager.status <$> (updated.1 !! id) = Some new_status
       ∧ DBManager.insert_job DBManager.Healthy now2 updated.1 job2
         = (updated.1, Returns false))
  ∧ (∀ db' : gmap string DBManager.Row,
       is_Some (db' !! id) →
       DBManager.insert_job DBManager.Healthy now2 db' job2 = (db', Returns false)).
Proof.
  intros Hid1 Hid2 Hne Hfresh first.
  destruct (insert_job_fresh now1 db job1 id Hid1 Hne Hfresh)
    as (row & Hfirst & _ & Hst & _).
  subst first. rewrite Hfirst. cbn [fst snd].
  split; [done|].
  split; [by rewrite lookup_insert_eq, <- Hst|].
  split.
  { apply (insert_job_existing _ _ _ _ id); [done|done|].
    rewrite lookup_insert_eq. by eexists. }
  split.
  - intros new_status.
    rewrite (update_job_status_existing _ id new_status row)
      by apply lookup_insert_eq.
    cbn [fst snd]. split; [done|].
    split; [by rewrite lookup_insert_eq|].
    apply (insert_job_existing _ _ _ _ id); [done|done|].
    rewrite lookup_insert_eq. by eexists.
  - intros db' Hsome. by apply (insert_job_existing _ _ _ _ id).
Qed.

Lemma insert_job_twice_witness :
  (DBManager.insert_job DBManager.Healthy Sample.now ∅ Sample.job).2 = Returns true
  ∧ DBManager.insert_job DBManager.Healthy Sample.later Sample.table Sample.job_refetched
    = (Sample.table, Returns false).
Proof.
  destruct (insert_job_twice Sample.now Sample.later ∅ Sample.job Sample.job_refetched
              "job-1" eq_refl eq_refl ltac:(discriminate) eq_refl)
    as (H1 & _ & H2 & _).
  split; [exact H1|exact H2].
Defined.

(** ** C9: a posting without an id *)

(** C9. When the ['job_id'] entry of the job record is missing or empty,
    [insert_job] returns false and the table is left unchanged, whatever the
    state of the database connection. *)
Theorem insert_job_without_id io now (db : gmap string DBManager.Row)
    (job : gmap string string) :
  job !! "job_id" = None ∨ job !! "job_id" = Some "" →
  DBManager.insert_job io now db job = (db, Returns false).
Proof.
  intros [H|H]; unfold DBManager.insert_job; by rewrite H.
Qed.

Lemma insert_job_without_id_witness :
  DBManager.insert_job DBManager.Healthy Sample.now Sample.table Sample.job_without_id
  = (Sample.table, Returns false)
  ∧ DBManager.insert_job DBManager.Healthy Sample.now Sample.table Sample.job_empty_id
    = (Sample.table, Returns false).
Proof.
  split.
  - apply (insert_job_without_id DBManager.Healthy Sample.now Sample.table
             Sample.job_without_id). left. reflexivity.
  - apply (insert_job_without_id DBManager.Healthy Sample.now Sample.table
             Sample.job_empty_id). right. reflexivity.
Defined.

(** ** C5: the status vocabulary *)

(** C5, as amended. With a working database, [update_job_status] does not
    look at the status value: for an id the table holds it stores any string
    as the new status, changes nothing else, and returns true; for an id the
    table does not hold it returns false and leaves the table unchanged. *)
Theorem update_job_status_any_value (db : gmap string DBManager.Row)
    (id new_status : string) :
  let updated := DBManager.update_job_status DBManager.Healthy db id new_status in
  (∀ row, db !! id = Some row →
     updated.2 = Returns true
     ∧ updated.1 !! id = Some (DBManager.set_status new_status row)
     ∧ DBManager.status <$> (updated.1 !! id) = Some new_status
     ∧ ∀ other, other ≠ id → updated.1 !! other = db !! other)
  ∧ (db !! id = None → updated = (db, Returns false)).
Proof.
  intros updated. subst updated. split.
  - intros row Hrow. rewrite (update_job_status_existing _ _ _ _ Hrow). cbn [fst snd].
    split; [done|]. rewrite lookup_insert_eq. split; [done|]. split; [done|].
    intros other Hne. by rewrite lookup_insert_ne.
  - intros Hnone. by apply update_job_status_missing.
Qed.

Lemma update_job_status_any_value_witness :
  (DBManager.update_job_status DBManager.Healthy Sample.table "job-1" "archived").2
  = Returns true
  ∧ DBManager.update_job_status DBManager.Healthy Sample.table "job-2" "seen"
    = (Sample.table, Returns false).
Proof.
  destruct (update_job_status_any_value Sample.table "job-1" "archived") as [H1 _].
  destruct (update_job_status_any_value Sample.table "job-2" "seen") as [_ H2].
  cbv zeta in H1, H2.
  destruct (H1 _ ltac:(vm_compute; reflexivity)) as [Hr _].
  split; [exact Hr|]. apply H2. vm_compute. reflexivity.
Defined.

(** The claim as the specification states it fails: a status outside
    [{new, seen, applied, interviewing, rejected}] is accepted and stored. *)
Lemma update_job_status_accepts_unknown_status :
("archived" ∉ DBManager.status_options)
  ∧ DBManager.status <$> (Sample.table !! "job-1") = Some "new"
  ∧ (DBManager.update_job_status DBManager.Healthy Sample.table "job-1" "archived").2
    = Returns true
  ∧ DBManager.status <$>
      ((DBManager.update_job_status DBManager.Healthy Sample.table "job-1" "archived").1
         !! "job-1") = Some "archived".
Proof.
  split.
  { apply (bool_decide_eq_false_1 ("archived" ∈ DBManager.status_options)).
    by vm_compute. }
  repeat split; by vm_compute.
Qed.

(** ** Strings and the word-boundary search *)

Lemma string_app_cons (c : ascii) (s t : string) :
  String c s +:+ t = String c (s +:+ t).
Proof. reflexivity. Qed.

Lemma string_app_nil_l (t : string) : "" +:+ t = t.
Proof. reflexivity. Qed.

Lemma string_app_nil_r (s : string) : s +:+ "" = s.
Proof. induction s as [|c s IH]; [done|]. by rewrite string_app_cons, IH. Qed.

Lemma string_app_assoc (a b c : string) : (a +:+ b) +:+ c = a +:+ b +:+ c.
Proof. induction a as [|x a IH]; [done|]. by rewrite !string_app_cons, IH. Qed.

Lemma last_or_app (d : option ascii) (a b : string) :
  PyStr.last_or d (a +:+ b) = PyStr.last_or (PyStr.last_or d a) b.
Proof.
  revert d. induction a as [|x a IH]; intros d; [done|].
  rewrite string_app_cons. cbn [PyStr.last_or]. apply IH.
Qed.

Lemma match_here_escape (w : string) (q : list Re.node) (prev : option ascii) (s : string) :
  Re.match_here (Re.escape w ++ q) prev s = true
  ↔ ∃ post, s = w +:+ post ∧ Re.match_here q (PyStr.last_or prev w) post = true.
Proof.
  revert prev s. induction w as [|c w IH]; intros prev s.
  - cbn [Re.escape app PyStr.last_or]. split.
    + intros H. by exists s.
    + by intros (post & -> & H).
  - cbn [Re.escape app Re.match_here PyStr.last_or]. destruct s as [|d s].
    + split; [done|]. by intros (post & E & _).
    + rewrite andb_true_iff, bool_decide_eq_true, IH. split.
      * intros (-> & post & -> & H). by exists post.
      * intros (post & E & H). rewrite string_app_cons in E.
        injection E as -> ->. split; [done|]. by exists post.
Qed.

Lemma search_from_spec (p : list Re.node) (prev : option ascii) (s : string) :
  Re.search_from p prev s = true
  ↔ ∃ pre post, s = pre +:+ post
                ∧ Re.match_here p (PyStr.last_or prev pre) post = true.
Proof.
  revert prev. induction s as [|c s IH]; intros prev; cbn [Re.search_from].
  - rewrite orb_false_r. split.
    + intros H. by exists "", "".
    + intros (pre & post & E & H). destruct pre; [|done].
      rewrite string_app_nil_l in E. by subst post.
  - rewrite orb_true_iff, IH. split.
    + intros [H | (pre & post & -> & H)].
      * by exists "", (String c s).
      * by exists (String c pre), post.
    + intros (pre & post & E & H). destruct pre as [|x pre].
      * left. rewrite string_app_nil_l in E. by subst post.
      * right. rewrite string_app_cons in E. injection E as -> ->.
        by exists pre, post.
Qed.

Lemma search_whole_word (w s : string) :
  Re.search (Re.whole_word w) s = true ↔ Spec.occurs_as_word w s.
Proof.
  unfold Re.search, Re.whole_word, Spec.occurs_as_word.
  rewrite search_from_spec. split.
  - intros (pre & rest & -> & H). cbn [Re.match_here] in H.
    apply andb_true_iff in H as [Hb H].
    apply match_here_escape in H as (post & -> & H).
    cbn [Re.match_here] in H. rewrite andb_true_r in H.
    exists pre, post. split; [done|]. split; [done|]. by rewrite last_or_app.
  - intros (pre & post & -> & Hb & He). exists pre, (w +:+ post).
    split; [done|]. cbn [Re.match_here]. rewrite Hb. cbn [andb].
    apply match_here_escape. exists post. split; [done|].
    cbn [Re.match_here]. rewrite andb_true_r. by rewrite <- last_or_app.
Qed.

(** A boundary next to a word character has a non-word character on its
    other side. *)
Lemma at_boundary_word_l (a b : option ascii) :
  Re.at_boundary a b = true → Re.is_word a = true → Re.is_word b = false.
Proof. unfold Re.at_boundary. by destruct (Re.is_word a), (Re.is_word b). Qed.

Lemma at_boundary_word_r (a b : option ascii) :
  Re.at_boundary a b = true → Re.is_word b = true → Re.is_word a = false.
Proof. unfold Re.at_boundary. by destruct (Re.is_word a), (Re.is_word b). Qed.

(** ** [sorted(list(set(xs)))] *)

Lemma elem_of_sorted_set (x : string) (xs : list string) :
  x ∈ sorted (list_of_set xs) ↔ x ∈ xs.
Proof.
  unfold sorted, list_of_set.
  rewrite (merge_sort_Permutation String.le), elem_of_elements.
  apply elem_of_list_to_set.
Qed.

Lemma NoDup_sorted_set (xs : list string) : NoDup (sorted (list_of_set xs)).
Proof.
  unfold sorted, list_of_set.
  rewrite (merge_sort_Permutation String.le). apply NoDup_elements.
Qed.

Lemma Sorted_sorted_set (xs : list string) :
  StronglySorted String.le (sorted (list_of_set xs)).
Proof. unfold sorted. apply StronglySorted_merge_sort; apply _. Qed.

Lemma elem_of_extract_skills (self : ResumeParser.t) (text skill : string) :
  skill ∈ ResumeParser.extract_skills self text
  ↔ skill ∈ ResumeParser.common_skills_lower self
    ∧ Spec.occurs_as_word skill (PyStr.lower text).
Proof.
  unfold ResumeParser.extract_skills.
  rewrite elem_of_sorted_set, list_elem_of_filter, search_whole_word. tauto.
Qed.

Lemma last_or_nonempty (d : option ascii) (s : string) :
  s ≠ "" → PyStr.last_or d s = PyStr.last_or None s.
Proof. by destruct s. Qed.

Lemma head_app_nonempty (s t : string) :
  s ≠ "" → PyStr.head (s +:+ t) = PyStr.head s.
Proof. by destruct s. Qed.

Lemma is_word_head_nonempty (s : string) : Re.is_word (PyStr.head s) = true → s ≠ "".
Proof. by destruct s. Qed.

Lemma is_word_last_nonempty (s : string) :
  Re.is_word (PyStr.last_or None s) = true → s ≠ "".
Proof. by destruct s. Qed.

(** A whole-word occurrence is not glued to a word character: where the
    word starts (ends) with a word character, the character before (after)
    the occurrence is not one. *)
Lemma occurs_as_word_delimited (w s : string) :
  Spec.occurs_as_word w s →
  ∃ pre post : string,
    s = pre +:+ w +:+ post
    ∧ (Re.is_word (PyStr.head w) = true → Re.is_word (PyStr.last_or None pre) = false)
    ∧ (Re.is_word (PyStr.last_or None w) = true → Re.is_word (PyStr.head post) = false).
Proof.
  intros (pre & post & -> & Hl & Hr). exists pre, post. split; [done|]. split.
  - intros Hw. pose proof (is_word_head_nonempty _ Hw) as Hne.
    rewrite (head_app_nonempty _ _ Hne) in Hl.
    by apply (at_boundary_word_r _ _ Hl).
  - intros Hw. pose proof (is_word_last_nonempty _ Hw) as Hne.
    rewrite last_or_app, (last_or_nonempty _ _ Hne) in Hr.
    by apply (at_boundary_word_l _ _ Hr).
Qed.

(** ** C8: skills are matched as whole words *)

(** C8, at the lexicon entry "C++". The pattern is the lowercased entry
    between two [\b]; after an entry that ends with a character that is no
    word character, the second [\b] holds only before a word character.  So
    the parser [ResumeParser()] builds does not report "c++" where "C++" is
    a word of its own, and reports it where "C++" is the beginning of a
    longer word.  For entries made of word characters the matching is by
    whole words: with "CAD" in the lexicon and the text "I am proficient in
    AutoCAD and CAD modeling" the result holds "cad", and "cad" is not found
    inside "autocad". *)
Theorem extract_skills_cpp_found_only_inside_a_word (load : outcome Language) :
  ∃ self : ResumeParser.t,
    ResumeParser.__init__ load = Returns self
    ∧ "C++" ∈ ResumeParser.common_skills self
    ∧ ResumeParser.extract_skills self "I write C++ daily" = []
    ∧ ResumeParser.extract_skills self "C++ and Python" = ["python"]
    ∧ ResumeParser.extract_skills self "C++" = []
    ∧ ResumeParser.extract_skills self "C++Builder" = ["c++"]
    ∧ ResumeParser.extract_skills self "c++11" = ["c++"]
    ∧ Re.search (Re.whole_word "c++") "i write c++ daily" = false
    ∧ Re.search (Re.whole_word "c++") "c++builder" = true
    ∧ ResumeParser.extract_skills self Sample.cad_sentence = ["autocad"; "cad"]
    ∧ ResumeParser.extract_skills Sample.cad_parser Sample.cad_sentence = ["cad"]
    ∧ ResumeParser.extract_skills Sample.cad_parser "I am proficient in AutoCAD" = []
    ∧ Re.search (Re.whole_word "cad") "autocad" = false.
Proof.
  eexists. split; [reflexivity|]. split.
  { apply (bool_decide_unpack _). by vm_compute. }
  repeat split; by vm_compute.
Qed.

(** ** Alphabetic tokens *)

Lemma forallb_str_app (p : ascii → bool) (a b : string) :
  PyStr.forallb_str p (a +:+ b) = PyStr.forallb_str p a && PyStr.forallb_str p b.
Proof.
  induction a as [|c a IH]; [done|].
  rewrite string_app_cons. cbn [PyStr.forallb_str]. by rewrite IH, andb_assoc.
Qed.

Lemma forallb_str_head (p : ascii → bool) (s : string) :
  PyStr.forallb_str p s = true → s ≠ "" →
  ∃ c, PyStr.head s = Some c ∧ p c = true.
Proof.
  destruct s as [|c s]; [done|]. cbn. intros [H _]%andb_true_iff _. by exists c.
Qed.

Lemma forallb_str_last (p : ascii → bool) (d : option ascii) (s : string) :
  PyStr.forallb_str p s = true → s ≠ "" →
  ∃ c, PyStr.last_or d s = Some c ∧ p c = true.
Proof.
  revert d. induction s as [|c s IH]; intros d; [done|].
  cbn. intros [Hc Hs]%andb_true_iff _. destruct s as [|c' s].
  - by exists c.
  - by apply IH.
Qed.

Lemma isalpha_char_is_word (c : ascii) :
  PyStr.isalpha_char c = true → PyStr.is_word_char c = true.
Proof. unfold PyStr.is_word_char. by intros ->. Qed.

Lemma isalpha_forallb (s : string) :
  PyStr.isalpha s = true → PyStr.forallb_str PyStr.is_word_char s = true ∧ s ≠ "".
Proof.
  destruct s as [|c s]; [done|]. unfold PyStr.isalpha. intros H. split; [|done].
  revert H. generalize (String c s). clear. intros s.
  induction s as [|c s IH]; [done|]. cbn.
  intros [Hc Hs]%andb_true_iff. by rewrite (isalpha_char_is_word _ Hc), IH.
Qed.

Lemma forallb_str_contains (p : ascii → bool) (c : ascii) (s : string) :
  PyStr.forallb_str p s = true → p c = false → PyStr.contains_char c s = false.
Proof.
  intros Hs Hc. unfold PyStr.contains_char.
  induction s as [|d s IH]; [done|]. cbn in *.
  apply andb_true_iff in Hs as [Hd Hs]. rewrite (IH Hs), orb_false_r.
  apply bool_decide_eq_false. intros ->. congruence.
Qed.

(** Inside a token made of word characters the only word boundaries are its
    two ends: a non-empty word occurring in it between boundaries is the
    whole token. *)
Lemma occurs_as_word_in_token (w token : string) :
  w ≠ "" → PyStr.forallb_str PyStr.is_word_char token = true →
  Spec.occurs_as_word w token → w = token.
Proof.
  intros Hw Htok (pre & post & -> & Hl & Hr).
  rewrite !forallb_str_app in Htok.
  apply andb_true_iff in Htok as [Hpre [Hmid Hpost]%andb_true_iff].
  destruct (forallb_str_head _ _ Hmid Hw) as (c & Hc & Hcw).
  destruct (forallb_str_last _ None _ Hmid Hw) as (d & Hd & Hdw).
  rewrite (head_app_nonempty _ _ Hw), Hc in Hl.
  rewrite last_or_app, (last_or_nonempty _ _ Hw), Hd in Hr.
  assert (Epre : pre = "").
  { destruct (decide (pre = "")) as [|Hne]; [done|].
    destruct (forallb_str_last _ None _ Hpre Hne) as (x & Hx & Hxw).
    rewrite Hx in Hl. unfold Re.at_boundary in Hl. cbn in Hl.
    by rewrite Hxw, Hcw in Hl. }
  assert (Epost : post = "").
  { destruct (decide (post = "")) as [|Hne]; [done|].
    destruct (forallb_str_head _ _ Hpost Hne) as (x & Hx & Hxw).
    rewrite Hx in Hr. unfold Re.at_boundary in Hr. cbn in Hr.
    by rewrite Hxw, Hdw in Hr. }
  subst. by rewrite string_app_nil_l, string_app_nil_r.
Qed.

Lemma keyword_found_in_tokens (tokens : list string) (keyword : string) :
  keyword ≠ "" →
  (∀ token, token ∈ tokens → PyStr.isalpha token = true) →
  ResumeParser.keyword_found tokens keyword = true ↔ keyword ∈ tokens.
Proof.
  intros Hne Halpha. unfold ResumeParser.keyword_found.
  rewrite orb_true_iff, bool_decide_eq_true, existsb_exists. split.
  - intros [H | (token & Hin%list_elem_of_In & Hs)]; [done|].
    apply search_whole_word in Hs.
    destruct (isalpha_forallb _ (Halpha _ Hin)) as [Hw _].
    by rewrite (occurs_as_word_in_token _ _ Hne Hw Hs).
  - by left.
Qed.

Lemma isalpha_forallb_alpha (s : string) :
  PyStr.isalpha s = true → PyStr.forallb_str PyStr.isalpha_char s = true.
Proof. by destruct s. Qed.

(** What [extract_general_keywords] returns, for a lexicon without an empty
    entry: the lexicon entries that are the text of a token that is
    alphabetic, not a stop word and longer than two characters. *)
Lemma elem_of_extract_general_keywords (self : ResumeParser.t) (model : Language)
    (text keyword : string) :
  ResumeParser.nlp self = Some model →
  "" ∉ ResumeParser.common_keywords_lower self →
  keyword ∈ ResumeParser.extract_general_keywords self text
  ↔ keyword ∈ ResumeParser.common_keywords_lower self
    ∧ ∃ token, token ∈ model (PyStr.lower text)
               ∧ tok_text token = keyword
               ∧ is_alpha token = true ∧ is_stop token = false
               ∧ (2 < String.length (tok_text token))%nat.
Proof.
  intros Hnlp Hnonempty. unfold ResumeParser.extract_general_keywords. rewrite Hnlp.
  rewrite elem_of_sorted_set, list_elem_of_filter.
  set (tokens := tok_text <$> filter _ (model (PyStr.lower text))).
  assert (Htokens : ∀ t, t ∈ tokens ↔
            ∃ token, token ∈ model (PyStr.lower text) ∧ tok_text token = t
                     ∧ is_alpha token = true ∧ is_stop token = false
                     ∧ (2 < String.length (tok_text token))%nat).
  { intros t. subst tokens. rewrite list_elem_of_fmap. split.
    - intros (token & -> & Hin). apply list_elem_of_filter in Hin as [(?&?&?) ?].
      by exists token.
    - intros (token & Hin & <- & Ha & Hs & Hl). exists token. split; [done|].
      apply list_elem_of_filter. done. }
  assert (Halpha : ∀ t, t ∈ tokens → PyStr.isalpha t = true).
  { intros t (token & _ & <- & Ha & _)%Htokens. exact Ha. }
  split.
  - intros [Hfound Hlex]. split; [done|].
    assert (keyword ≠ "") as Hne by (by intros ->).
    apply Htokens. by apply (keyword_found_in_tokens tokens keyword Hne Halpha).
  - intros [Hlex Htok]. split; [|done].
    assert (keyword ≠ "") as Hne by (by intros ->).
    apply (keyword_found_in_tokens tokens keyword Hne Halpha). by apply Htokens.
Qed.

Lemma common_keywords_lower_nonempty :
  "" ∉ PyStr.lower <$> ResumeParser.COMMON_KEYWORDS.
Proof.
  apply (bool_decide_eq_false_1 ("" ∈ PyStr.lower <$> ResumeParser.COMMON_KEYWORDS)).
  by vm_compute.
Qed.

Lemma extract_general_keywords_sorted (self : ResumeParser.t) (text : string) :
  StronglySorted String.le (ResumeParser.extract_general_keywords self text)
  ∧ NoDup (ResumeParser.extract_general_keywords self text).
Proof.
  unfold ResumeParser.extract_general_keywords.
  destruct (ResumeParser.nlp self) as [model|].
  - split; [apply Sorted_sorted_set|apply NoDup_sorted_set].
  - split; constructor.
Qed.

(** ** C10: general keywords are single alphabetic tokens *)

(** C10. For every input text the result of [extract_general_keywords] is
    sorted and free of duplicates, and each keyword in it is an entry of the
    lowercased keyword lexicon that is the text of a single alphabetic token
    of the text; hence an entry with a space or a hyphen ("supply chain",
    "technical reports", "problem-solving") is never returned. *)
Theorem extract_general_keywords_single_tokens (load : outcome Language)
    (self : ResumeParser.t) (text : string) :
  ResumeParser.__init__ load = Returns self →
  let result := ResumeParser.extract_general_keywords self text in
  StronglySorted String.le result
  ∧ NoDup result
  ∧ (∀ keyword, keyword ∈ result →
       keyword ∈ ResumeParser.common_keywords_lower self
       ∧ keyword ∈ PyStr.lower <$> ResumeParser.COMMON_KEYWORDS
       ∧ PyStr.isalpha keyword = true
       ∧ PyStr.contains_char " " keyword = false
       ∧ PyStr.contains_char "-" keyword = false
       ∧ ∃ model token,
           ResumeParser.nlp self = Some model
           ∧ token ∈ model (PyStr.lower text)
           ∧ tok_text token = keyword
           ∧ is_alpha token = true ∧ is_stop token = false)
  ∧ ("supply chain" ∉ result)
  ∧ ("technical reports" ∉ result)
  ∧ ("problem-solving" ∉ result).
Proof.
  intros Hinit result.
  assert (Hkw : ∀ keyword, keyword ∈ result →
            keyword ∈ ResumeParser.common_keywords_lower self
            ∧ keyword ∈ PyStr.lower <$> ResumeParser.COMMON_KEYWORDS
            ∧ PyStr.isalpha keyword = true
            ∧ PyStr.contains_char " " keyword = false
            ∧ PyStr.contains_char "-" keyword = false
            ∧ ∃ model token,
                ResumeParser.nlp self = Some model
                ∧ token ∈ model (PyStr.lower text)
                ∧ tok_text token = keyword
                ∧ is_alpha token = true ∧ is_stop token = false).
  { intros keyword Hin. subst result.
    unfold ResumeParser.__init__ in Hinit. injection Hinit as <-.
    destruct load as [model|msg].
    2:{ by apply elem_of_nil in Hin. }
    apply (elem_of_extract_general_keywords _ model) in Hin;
      [|done|exact common_keywords_lower_nonempty].
    destruct Hin as (Hlex & token & Htok & <- & Ha & Hs & Hl).
    pose proof (isalpha_forallb_alpha _ Ha) as Hall.
    split; [done|]. split; [done|]. split; [done|].
    split; [by apply (forallb_str_contains _ _ _ Hall)|].
    split; [by apply (forallb_str_contains _ _ _ Hall)|].
    by exists model, token. }
  split; [apply extract_general_keywords_sorted|].
  split; [apply extract_general_keywords_sorted|].
  split; [exact Hkw|].
  repeat split; intros (_ & _ & _ & Hsp & Hhy & _)%Hkw; by vm_compute in Hsp, Hhy.
Qed.

Lemma extract_general_keywords_single_tokens_witness :
  NoDup (ResumeParser.extract_general_keywords Sample.parser
           "Technical reports on supply chain design and problem-solving")
  ∧ ("supply chain" ∉ ResumeParser.extract_general_keywords Sample.parser
                        "Technical reports on supply chain design and problem-solving").
Proof.
  destruct (extract_general_keywords_single_tokens (Returns Sample.nlp) Sample.parser
              "Technical reports on supply chain design and problem-solving" eq_refl)
    as (_ & Hnd & _ & Hsc & _).
  split; [exact Hnd|exact Hsc].
Defined.

(** On that text only the single-token entries are found. *)
Example extract_general_keywords_multiword :
  ResumeParser.extract_general_keywords Sample.parser
    "Technical reports on supply chain design and problem-solving"
  = ["design"; "technical"].
Proof. by vm_compute. Qed.

(** ** C6: a spaCy model that fails to load *)

(** C6, as amended. When the spaCy model fails to load, [ResumeParser()] does
    not raise: it logs the error and returns a parser whose [nlp] is [None];
    [extract_general_keywords] then returns the empty list for every text,
    while [extract_skills] works as with a loaded model. Only the
    [SemanticMatcher] fails fast, raising its loading error again, and so does
    [JobMatcher()] when the sentence transformer fails. *)
Theorem resume_parser_load_failure_is_silent (msg : string) :
  ∃ self : ResumeParser.t,
    ResumeParser.__init__ (Raises msg) = Returns self
    ∧ ResumeParser.nlp self = None
    ∧ (∀ text, ResumeParser.extract_general_keywords self text = [])
    ∧ (∀ model loaded text,
         ResumeParser.__init__ (Returns model) = Returns loaded →
         ResumeParser.extract_skills self text = ResumeParser.extract_skills loaded text)
    ∧ SemanticMatcher.__init__ (Raises msg) = Raises msg
    ∧ (∀ load_spacy, JobMatcher.__init__ load_spacy (Raises msg) = Raises msg)
    ∧ (∀ transformer, ∃ matcher,
         JobMatcher.__init__ (Raises msg) (Returns transformer) = Returns matcher
         ∧ JobMatcher.resume_parser matcher = self).
Proof.
  eexists. split; [reflexivity|]. split; [reflexivity|].
  split; [reflexivity|]. split.
  - intros model loaded text Hinit. unfold ResumeParser.__init__ in Hinit.
    by injection Hinit as <-.
  - split; [reflexivity|]. split; [by intros [?|?]|].
    intros transformer. by eexists.
Qed.

(** The claim as the specification states it fails: with a model that cannot
    be loaded the constructor returns a parser instead of raising, and that
    parser finds no keyword where a loaded one finds three. *)
Lemma resume_parser_does_not_fail_fast :
  (¬ ∃ e, ResumeParser.__init__ (Raises "[E050] Can't find model 'en_core_web_sm'")
          = Raises e)
  ∧ (∃ self,
       ResumeParser.__init__ (Raises "[E050] Can't find model 'en_core_web_sm'")
       = Returns self
       ∧ ResumeParser.extract_general_keywords self "Mechanical design and testing" = [])
  ∧ (∃ loaded,
       ResumeParser.__init__ (Returns Sample.nlp) = Returns loaded
       ∧ ResumeParser.extract_general_keywords loaded "Mechanical design and testing"
         = ["design"; "mechanical"; "testing"]).
Proof.
  split; [by intros [e He]|].
  split; eexists; (split; [reflexivity|by vm_compute]).
Qed.

(** * Further properties of the code *)

(** ** The posting store: lookups, histories, failures *)

Lemma insert_job_cases io now (db : gmap string DBManager.Row)
    (job : gmap string string) :
  (DBManager.insert_job io now db job).1 = db
  ∨ ∃ id row, job !! "job_id" = Some id ∧ id ≠ "" ∧ db !! id = None
              ∧ DBManager.job_id row = id ∧ DBManager.status row = "new"
              ∧ (DBManager.insert_job io now db job).1 = <[id := row]> db.
Proof.
  unfold DBManager.insert_job.
  destruct (job !! "job_id") as [id|] eqn:Hid; [|by left].
  destruct id as [|c id]; [by left|]. cbn [PyStr.truthy negb].
  unfold DBManager.with_connection, DBManager.insert_or_ignore.
  destruct io; cbn; [|by left|by left].
  destruct (db !! String c id) eqn:Hrow; cbn; [by left|].
  right. eexists _, _. by repeat split.
Qed.

Lemma update_job_status_cases io (db : gmap string DBManager.Row) (id s : string) :
  (DBManager.update_job_status io db id s).1 = db
  ∨ ∃ row, db !! id = Some row
           ∧ (DBManager.update_job_status io db id s).1
             = <[id := DBManager.set_status s row]> db.
Proof.
  unfold DBManager.update_job_status, DBManager.with_connection, DBManager.update_status.
  destruct io; cbn; [|by left|by left].
  destruct (db !! id) as [row|] eqn:Hrow; cbn; [|by left].
  right. by exists row.
Qed.

(** X1. Insert, then look up: a posting with a fresh, non-empty id is found
    again under that id, with its columns read from the keys [job_title],
    [company_name], [job_location], [job_description], [job_apply_link],
    [employer_website], [job_employment_type] and
    [job_posted_at_datetime_utc] (an absent key gives NULL), status ['new']
    and the insertion time. *)
Theorem insert_job_then_get_job_by_id now (db : gmap string DBManager.Row)
    (job : gmap string string) (id : string) :
  job !! "job_id" = Some id → id ≠ "" → db !! id = None →
  DBManager.get_job_by_id DBManager.Healthy
    (DBManager.insert_job DBManager.Healthy now db job).1 id
  = Returns (Some
      {| DBManager.job_id := id;
         DBManager.job_title := job !! "job_title";
         DBManager.company_name := job !! "company_name";
         DBManager.location := job !! "job_location";
         DBManager.job_description := job !! "job_description";
         DBManager.job_url := job !! "job_apply_link";
         DBManager.employer_website := job !! "employer_website";
         DBManager.job_employment_type := job !! "job_employment_type";
         DBManager.job_posted_at_datetime_utc := job !! "job_posted_at_datetime_utc";
         DBManager.status := "new";
         DBManager.retrieved_at := now |}).
Proof.
  intros Hid Hne Hfresh. unfold DBManager.insert_job. rewrite Hid.
  destruct id as [|c id]; [done|]. cbn [PyStr.truthy negb].
  unfold DBManager.get_job_by_id, DBManager.with_connection,
    DBManager.insert_or_ignore. cbn.
  rewrite Hfresh. cbn. by rewrite lookup_insert_eq.
Qed.

Lemma insert_job_then_get_job_by_id_witness :
  ∃ row,
    DBManager.get_job_by_id DBManager.Healthy Sample.table "job-1" = Returns (Some row)
    ∧ DBManager.job_title row = Some "Design Engineer"
    ∧ DBManager.company_name row = None
    ∧ DBManager.status row = "new".
Proof.
  eexists. split.
  - apply (insert_job_then_get_job_by_id Sample.now ∅ Sample.job "job-1");
      [reflexivity|discriminate|reflexivity].
  - repeat split; by vm_compute.
Defined.

(** X2. [insert_job] never touches a row the table already holds: whatever
    the posting and the state of SQLite, every stored row is still there,
    unchanged, afterwards. *)
Theorem insert_job_keeps_existing_rows io now (db : gmap string DBManager.Row)
    (job : gmap string string) (id : string) (row : DBManager.Row) :
  db !! id = Some row →
  (DBManager.insert_job io now db job).1 !! id = Some row.
Proof.
  intros Hrow.
  destruct (insert_job_cases io now db job)
    as [-> | (id' & row' & _ & _ & Hfresh & _ & _ & ->)]; [done|].
  rewrite lookup_insert_ne; [done|]. intros ->. congruence.
Qed.

Lemma insert_job_keeps_existing_rows_witness :
  DBManager.status <$>
    ((DBManager.insert_job DBManager.Healthy Sample.later Sample.table
        Sample.job_refetched).1 !! "job-1")
  = DBManager.status <$> (Sample.table !! "job-1").
Proof.
  destruct (Sample.table !! "job-1") as [row|] eqn:Hrow; [|by vm_compute in Hrow].
  by rewrite (insert_job_keeps_existing_rows DBManager.Healthy Sample.later
                Sample.table Sample.job_refetched "job-1" row Hrow).
Defined.

(** X3. [update_job_status] writes the status column and nothing else: after
    a successful update [get_job_by_id] returns the old row with the new
    status, every other row is as before, and of two updates in a row the
    last one wins. *)
Theorem update_job_status_then_get_job_by_id (db : gmap string DBManager.Row)
    (id s1 s2 : string) (row : DBManager.Row) :
  db !! id = Some row →
  let db1 := (DBManager.update_job_status DBManager.Healthy db id s1).1 in
  DBManager.get_job_by_id DBManager.Healthy db1 id
    = Returns (Some (DBManager.set_status s1 row))
  ∧ (∀ other, other ≠ id →
       DBManager.get_job_by_id DBManager.Healthy db1 other
       = DBManager.get_job_by_id DBManager.Healthy db other)
  ∧ DBManager.update_job_status DBManager.Healthy db1 id s2
    = DBManager.update_job_status DBManager.Healthy db id s2
  ∧ (DBManager.status row = s1 → db1 = db).
Proof.
  intros Hrow db1. subst db1.
  rewrite (update_job_status_existing _ _ _ _ Hrow). cbn [fst].
  split.
  { unfold DBManager.get_job_by_id, DBManager.with_connection. cbn.
    by rewrite lookup_insert_eq. }
  split.
  { intros other Hne. unfold DBManager.get_job_by_id, DBManager.with_connection.
    cbn. by rewrite lookup_insert_ne. }
  split.
  - rewrite (update_job_status_existing _ id s2 (DBManager.set_status s1 row))
      by apply lookup_insert_eq.
    rewrite (update_job_status_existing _ _ _ _ Hrow).
    by rewrite insert_insert_eq.
  - intros <-. apply insert_id. rewrite Hrow. by destruct row.
Qed.

Lemma update_job_status_then_get_job_by_id_witness :
  DBManager.status <$>
    ((DBManager.update_job_status DBManager.Healthy
        (DBManager.update_job_status DBManager.Healthy Sample.table "job-1" "seen").1
        "job-1" "applied").1 !! "job-1")
  = Some "applied".
Proof.
  destruct (Sample.table !! "job-1") as [row|] eqn:Hrow; [|by vm_compute in Hrow].
  destruct (update_job_status_then_get_job_by_id Sample.table "job-1" "seen" "applied"
              row Hrow) as (_ & _ & H & _).
  cbv zeta in H. rewrite H.
  rewrite (update_job_status_existing _ _ _ _ Hrow). cbn [fst].
  by rewrite lookup_insert_eq.
Defined.

Lemma same_posting_refl (r : DBManager.Row) : Store.same_posting r r.
Proof. unfold Store.same_posting. by destruct r. Qed.

Lemma same_posting_set_status (r r' : DBManager.Row) (s : string) :
  Store.same_posting r r' → Store.same_posting r (DBManager.set_status s r').
Proof. unfold Store.same_posting. intros ->. by destruct r. Qed.

Lemma run_call_step (db : gmap string DBManager.Row) (c : Store.call) :
  Store.keyed_by_id db → db !! "" = None →
  Store.keyed_by_id (Store.run_call db c)
  ∧ Store.run_call db c !! "" = None
  ∧ (∀ id r, db !! id = Some r →
       ∃ r', Store.run_call db c !! id = Some r' ∧ Store.same_posting r r'
             ∧ (DBManager.status r' = DBManager.status r
                ∨ DBManager.status r' ∈ Store.statuses_set id [c]))
  ∧ (∀ id r', db !! id = None → Store.run_call db c !! id = Some r' →
       DBManager.status r' = "new").
Proof.
  intros Hkey Hempty. destruct c as [io now job | io id s]; cbn [Store.run_call].
  - destruct (insert_job_cases io now db job)
      as [-> | (id & row & _ & Hne & Hfresh & Hid & Hst & ->)].
    { split; [done|]. split; [done|]. split; [|congruence].
      intros id r Hr. exists r. split; [done|]. split; [apply same_posting_refl|by left]. }
    split; [|split; [|split]].
    + intros id' r [[-> ->]|[_ Hr]]%lookup_insert_Some; [done|by apply Hkey].
    + by rewrite lookup_insert_ne.
    + intros id' r Hr. exists r. rewrite lookup_insert_ne by congruence.
      split; [done|]. split; [apply same_posting_refl|by left].
    + intros id' r' Hnone [[-> ->]|[_ Hr]]%lookup_insert_Some; [done|congruence].
  - destruct (update_job_status_cases io db id s) as [-> | (row & Hrow & ->)].
    { split; [done|]. split; [done|]. split; [|congruence].
      intros id' r Hr. exists r. split; [done|]. split; [apply same_posting_refl|by left]. }
    split; [|split; [|split]].
    + intros id' r [[-> <-]|[_ Hr]]%lookup_insert_Some; [|by apply Hkey].
      cbn. by apply Hkey.
    + rewrite lookup_insert_ne; [done|]. intros ->. congruence.
    + intros id' r Hr. destruct (decide (id = id')) as [->|Hne].
      * exists (DBManager.set_status s row). rewrite lookup_insert_eq.
        assert (r = row) as -> by congruence.
        split; [done|]. split; [apply same_posting_set_status, same_posting_refl|].
        right. cbn. rewrite decide_True by done. apply list_elem_of_here.
      * exists r. rewrite lookup_insert_ne by done.
        split; [done|]. split; [apply same_posting_refl|by left].
    + intros id' r' Hnone [[-> <-]|[_ Hr]]%lookup_insert_Some; congruence.
Qed.

Lemma same_posting_trans (r1 r2 r3 : DBManager.Row) :
  Store.same_posting r1 r2 → Store.same_posting r2 r3 → Store.same_posting r1 r3.
Proof. unfold Store.same_posting. intros -> ->. by destruct r1. Qed.

Lemma statuses_set_cons (id : string) (c : Store.call) (calls : list Store.call)
    (s : string) :
  s ∈ Store.statuses_set id (c :: calls)
  ↔ s ∈ Store.statuses_set id [c] ∨ s ∈ Store.statuses_set id calls.
Proof.
  unfold Store.statuses_set. cbn [omap list_omap].
  destruct c as [io now job | io id' s']; cbn.
  - rewrite elem_of_nil. tauto.
  - destruct (decide (id' = id)); cbn.
    + rewrite elem_of_cons, list_elem_of_singleton. tauto.
    + rewrite elem_of_nil. tauto.
Qed.

Lemma run_invariants (calls : list Store.call) (db : gmap string DBManager.Row) :
  Store.keyed_by_id db → db !! "" = None →
  Store.keyed_by_id (Store.run db calls)
  ∧ Store.run db calls !! "" = None
  ∧ (∀ id r, db !! id = Some r →
       ∃ r', Store.run db calls !! id = Some r' ∧ Store.same_posting r r'
             ∧ (DBManager.status r' = DBManager.status r
                ∨ DBManager.status r' ∈ Store.statuses_set id calls))
  ∧ (∀ id r', db !! id = None → Store.run db calls !! id = Some r' →
       DBManager.status r' = "new"
       ∨ DBManager.status r' ∈ Store.statuses_set id calls).
Proof.
  revert db. induction calls as [|c calls IH]; intros db Hkey Hempty.
  - cbn. split; [done|]. split; [done|]. split; [|congruence].
    intros id r Hr. exists r. split; [done|]. split; [apply same_posting_refl|by left].
  - change (Store.run db (c :: calls)) with (Store.run (Store.run_call db c) calls).
    destruct (run_call_step db c Hkey Hempty) as (Hkey1 & Hempty1 & Hold1 & Hnew1).
    destruct (IH _ Hkey1 Hempty1) as (Hkey2 & Hempty2 & Hold2 & Hnew2).
    split; [done|]. split; [done|]. split.
    + intros id r Hr. destruct (Hold1 id r Hr) as (r1 & Hr1 & Hsame1 & Hst1).
      destruct (Hold2 id r1 Hr1) as (r2 & Hr2 & Hsame2 & Hst2).
      exists r2. split; [done|]. split; [by eapply same_posting_trans|].
      rewrite statuses_set_cons.
      destruct Hst2 as [->|?]; [|by auto]. destruct Hst1 as [->|?]; by auto.
    + intros id r' Hnone Hr'. rewrite statuses_set_cons.
      destruct (Store.run_call db c !! id) as [r1|] eqn:Hr1.
      * pose proof (Hnew1 id r1 Hnone Hr1) as Hst1.
        destruct (Hold2 id r1 Hr1) as (r2 & Hr2 & _ & Hst2).
        assert (r2 = r') as -> by congruence.
        destruct Hst2 as [->|?]; by auto.
      * destruct (Hnew2 id r' Hr1 Hr'); by auto.
Qed.

(** X4. Along any sequence of [insert_job] and [update_job_status] calls, in
    any state of SQLite, the table stays keyed by [job_id], never holds a row
    with an empty id, and never loses a posting: a row present before is
    present after, with the same columns except possibly the status. *)
Theorem store_never_loses_a_posting (db : gmap string DBManager.Row)
    (calls : list Store.call) :
  Store.keyed_by_id db → db !! "" = None →
  Store.keyed_by_id (Store.run db calls)
  ∧ Store.run db calls !! "" = None
  ∧ dom db ⊆ dom (Store.run db calls)
  ∧ (∀ id r, db !! id = Some r →
       ∃ r', Store.run db calls !! id = Some r' ∧ Store.same_posting r r').
Proof.
  intros Hkey Hempty.
  destruct (run_invariants calls db Hkey Hempty) as (H1 & H2 & H3 & _).
  split; [done|]. split; [done|]. split.
  - intros id [r Hr]%elem_of_dom. destruct (H3 id r Hr) as (r' & Hr' & _).
    apply elem_of_dom. by exists r'.
  - intros id r Hr. destruct (H3 id r Hr) as (r' & Hr' & Hsame & _). by exists r'.
Qed.

(** X5. The status of a stored posting is only ever written by
    [update_job_status]: after any sequence of calls on an empty table, a
    posting's status is ['new'] or a value that some [update_job_status] call
    of the sequence wrote for that very id. *)
Theorem store_status_provenance (calls : list Store.call) (id : string)
    (row : DBManager.Row) :
  Store.run ∅ calls !! id = Some row →
  DBManager.status row = "new"
  ∨ DBManager.status row ∈ Store.statuses_set id calls.
Proof.
  intros Hrow.
  assert (Hkey : Store.keyed_by_id (∅ : gmap string DBManager.Row)).
  { intros id' r Hr. by rewrite lookup_empty in Hr. }
  destruct (run_invariants calls ∅ Hkey (lookup_empty _)) as (_ & _ & _ & H).
  apply (H id row); [apply lookup_empty|done].
Qed.

Lemma store_never_loses_a_posting_witness :
  dom Sample.table ⊆ dom (Store.run Sample.table Demo.history)
  ∧ Store.run Sample.table Demo.history !! "" = None.
Proof.
  assert (Hkey : Store.keyed_by_id Sample.table).
  { destruct (insert_job_fresh Sample.now ∅ Sample.job "job-1" eq_refl
                ltac:(discriminate) eq_refl) as (row & Heq & Hid & _).
    unfold Sample.table. rewrite Heq. cbn [fst].
    intros id r [[<- <-]|[_ Hr]]%lookup_insert_Some; [done|].
    by rewrite lookup_empty in Hr. }
  destruct (store_never_loses_a_posting Sample.table Demo.history Hkey)
    as (_ & H2 & H3 & _); [by vm_compute|].
  split; [exact H3|exact H2].
Defined.

Lemma store_status_provenance_witness :
  ∃ row, Store.run ∅ Demo.history !! "job-1" = Some row
         ∧ (DBManager.status row = "new"
            ∨ DBManager.status row ∈ Store.statuses_set "job-1" Demo.history).
Proof.
  eexists. split; [by vm_compute|].
  apply (store_status_provenance Demo.history "job-1"). by vm_compute.
Defined.

(** X7. [get_all_jobs] returns the rows of the table, each once: a row is in
    the list exactly when it is stored under some id, the list is as long as
    the table is large, no two rows of a table keyed by id share a [job_id],
    and storing a new posting makes the list one longer. *)
Theorem get_all_jobs_lists_the_table (db : gmap string DBManager.Row) :
  ∃ rows,
    DBManager.get_all_jobs DBManager.Healthy db = Returns rows
    ∧ (∀ r, r ∈ rows ↔ ∃ id, db !! id = Some r)
    ∧ length rows = size db
    ∧ (Store.keyed_by_id db → NoDup (DBManager.job_id <$> rows))
    ∧ (∀ now job id,
         job !! "job_id" = Some id → id ≠ "" → db !! id = None →
         ∃ rows', DBManager.get_all_jobs DBManager.Healthy
                    (DBManager.insert_job DBManager.Healthy now db job).1
                  = Returns rows'
                  ∧ length rows' = S (length rows)).
Proof.
  exists (map_to_list db).*2. split; [done|]. split; [|split; [|split]].
  - intros r. rewrite list_elem_of_fmap. split.
    + intros ([id r'] & -> & Hin%elem_of_map_to_list). by exists id.
    + intros (id & Hr). exists (id, r). split; [done|]. by apply elem_of_map_to_list.
  - by rewrite length_fmap, length_map_to_list.
  - intros Hkey.
    assert (DBManager.job_id <$> (map_to_list db).*2 = (map_to_list db).*1) as ->.
    { rewrite <- list_fmap_compose. apply list_fmap_ext.
      intros i [id r] Hin%list_elem_of_lookup_2%elem_of_map_to_list. cbn.
      by apply Hkey. }
    apply NoDup_fst_map_to_list.
  - intros now job id Hid Hne Hfresh.
    destruct (insert_job_fresh now db job id Hid Hne Hfresh) as (row & -> & _).
    eexists. split; [reflexivity|]. cbn [fst].
    rewrite !length_fmap, !length_map_to_list. by apply map_size_insert_None.
Qed.

Lemma get_all_jobs_lists_the_table_witness :
  ∃ rows, DBManager.get_all_jobs DBManager.Healthy Sample.table = Returns rows
          ∧ length rows = 1%nat.
Proof.
  destruct (get_all_jobs_lists_the_table ∅) as (rows & Hrows & _ & Hlen & _ & Hins).
  destruct (Hins Sample.now Sample.job "job-1" eq_refl ltac:(discriminate) eq_refl)
    as (rows' & Hrows' & Hlen').
  exists rows'. split; [exact Hrows'|]. rewrite Hlen', Hlen. reflexivity.
Defined.

(** ** The semantic matcher *)

(** X8. An empty text has no embedding, a missing embedding gives similarity
    0.0, and [get_semantic_score] is the similarity of the two embeddings on
    every pair of texts: 0.0 as soon as one text is empty, the cosine of the
    two encodings otherwise; it is symmetric when the cosine is. *)
Theorem get_semantic_score_of_embeddings (sm : SemanticMatcher.t) (text1 text2 : string) :
  (SemanticMatcher.get_embedding sm text1 = None ↔ text1 = "")
  ∧ SemanticMatcher.get_semantic_score sm text1 text2
    = SemanticMatcher.calculate_similarity sm
        (SemanticMatcher.get_embedding sm text1) (SemanticMatcher.get_embedding sm text2)
  ∧ (text1 = "" ∨ text2 = "" → SemanticMatcher.get_semantic_score sm text1 text2 = 0%Q)
  ∧ (text1 ≠ "" → text2 ≠ "" →
     SemanticMatcher.get_semantic_score sm text1 text2
     = SemanticMatcher.cos_sim sm (SemanticMatcher.encode sm text1)
         (SemanticMatcher.encode sm text2))
  ∧ ((∀ a b, SemanticMatcher.cos_sim sm a b = SemanticMatcher.cos_sim sm b a) →
     SemanticMatcher.get_semantic_score sm text1 text2
     = SemanticMatcher.get_semantic_score sm text2 text1).
Proof.
  unfold SemanticMatcher.get_semantic_score, SemanticMatcher.calculate_similarity,
    SemanticMatcher.get_embedding.
  destruct text1 as [|c1 t1], text2 as [|c2 t2]; cbn; repeat split;
    try done; try (by intros [?|?]); auto.
Qed.

Lemma get_semantic_score_of_embeddings_witness :
  SemanticMatcher.get_semantic_score Sample.embedder "Design" "design" = 1%Q
  ∧ SemanticMatcher.get_semantic_score Sample.embedder "" "design" = 0%Q.
Proof.
  destruct (get_semantic_score_of_embeddings Sample.embedder "Design" "design")
    as (_ & _ & _ & H & _).
  destruct (get_semantic_score_of_embeddings Sample.embedder "" "design")
    as (_ & _ & H0 & _).
  split.
  - rewrite H by discriminate. by vm_compute.
  - apply H0. left. reflexivity.
Defined.

(** ** The keyword overlap *)

Lemma Qdiv_nat_eq_0 (a b : nat) :
  (0 < b)%nat →
  (inject_Z (Z.of_nat a) / inject_Z (Z.of_nat b) == 0)%Q ↔ a = 0%nat.
Proof.
  intros Hb.
  assert (Hnz : ¬ (inject_Z (Z.of_nat b) == 0)%Q).
  { change 0%Q with (inject_Z 0). rewrite inject_Z_injective. lia. }
  split.
  - intros H.
    assert (He : (inject_Z (Z.of_nat a) == inject_Z 0)%Q).
    { rewrite <- (Qmult_div_r (inject_Z (Z.of_nat a)) (inject_Z (Z.of_nat b))) by exact Hnz.
      rewrite H. ring. }
    rewrite inject_Z_injective in He. lia.
  - intros ->. cbn. field. exact Hnz.
Qed.

Lemma keyword_score_comm (A B : gset string) :
  Spec.keyword_score A B = Spec.keyword_score B A.
Proof.
  unfold Spec.keyword_score, Spec.jaccard.
  rewrite (intersection_comm_L A B), (union_comm_L A B).
  destruct (decide (A = ∅ ∨ B = ∅)), (decide (B = ∅ ∨ A = ∅)); tauto.
Qed.

(** X9. The keyword overlap score is symmetric in its two lists and depends
    on them only as sets: the order of the keywords and repeated keywords do
    not matter. *)
Theorem keyword_overlap_score_symmetric (rk jk rk' jk' : list string) :
  JobMatcher._calculate_keyword_overlap_score rk jk
  = JobMatcher._calculate_keyword_overlap_score jk rk
  ∧ ((∀ x, x ∈ rk ↔ x ∈ rk') → (∀ x, x ∈ jk ↔ x ∈ jk') →
     JobMatcher._calculate_keyword_overlap_score rk jk
     = JobMatcher._calculate_keyword_overlap_score rk' jk').
Proof.
  rewrite !overlap_score_spec. split; [apply keyword_score_comm|].
  intros Hr Hj.
  assert ((list_to_set rk : gset string) = list_to_set rk') as ->.
  { apply set_eq. intros x. by rewrite !elem_of_list_to_set. }
  assert ((list_to_set jk : gset string) = list_to_set jk') as ->.
  { apply set_eq. intros x. by rewrite !elem_of_list_to_set. }
  done.
Qed.

Lemma keyword_overlap_score_symmetric_witness :
  JobMatcher._calculate_keyword_overlap_score ["design"; "testing"; "design"] ["testing"]
  = JobMatcher._calculate_keyword_overlap_score ["testing"; "design"] ["testing"; "testing"].
Proof.
  destruct (keyword_overlap_score_symmetric ["design"; "testing"; "design"] ["testing"]
              ["testing"; "design"] ["testing"; "testing"]) as [_ H].
  apply H; intros x; rewrite !elem_of_cons, !elem_of_nil; tauto.
Defined.

Lemma overlap_score_zero_inter (rk jk : list string) :
  (JobMatcher._calculate_keyword_overlap_score rk jk == 0)%Q
  ↔ (list_to_set rk : gset string) ∩ list_to_set jk = ∅.
Proof.
  destruct (decide (rk = [])) as [->|Hr].
  { split; [|done]. intros _. apply set_eq. intros x.
    rewrite elem_of_intersection, elem_of_list_to_set, elem_of_nil.
    split; [tauto|by intros ?%not_elem_of_empty]. }
  destruct (decide (jk = [])) as [->|Hj].
  { split; [|by destruct rk]. intros _. apply set_eq. intros x.
    rewrite elem_of_intersection, (elem_of_list_to_set x []), elem_of_nil.
    split; [tauto|by intros ?%not_elem_of_empty]. }
  destruct (overlap_score_unfold rk jk Hr Hj) as [-> Hpos].
  unfold Spec.jaccard. rewrite (Qdiv_nat_eq_0 _ _ Hpos), size_empty_iff.
  by unfold_leibniz.
Qed.

(** X10. The keyword overlap score is zero exactly when the two lists have
    no keyword in common. *)
Theorem keyword_overlap_score_zero_iff_disjoint (rk jk : list string) :
  (JobMatcher._calculate_keyword_overlap_score rk jk == 0)%Q
  ↔ ∀ x, x ∈ rk → x ∉ jk.
Proof.
  rewrite overlap_score_zero_inter. split.
  - intros He x Hx Hx'. apply (not_elem_of_empty (C:=gset string) x).
    rewrite <- He. apply elem_of_intersection. by rewrite !elem_of_list_to_set.
  - intros Hd. apply set_eq. intros x. split; [|by intros ?%not_elem_of_empty].
    intros [Hx Hx']%elem_of_intersection. rewrite elem_of_list_to_set in Hx, Hx'.
    by destruct (Hd x Hx).
Qed.

(** ** What [match_job_to_resume] returns *)

(** X11. On the scored path [matched_keywords] lists, without repetition,
    exactly the keywords that are both among the résumé's keywords and among
    the general keywords extracted from the job description; the list is empty
    exactly when the keyword overlap score is zero. *)
Theorem matched_keywords_are_common cfg self resume (job : gmap string string) :
  get_or (r_text resume) "" ≠ "" → get_or (job !! "job_description") "" ≠ "" →
  let resume_keywords := get_or (r_keywords resume) [] in
  let job_keywords :=
    ResumeParser.extract_general_keywords (JobMatcher.resume_parser self)
      (get_or (job !! "job_description") "") in
  ∃ matched,
    JobMatcher.match_job_to_resume cfg self resume job !! "matched_keywords"
      = Some (VList matched)
    ∧ NoDup matched
    ∧ (∀ k, k ∈ matched ↔ k ∈ resume_keywords ∧ k ∈ job_keywords)
    ∧ (matched = [] ↔
       (JobMatcher._calculate_keyword_overlap_score resume_keywords job_keywords == 0)%Q).
Proof.
  intros Ht Hd resume_keywords job_keywords.
  rewrite (match_scored_unfold cfg self resume job Ht Hd). cbn zeta.
  fold resume_keywords job_keywords.
  eexists. split.
  { rewrite !lookup_insert_ne by done. by rewrite lookup_insert_eq. }
  split; [apply NoDup_elements|]. split.
  - intros k. by rewrite elem_of_elements, elem_of_intersection, !elem_of_list_to_set.
  - rewrite overlap_score_zero_inter, elements_empty_iff. by unfold_leibniz.
Qed.

Lemma matched_keywords_are_common_witness :
  ∃ matched,
    JobMatcher.match_job_to_resume settings Sample.matcher Sample.resume Sample.job
      !! "matched_keywords" = Some (VList matched)
    ∧ ("design" ∈ matched).
Proof.
  destruct (matched_keywords_are_common settings Sample.matcher Sample.resume Sample.job
              ltac:(vm_compute; discriminate) ltac:(vm_compute; discriminate))
    as (matched & Hm & _ & Hin & _).
  exists matched. split; [exact Hm|]. apply Hin.
  split; vm_compute; apply list_elem_of_here.
Defined.

(** X12. Whatever the weights, the dictionary returned by
    [match_job_to_resume] always holds [final_score], [keyword_score] and
    [semantic_score], and holds no key besides these and [matched_keywords];
    the keyword and the semantic percentage lie in [0, 100] (the cosine being
    in [-1, 1]). *)
Theorem match_result_always_has_scores cfg self resume (job : gmap string string) :
  SemanticMatcher.cosine_in_range (JobMatcher.semantic_matcher self) →
  let result := JobMatcher.match_job_to_resume cfg self resume job in
  ∃ f k s : Q,
    result !! "final_score" = Some (VFloat f)
    ∧ result !! "keyword_score" = Some (VFloat k)
    ∧ result !! "semantic_score" = Some (VFloat s)
    ∧ (0 <= k)%Q ∧ (k <= 100)%Q ∧ (0 <= s)%Q ∧ (s <= 100)%Q
    ∧ (∀ key, is_Some (result !! key) →
         key ∈ ["final_score"; "keyword_score"; "semantic_score"; "matched_keywords"]).
Proof.
  intros Hcos result. subst result.
  assert (Hempty : get_or (r_text resume) "" = ""
                   ∨ get_or (job !! "job_description") "" = ""
                   ∨ (get_or (r_text resume) "" ≠ ""
                      ∧ get_or (job !! "job_description") "" ≠ "")).
  { destruct (decide (get_or (r_text resume) "" = "")); [by left|].
    destruct (decide (get_or (job !! "job_description") "" = "")); by auto. }
  assert (Hkeys : ∀ (a b c : PyVal) (m : gmap string PyVal) key,
            (∀ key', is_Some (m !! key') → key' = "matched_keywords") →
            is_Some ((<["final_score" := a]>
                        (<["keyword_score" := b]> (<["semantic_score" := c]> m))) !! key) →
            key ∈ ["final_score"; "keyword_score"; "semantic_score"; "matched_keywords"]).
  { intros a b c m key Hm. rewrite !elem_of_cons.
    destruct (decide (key = "final_score")) as [->|?]; [by auto|].
    destruct (decide (key = "keyword_score")) as [->|?]; [by auto|].
    destruct (decide (key = "semantic_score")) as [->|?]; [by auto|].
    rewrite !lookup_insert_ne by done. intros ->%Hm. by auto 6. }
  destruct Hempty as [He | [He | [Ht Hd]]].
  1,2: rewrite match_empty_unfold by auto; exists 0%Q, 0%Q, 0%Q;
       (split; [done|]); (split; [done|]); (split; [done|]);
       (split; [lra|]); (split; [lra|]); (split; [lra|]); (split; [lra|]);
       intros key; apply Hkeys; intros key'; rewrite lookup_empty; by intros [? ?].
  rewrite (match_scored_unfold cfg self resume job Ht Hd). cbn zeta.
  destruct (overlap_score_in_unit (get_or (r_keywords resume) [])
    (ResumeParser.extract_general_keywords (JobMatcher.resume_parser self)
       (get_or (job !! "job_description") ""))) as [Hk0 Hk1].
  destruct (semantic_score_in_range (JobMatcher.semantic_matcher self)
    (get_or (r_text resume) "") (get_or (job !! "job_description") "") Hcos) as [Hs0 Hs1].
  destruct (normalized_in_unit _ Hs0 Hs1) as [Hn0 Hn1].
  eexists _, _, _. split; [by rewrite lookup_insert_eq|].
  split; [rewrite lookup_insert_ne by done; by rewrite lookup_insert_eq|].
  split; [rewrite !lookup_insert_ne by done; by rewrite lookup_insert_eq|].
  split; [apply round_2_percent; lra|]. split; [apply round_2_percent; lra|].
  split; [apply round_2_percent; lra|]. split; [apply round_2_percent; lra|].
  intros key. apply Hkeys. intros key'.
  destruct (decide (key' = "matched_keywords")) as [->|?]; [done|].
  rewrite lookup_insert_ne by done. rewrite lookup_empty. by intros [? ?].
Qed.

Lemma match_result_always_has_scores_witness :
  ∃ f k s : Q,
    JobMatcher.match_job_to_resume settings Sample.matcher Sample.resume Sample.job
      !! "final_score" = Some (VFloat f)
    ∧ JobMatcher.match_job_to_resume settings Sample.matcher Sample.resume Sample.job
      !! "keyword_score" = Some (VFloat k)
    ∧ JobMatcher.match_job_to_resume settings Sample.matcher Sample.resume Sample.job
      !! "semantic_score" = Some (VFloat s).
Proof.
  destruct (match_result_always_has_scores settings Sample.matcher Sample.resume
              Sample.job sample_embedder_in_range) as (f & k & s & Hf & Hk & Hs & _).
  by exists f, k, s.
Defined.

(** ** Rounding is monotone *)

Lemma round_half_even_floor (x : Q) :
  Qfloor x ≤ round_half_even x ≤ Qfloor x + 1.
Proof.
  unfold round_half_even. cbv zeta.
  destruct (x - inject_Z (Qfloor x) ?= 1 # 2)%Q; [|lia|lia].
  destruct (Z.even (Qfloor x)); lia.
Qed.

Lemma round_half_even_mono (x y : Q) :
  (x <= y)%Q → round_half_even x ≤ round_half_even y.
Proof.
  intros Hxy. pose proof (Qfloor_resp_le _ _ Hxy) as Hf.
  destruct (decide (Qfloor x = Qfloor y)) as [E|NE].
  - unfold round_half_even. cbv zeta. rewrite E.
    destruct (x - inject_Z (Qfloor y) ?= 1 # 2)%Q eqn:Hx;
      destruct (y - inject_Z (Qfloor y) ?= 1 # 2)%Q eqn:Hy;
      try (destruct (Z.even (Qfloor y)); lia); try lia; exfalso.
    + apply Qeq_alt in Hx. apply Qlt_alt in Hy. lra.
    + apply Qgt_alt in Hx. apply Qeq_alt in Hy. lra.
    + apply Qgt_alt in Hx. apply Qlt_alt in Hy. lra.
  - pose proof (round_half_even_floor x). pose proof (round_half_even_floor y). lia.
Qed.

Lemma round_mono (x y : Q) (ndigits : nat) :
  (x <= y)%Q → (round x ndigits <= round y ndigits)%Q.
Proof.
  intros Hxy. unfold round.
  assert (Hpos : (0 < inject_Z (10 ^ Z.of_nat ndigits))%Q).
  { change 0%Q with (inject_Z 0). rewrite <- Zlt_Qlt. apply Z.pow_pos_nonneg; lia. }
  set (scale := inject_Z (10 ^ Z.of_nat ndigits)) in *.
  apply Qmult_le_compat_r.
  - rewrite <- Zle_Qle. apply round_half_even_mono.
    by apply Qmult_le_compat_r; [|apply Qlt_le_weak].
  - apply Qlt_le_weak, Qinv_lt_0_compat, Hpos.
Qed.

(** X14. More keyword overlap never lowers the score: for two résumés with
    the same non-empty text, matched against the same job under a
    non-negative keyword weight, the one whose keywords overlap more with the
    job's gets a final score at least as high. *)
Theorem final_score_monotone_in_overlap cfg self resume1 resume2
    (job : gmap string string) :
  (0 <= KEYWORD_WEIGHT cfg)%Q →
  r_text resume1 = r_text resume2 →
  get_or (r_text resume1) "" ≠ "" → get_or (job !! "job_description") "" ≠ "" →
  let job_keywords :=
    ResumeParser.extract_general_keywords (JobMatcher.resume_parser self)
      (get_or (job !! "job_description") "") in
  (JobMatcher._calculate_keyword_overlap_score (get_or (r_keywords resume1) []) job_keywords
   <= JobMatcher._calculate_keyword_overlap_score (get_or (r_keywords resume2) []) job_keywords)%Q →
  ∃ f1 f2 : Q,
    JobMatcher.match_job_to_resume cfg self resume1 job !! "final_score"
      = Some (VFloat f1)
    ∧ JobMatcher.match_job_to_resume cfg self resume2 job !! "final_score"
      = Some (VFloat f2)
    ∧ (f1 <= f2)%Q.
Proof.
  intros HWk Ht Ht1 Hd job_keywords Hle.
  assert (Ht2 : get_or (r_text resume2) "" ≠ "") by (by rewrite <- Ht).
  rewrite (match_scored_unfold cfg self resume1 job Ht1 Hd).
  rewrite (match_scored_unfold cfg self resume2 job Ht2 Hd). cbn zeta.
  fold job_keywords. rewrite <- Ht.
  eexists _, _. split; [by rewrite lookup_insert_eq|].
  split; [by rewrite lookup_insert_eq|].
  unfold Spec.final_score. apply round_mono.
  pose proof (Qmult_le_compat_r _ _ _ Hle HWk). lra.
Qed.

Lemma final_score_monotone_in_overlap_witness :
  ∃ f1 f2 : Q,
    JobMatcher.match_job_to_resume settings Sample.matcher
      (mkResume (r_text Sample.resume) None (Some ["design"])) Sample.job
      !! "final_score" = Some (VFloat f1)
    ∧ JobMatcher.match_job_to_resume settings Sample.matcher Sample.resume Sample.job
      !! "final_score" = Some (VFloat f2)
    ∧ (f1 <= f2)%Q.
Proof.
  apply (final_score_monotone_in_overlap settings Sample.matcher
           (mkResume (r_text Sample.resume) None (Some ["design"])) Sample.resume
           Sample.job).
  - vm_compute. intros E. discriminate E.
  - reflexivity.
  - vm_compute. discriminate.
  - vm_compute. discriminate.
  - vm_compute. intros E. discriminate E.
Defined.

(** ** Skill extraction: shape and case *)

Lemma lower_char_not_upper (c : ascii) : PyStr.is_upper (PyStr.lower_char c) = false.
Proof. destruct c as [[] [] [] [] [] [] [] []]; reflexivity. Qed.

Lemma lower_char_idemp (c : ascii) : PyStr.lower_char (PyStr.lower_char c) = PyStr.lower_char c.
Proof.
  unfold PyStr.lower_char at 1. by rewrite lower_char_not_upper.
Qed.

Lemma lower_idemp (s : string) : PyStr.lower (PyStr.lower s) = PyStr.lower s.
Proof.
  induction s as [|c s IH]; [done|]. cbn. by rewrite lower_char_idemp, IH.
Qed.

Lemma lower_char_word (c : ascii) :
  PyStr.is_word_char (PyStr.lower_char c) = PyStr.is_word_char c.
Proof. destruct c as [[] [] [] [] [] [] [] []]; reflexivity. Qed.

Lemma forallb_str_lower_nonword (s : string) :
  PyStr.forallb_str (λ c, negb (PyStr.is_word_char c)) s = true →
  PyStr.forallb_str (λ c, negb (PyStr.is_word_char c)) (PyStr.lower s) = true.
Proof.
  induction s as [|c s IH]; [done|]. cbn. rewrite lower_char_word.
  intros [-> Hs]%andb_true_iff. by rewrite IH.
Qed.

(** A text without word characters has no word boundary, so nothing occurs
    in it as a whole word. *)
Lemma occurs_as_word_needs_word_char (w s : string) :
  PyStr.forallb_str (λ c, negb (PyStr.is_word_char c)) s = true →
  ¬ Spec.occurs_as_word w s.
Proof.
  intros Hs (pre & post & -> & Hl & _).
  rewrite forallb_str_app in Hs. apply andb_true_iff in Hs as [Hpre Hrest].
  assert (Hprev : Re.is_word (PyStr.last_or None pre) = false).
  { destruct (decide (pre = "")) as [->|Hne]; [done|].
    destruct (forallb_str_last _ None _ Hpre Hne) as (c & -> & Hc).
    cbn. by apply negb_true_iff. }
  assert (Hnext : Re.is_word (PyStr.head (w +:+ post)) = false).
  { destruct (decide (w +:+ post = "")) as [->|Hne]; [done|].
    destruct (forallb_str_head _ _ Hrest Hne) as (c & -> & Hc).
    cbn. by apply negb_true_iff. }
  unfold Re.at_boundary in Hl. by rewrite Hprev, Hnext in Hl.
Qed.

(** X15. The list returned by [extract_skills] is sorted, has no duplicates
    and holds only entries of the lowercased skill lexicon; a text without
    any letter, digit or underscore (the empty text among them) yields no
    skill, whatever the lexicon. *)
Theorem extract_skills_sorted_subset (self : ResumeParser.t) (text : string) :
  StronglySorted String.le (ResumeParser.extract_skills self text)
  ∧ NoDup (ResumeParser.extract_skills self text)
  ∧ (∀ skill, skill ∈ ResumeParser.extract_skills self text →
       skill ∈ ResumeParser.common_skills_lower self)
  ∧ (PyStr.forallb_str (λ c, negb (PyStr.is_word_char c)) text = true →
     ResumeParser.extract_skills self text = [])
  ∧ ResumeParser.extract_skills self "" = [].
Proof.
  assert (Hnone : ∀ t, PyStr.forallb_str (λ c, negb (PyStr.is_word_char c)) t = true →
                       ResumeParser.extract_skills self t = []).
  { intros t Ht. apply elem_of_nil_inv. intros skill [_ Hocc]%elem_of_extract_skills.
    apply (occurs_as_word_needs_word_char skill (PyStr.lower t)); [|done].
    by apply forallb_str_lower_nonword. }
  split; [apply Sorted_sorted_set|]. split; [apply NoDup_sorted_set|].
  split; [by intros skill [? _]%elem_of_extract_skills|].
  split; [apply Hnone|by apply Hnone].
Qed.

Lemma extract_skills_sorted_subset_witness :
  ResumeParser.extract_skills Sample.parser "+++ !!! --- ???" = [].
Proof.
  destruct (extract_skills_sorted_subset Sample.parser "+++ !!! --- ???")
    as (_ & _ & _ & H & _).
  apply H. reflexivity.
Defined.

(** X16. Skill extraction ignores case on both sides: lowercasing the text,
    or the entries of the skill lexicon, beforehand does not change the
    result. *)
Theorem extract_skills_ignores_case (nlp : option Language)
    (skills keywords : list string) (text : string) :
  ResumeParser.extract_skills (ResumeParser.with_lexicons nlp skills keywords) text
  = ResumeParser.extract_skills
      (ResumeParser.with_lexicons nlp (PyStr.lower <$> skills) keywords)
      (PyStr.lower text).
Proof.
  unfold ResumeParser.extract_skills, ResumeParser.with_lexicons. cbn.
  rewrite lower_idemp. do 2 f_equal.
  rewrite <- list_fmap_compose. f_equal. apply list_fmap_ext.
  intros i s _. cbn. by rewrite lower_idemp.
Qed.

(** ** General keywords: the exact result *)

Lemma common_keywords_lower_long :
  Forall (λ k, (2 < String.length k)%nat) (PyStr.lower <$> ResumeParser.COMMON_KEYWORDS).
Proof. apply (bool_decide_unpack _). by vm_compute. Qed.

(** X17. With a loaded pipeline, [extract_general_keywords] returns exactly
    the lexicon entries that are the text of some token of the lowercased text
    that is alphabetic and not a stop word; the regular-expression
    alternative in the test adds nothing to plain membership among the
    tokens. *)
Theorem extract_general_keywords_exact (model : Language) (self : ResumeParser.t)
    (text keyword : string) :
  ResumeParser.__init__ (Returns model) = Returns self →
  (keyword ∈ ResumeParser.extract_general_keywords self text
   ↔ keyword ∈ PyStr.lower <$> ResumeParser.COMMON_KEYWORDS
     ∧ ∃ token, token ∈ model (PyStr.lower text) ∧ tok_text token = keyword
                ∧ is_alpha token = true ∧ is_stop token = false)
  ∧ (∀ tokens : list string,
       (∀ t, t ∈ tokens → PyStr.isalpha t = true) → keyword ≠ "" →
       ResumeParser.keyword_found tokens keyword = bool_decide (keyword ∈ tokens)).
Proof.
  intros Hinit. unfold ResumeParser.__init__ in Hinit. injection Hinit as <-.
  split.
  - rewrite (elem_of_extract_general_keywords _ model);
      [|done|exact common_keywords_lower_nonempty].
    cbn [ResumeParser.common_keywords_lower ResumeParser.with_lexicons].
    split.
    + intros (Hlex & token & Hin & Htext & Ha & Hs & _). split; [done|]. by exists token.
    + intros (Hlex & token & Hin & Htext & Ha & Hs). split; [done|].
      exists token. repeat (split; [done|]). rewrite Htext.
      by apply (proj1 (Forall_forall _ _) common_keywords_lower_long).
  - intros tokens Halpha Hne. apply eq_true_iff_eq.
    rewrite (keyword_found_in_tokens tokens keyword Hne Halpha).
    by rewrite bool_decide_eq_true.
Qed.

Lemma extract_general_keywords_exact_witness :
  "design" ∈ ResumeParser.extract_general_keywords Sample.parser "Design of gearboxes".
Proof.
  destruct (extract_general_keywords_exact Sample.nlp Sample.parser
              "Design of gearboxes" "design" eq_refl) as [H _].
  apply H. split; [vm_compute; apply list_elem_of_here|].
  exists (mkToken "design" false). split; [vm_compute; apply list_elem_of_here|done].
Defined.

(** ** Reading a résumé *)

Lemma endswith_drop (s suffix : string) :
  ResumeFiles.endswith s suffix = true →
  ResumeFiles.drop_str (String.length s - String.length suffix) s = suffix.
Proof.
  unfold ResumeFiles.endswith. intros [_ H]%andb_true_iff.
  by apply bool_decide_eq_true in H.
Qed.

Lemma endswith_pdf_not_txt (s : string) :
  ResumeFiles.endswith s ".pdf" = true → ResumeFiles.endswith s ".txt" = false.
Proof.
  intros Hpdf%endswith_drop. apply not_true_is_false. intros Htxt%endswith_drop.
  cbn [String.length] in Hpdf, Htxt. congruence.
Qed.

Lemma parse_text_cases (self : ResumeParser.t) (text : string) :
  (text = "" ∧ ResumeFiles.parse_text self text = ResumeFiles.empty_result)
  ∨ (text ≠ ""
     ∧ ResumeFiles.parse_text self text
       = {| r_text := Some text;
            r_skills := Some (ResumeParser.extract_skills self text);
            r_keywords := Some (ResumeParser.extract_general_keywords self text) |}).
Proof. destruct text; [by left|by right]. Qed.

(** X18. [parse_resume] on a file path never raises, and returns the empty
    record [{text: "", skills: [], keywords: []}] when the file does not
    exist, when its name does not end in [.txt] whatever the case of the
    letters (so also for a path to a [.pdf] file), when reading it fails, and
    when it is empty. *)
Theorem parse_resume_from_path (self : ResumeParser.t) (fs : ResumeFiles.FileSystem)
    (file_path : string) :
  ∃ r, ResumeFiles.parse_resume self fs (ResumeFiles.Path file_path) = Returns r
    ∧ (ResumeFiles.path_exists fs file_path = false → r = ResumeFiles.empty_result)
    ∧ (ResumeFiles.endswith (PyStr.lower file_path) ".txt" = false →
       r = ResumeFiles.empty_result)
    ∧ (ResumeFiles.endswith (PyStr.lower file_path) ".pdf" = true →
       r = ResumeFiles.empty_result)
    ∧ ((∃ e, ResumeFiles.read_text fs file_path = Raises e) →
       r = ResumeFiles.empty_result)
    ∧ (ResumeFiles.read_text fs file_path = Returns "" → r = ResumeFiles.empty_result).
Proof.
  unfold ResumeFiles.parse_resume, ResumeFiles._read_txt_text.
  destruct (ResumeFiles.path_exists fs file_path); cbn [negb].
  2:{ eexists. split; [done|]. by repeat split. }
  destruct (ResumeFiles.endswith (PyStr.lower file_path) ".txt") eqn:Htxt.
  2:{ eexists. split; [done|]. by repeat split. }
  eexists. split; [done|]. split; [done|]. split; [done|].
  split; [|split].
  - intros Hpdf%endswith_pdf_not_txt. congruence.
  - by intros [e ->].
  - by intros ->.
Qed.

Lemma parse_resume_from_path_witness :
  ResumeFiles.parse_resume Sample.parser Demo.fs (ResumeFiles.Path "resumes/cv.pdf")
  = Returns ResumeFiles.empty_result.
Proof.
  destruct (parse_resume_from_path Sample.parser Demo.fs "resumes/cv.pdf")
    as (r & Hr & _ & _ & Hpdf & _).
  rewrite Hr, Hpdf; reflexivity.
Defined.

(** X19. Whatever [parse_resume] returns holds all three keys, and its lists
    fit its text: with a non-empty text the skills and keywords are those
    extracted from that text, with an empty text both lists are empty; and a
    record with an empty text, matched against any job, gets the three zero
    scores. *)
Theorem parse_resume_result_consistent (self : ResumeParser.t)
    (fs : ResumeFiles.FileSystem) (source : ResumeFiles.ResumeSource) (r : ParsedResume) :
  ResumeFiles.parse_resume self fs source = Returns r →
  ∃ text skills keywords,
    r = {| r_text := Some text; r_skills := Some skills; r_keywords := Some keywords |}
    ∧ (text ≠ "" →
       skills = ResumeParser.extract_skills self text
       ∧ keywords = ResumeParser.extract_general_keywords self text)
    ∧ (text = "" →
       skills = [] ∧ keywords = []
       ∧ ∀ cfg matcher job,
           JobMatcher.match_job_to_resume cfg matcher r job
           = <["final_score" := VFloat 0]>
               (<["keyword_score" := VFloat 0]> (<["semantic_score" := VFloat 0]> ∅))).
Proof.
  assert (Hempty : ∃ text skills keywords,
            ResumeFiles.empty_result
            = {| r_text := Some text; r_skills := Some skills; r_keywords := Some keywords |}
            ∧ (text ≠ "" →
               skills = ResumeParser.extract_skills self text
               ∧ keywords = ResumeParser.extract_general_keywords self text)
            ∧ (text = "" →
               skills = [] ∧ keywords = []
               ∧ ∀ cfg matcher job,
                   JobMatcher.match_job_to_resume cfg matcher ResumeFiles.empty_result job
                   = <["final_score" := VFloat 0]>
                       (<["keyword_score" := VFloat 0]>
                          (<["semantic_score" := VFloat 0]> ∅)))).
  { exists "", [], []. split; [done|]. split; [done|]. intros _.
    split; [done|]. split; [done|]. intros cfg matcher job.
    apply match_empty_unfold. by left. }
  assert (Htext : ∀ text, ∃ text' skills keywords,
            ResumeFiles.parse_text self text
            = {| r_text := Some text'; r_skills := Some skills; r_keywords := Some keywords |}
            ∧ (text' ≠ "" →
               skills = ResumeParser.extract_skills self text'
               ∧ keywords = ResumeParser.extract_general_keywords self text')
            ∧ (text' = "" →
               skills = [] ∧ keywords = []
               ∧ ∀ cfg matcher job,
                   JobMatcher.match_job_to_resume cfg matcher
                     (ResumeFiles.parse_text self text) job
                   = <["final_score" := VFloat 0]>
                       (<["keyword_score" := VFloat 0]>
                          (<["semantic_score" := VFloat 0]> ∅)))).
  { intros text. destruct (parse_text_cases self text) as [[-> ->] | [Hne ->]]; [done|].
    eexists _, _, _. split; [done|]. split; [done|]. done. }
  unfold ResumeFiles.parse_resume. destruct source as [file_path | file].
  - destruct (negb _); [intros [= <-]; exact Hempty|].
    destruct (ResumeFiles.endswith _ _); intros [= <-]; [apply Htext|exact Hempty].
  - destruct (ResumeFiles.has_suffix _ ".pdf"); [intros [= <-]; apply Htext|].
    destruct (ResumeFiles.has_suffix _ ".txt"); [|intros [= <-]; exact Hempty].
    destruct (ResumeFiles.decoded file); [|done]. intros [= <-]. apply Htext.
Qed.

Lemma parse_resume_result_consistent_witness :
  ∃ text skills keywords,
    ResumeFiles.parse_resume Sample.parser Demo.fs (ResumeFiles.Path "resumes/cv.TXT")
    = Returns {| r_text := Some text; r_skills := Some skills;
                 r_keywords := Some keywords |}.
Proof.
  assert (H : ResumeFiles.parse_resume Sample.parser Demo.fs
                (ResumeFiles.Path "resumes/cv.TXT") = Returns Sample.resume)
    by (vm_compute; reflexivity).
  destruct (parse_resume_result_consistent Sample.parser Demo.fs
              (ResumeFiles.Path "resumes/cv.TXT") Sample.resume H)
    as (text & skills & keywords & Hr & _).
  exists text, skills, keywords. rewrite H, Hr. reflexivity.
Defined.

(** X20. [parse_resume] raises in one case only: an uploaded file whose name
    ends in [.txt] (and not in [.pdf]) and whose bytes are not valid UTF-8; the
    decoding error then reaches the caller. An upload without a name, or with
    another extension, gives the empty record. *)
Theorem parse_resume_raises_only_on_decoding (self : ResumeParser.t)
    (fs : ResumeFiles.FileSystem) (source : ResumeFiles.ResumeSource) (e : string) :
  (ResumeFiles.parse_resume self fs source = Raises e
   ↔ ∃ file, source = ResumeFiles.Upload file
             ∧ ResumeFiles.has_suffix (ResumeFiles.name file) ".pdf" = false
             ∧ ResumeFiles.has_suffix (ResumeFiles.name file) ".txt" = true
             ∧ ResumeFiles.decoded file = Raises e)
  ∧ (∀ file, source = ResumeFiles.Upload file →
       ResumeFiles.has_suffix (ResumeFiles.name file) ".pdf" = false →
       ResumeFiles.has_suffix (ResumeFiles.name file) ".txt" = false →
       ResumeFiles.parse_resume self fs source = Returns ResumeFiles.empty_result).
Proof.
  split.
  - split.
    + unfold ResumeFiles.parse_resume. destruct source as [file_path | file].
      { destruct (negb _); [done|]. by destruct (ResumeFiles.endswith _ _). }
      destruct (ResumeFiles.has_suffix _ ".pdf") eqn:Hpdf; [done|].
      destruct (ResumeFiles.has_suffix _ ".txt") eqn:Htxt; [|done].
      destruct (ResumeFiles.decoded file) eqn:Hdec; [done|].
      intros [= <-]. by exists file.
    + intros (file & -> & Hpdf & Htxt & Hdec). unfold ResumeFiles.parse_resume.
      by rewrite Hpdf, Htxt, Hdec.
  - intros file -> Hpdf Htxt. unfold ResumeFiles.parse_resume. by rewrite Hpdf, Htxt.
Qed.

Lemma parse_resume_raises_only_on_decoding_witness :
  ResumeFiles.parse_resume Sample.parser Demo.fs (ResumeFiles.Upload Demo.bad_txt_upload)
  = Raises "UnicodeDecodeError".
Proof.
  destruct (parse_resume_raises_only_on_decoding Sample.parser Demo.fs
              (ResumeFiles.Upload Demo.bad_txt_upload) "UnicodeDecodeError") as [H _].
  apply H. exists Demo.bad_txt_upload. by repeat split.
Defined.

Lemma add_pages_returns (text : string) (pages : list (outcome (option string))) :
  Forall (λ p, ∃ t, p = Returns t) pages →
  ResumeFiles.add_pages text pages
  = Returns (text +:+ foldr (λ p rest,
                               match p with
                               | Returns t => get_or t "" +:+ rest
                               | Raises _ => rest
                               end) "" pages).
Proof.
  intros Hall. revert text. induction Hall as [|p pages [t ->] _ IH]; intros text.
  - by rewrite string_app_nil_r.
  - cbn. by rewrite IH, string_app_assoc.
Qed.

Lemma add_pages_raises (text : string) (pages : list (outcome (option string))) :
  Exists (λ p, ∃ e, p = Raises e) pages →
  ∃ e, ResumeFiles.add_pages text pages = Raises e.
Proof.
  intros Hex. revert text. induction Hex as [p pages [e ->] | p pages _ IH]; intros text.
  - by exists e.
  - destruct p as [t|e]; [apply IH|by exists e].
Qed.

(** X21. [_read_pdf_text] returns the texts of the pages in order, one after
    the other, a page without text counting as empty, when the reader and
    every page succeed; if the reader or any single page raises, the text of
    all pages is dropped and the result is the empty string. *)
Theorem read_pdf_text_all_or_nothing (file : ResumeFiles.UploadedFile) :
  (∀ pages, ResumeFiles.pdf_pages file = Returns pages →
     Forall (λ p, ∃ t, p = Returns t) pages →
     ResumeFiles._read_pdf_text file
     = foldr (λ p rest,
                match p with
                | Returns t => get_or t "" +:+ rest
                | Raises _ => rest
                end) "" pages)
  ∧ (∀ pages, ResumeFiles.pdf_pages file = Returns pages →
       Exists (λ p, ∃ e, p = Raises e) pages →
       ResumeFiles._read_pdf_text file = "")
  ∧ ((∃ e, ResumeFiles.pdf_pages file = Raises e) →
     ResumeFiles._read_pdf_text file = "").
Proof.
  unfold ResumeFiles._read_pdf_text. split; [|split].
  - intros pages -> Hall. by rewrite (add_pages_returns "" pages Hall).
  - intros pages -> Hex. by destruct (add_pages_raises "" pages Hex) as [e ->].
  - by intros [e ->].
Qed.

Lemma read_pdf_text_all_or_nothing_witness :
  ResumeFiles._read_pdf_text Demo.pdf_upload = "CAD and design"
  ∧ ResumeFiles._read_pdf_text Demo.bad_txt_upload = "".
Proof.
  destruct (read_pdf_text_all_or_nothing Demo.pdf_upload) as (H & _).
  destruct (read_pdf_text_all_or_nothing Demo.bad_txt_upload) as (_ & _ & H').
  split.
  - rewrite (H _ eq_refl); [reflexivity|].
    repeat constructor; by eexists.
  - apply H'. by eexists.
Defined.

(** ** The tagged keyword extractor *)

Lemma lstrip_head (s : string) (c : ascii) :
  PyStr.head (KeywordExtractor.lstrip s) = Some c →
  KeywordExtractor.is_space_char c = false.
Proof.
  induction s as [|d s IH]; [done|]. cbn.
  destruct (KeywordExtractor.is_space_char d) eqn:Hd; [done|].
  cbn. by intros [= <-].
Qed.

Lemma rstrip_cons (c : ascii) (s : string) :
  KeywordExtractor.rstrip (String c s) = ""
  ∨ KeywordExtractor.rstrip (String c s) = String c (KeywordExtractor.rstrip s).
Proof.
  cbn. destruct (KeywordExtractor.rstrip s);
    [destruct (KeywordExtractor.is_space_char c)|]; auto.
Qed.

Lemma rstrip_head (s : string) :
  KeywordExtractor.rstrip s ≠ "" →
  PyStr.head (KeywordExtractor.rstrip s) = PyStr.head s.
Proof.
  destruct s as [|c s]; [done|]. destruct (rstrip_cons c s) as [-> | ->]; done.
Qed.

Lemma rstrip_last (s : string) (d : option ascii) (c : ascii) :
  KeywordExtractor.rstrip s ≠ "" →
  PyStr.last_or d (KeywordExtractor.rstrip s) = Some c →
  KeywordExtractor.is_space_char c = false.
Proof.
  revert d. induction s as [|x s IH]; intros d; [done|]. cbn.
  destruct (KeywordExtractor.rstrip s) as [|y r] eqn:Hr.
  - destruct (KeywordExtractor.is_space_char x) eqn:Hx; [done|].
    cbn. by intros _ [= <-].
  - intros _ H. apply (IH (Some x)); [done|exact H].
Qed.

Lemma forallb_str_lstrip (p : ascii → bool) (s : string) :
  PyStr.forallb_str p s = true → PyStr.forallb_str p (KeywordExtractor.lstrip s) = true.
Proof.
  induction s as [|c s IH]; [done|]. cbn.
  intros [Hc Hs]%andb_true_iff.
  destruct (KeywordExtractor.is_space_char c); [by apply IH|]. cbn. by rewrite Hc, Hs.
Qed.

Lemma forallb_str_rstrip (p : ascii → bool) (s : string) :
  PyStr.forallb_str p s = true → PyStr.forallb_str p (KeywordExtractor.rstrip s) = true.
Proof.
  induction s as [|c s IH]; [done|].
  intros [Hc Hs]%andb_true_iff. destruct (rstrip_cons c s) as [-> | ->]; [done|].
  cbn. by rewrite Hc, IH.
Qed.

Lemma lower_no_upper (s : string) :
  PyStr.forallb_str (λ c, negb (PyStr.is_upper c)) (PyStr.lower s) = true.
Proof.
  induction s as [|c s IH]; [done|]. cbn. by rewrite lower_char_not_upper, IH.
Qed.

Lemma elem_of_foldl_add_token (doc : list KeywordExtractor.TaggedToken)
    (keywords : gset string) (w : string) :
  w ∈ foldl KeywordExtractor.add_token keywords doc
  ↔ w ∈ keywords
    ∨ ∃ token, token ∈ doc ∧ KeywordExtractor.is_candidate token = true
               ∧ w = KeywordExtractor.strip (PyStr.lower (KeywordExtractor.lemma_ token))
               ∧ (2 < String.length w)%nat ∧ w ∉ KeywordExtractor.EXCLUDE_TERMS.
Proof.
  revert keywords. induction doc as [|token doc IH]; intros keywords.
  - cbn. split; [by left|]. intros [?|(t & Hin & _)]; [done|by apply elem_of_nil in Hin].
  - cbn [foldl]. rewrite IH. unfold KeywordExtractor.add_token at 1.
    split.
    + intros [Hw | (t & Hin & H)].
      * destruct (KeywordExtractor.is_candidate token) eqn:Hc; [|by left].
        destruct (_ && _) eqn:Hok; [|by left].
        apply elem_of_union in Hw as [Hw | ->%elem_of_singleton]; [by left|].
        right. exists token. split; [by left|]. split; [done|]. split; [done|].
        apply andb_true_iff in Hok as [Hlen Hex]. split.
        -- by apply Nat.ltb_lt.
        -- by apply negb_true_iff, bool_decide_eq_false in Hex.
      * right. exists t. split; [by right|done].
    + intros [Hw | (t & Hin & Hc & -> & Hlen & Hex)].
      * left. destruct (KeywordExtractor.is_candidate token); [|done].
        destruct (_ && _); [|done]. apply elem_of_union. by left.
      * apply elem_of_cons in Hin as [-> | Hin].
        -- left. rewrite Hc.
           rewrite (proj2 (Nat.ltb_lt _ _) Hlen), bool_decide_false by done. cbn.
           apply elem_of_union. right. by apply elem_of_singleton.
        -- right. by exists t.
Qed.

(** X22. [extract_keywords_from_text] re-raises a model that fails to load.
    Otherwise, for a document whose lemmas are ASCII strings, its result is
    sorted, without duplicates, and holds exactly the lowercased, stripped
    lemmas of the tokens tagged NOUN or PROPN that spaCy marks alphabetic
    and no stop words, provided the word has more than two characters and is
    not an excluded term. So no excluded term is returned, and a returned
    word has no upper-case letter and neither starts nor ends with white
    space. *)
Theorem extract_keywords_from_text_exact
    (load : outcome (string → list KeywordExtractor.TaggedToken)) (text : string) :
  (∀ e, load = Raises e →
        KeywordExtractor.extract_keywords_from_text load text = Raises e)
  ∧ (∀ nlp, load = Returns nlp →
       Forall (λ token, KeywordExtractor.is_ascii (KeywordExtractor.lemma_ token) = true)
              (nlp text) →
       ∃ keywords,
         KeywordExtractor.extract_keywords_from_text load text = Returns keywords
         ∧ StronglySorted String.le keywords ∧ NoDup keywords
         ∧ (∀ w, w ∈ keywords
                 ↔ ∃ token, token ∈ nlp text
                     ∧ KeywordExtractor.pos_ token ∈ ["NOUN"; "PROPN"]
                     ∧ KeywordExtractor.is_stop token = false
                     ∧ KeywordExtractor.is_alpha token = true
                     ∧ w = KeywordExtractor.strip
                             (PyStr.lower (KeywordExtractor.lemma_ token))
                     ∧ (2 < String.length w)%nat
                     ∧ w ∉ KeywordExtractor.EXCLUDE_TERMS)
         ∧ (∀ w, w ∈ keywords →
                 (w ∉ KeywordExtractor.EXCLUDE_TERMS)
                 ∧ PyStr.forallb_str (λ c, negb (PyStr.is_upper c)) w = true
                 ∧ (∀ c, PyStr.head w = Some c →
                         KeywordExtractor.is_space_char c = false)
                 ∧ (∀ c, PyStr.last_or None w = Some c →
                         KeywordExtractor.is_space_char c = false))).
Proof.
  split; [by intros e ->|]. intros nlp -> _.
  unfold KeywordExtractor.extract_keywords_from_text. eexists. split; [done|].
  split; [unfold sorted; apply StronglySorted_merge_sort; apply _|].
  split.
  { unfold sorted. rewrite (merge_sort_Permutation String.le). apply NoDup_elements. }
  assert (Hmem : ∀ w,
            w ∈ sorted (elements (foldl KeywordExtractor.add_token ∅ (nlp text)))
            ↔ ∃ token, token ∈ nlp text
                ∧ KeywordExtractor.pos_ token ∈ ["NOUN"; "PROPN"]
                ∧ KeywordExtractor.is_stop token = false
                ∧ KeywordExtractor.is_alpha token = true
                ∧ w = KeywordExtractor.strip (PyStr.lower (KeywordExtractor.lemma_ token))
                ∧ (2 < String.length w)%nat
                ∧ w ∉ KeywordExtractor.EXCLUDE_TERMS).
  { intros w. unfold sorted.
    rewrite (merge_sort_Permutation String.le), elem_of_elements,
      elem_of_foldl_add_token.
    split.
    - intros [Hw | (token & Hin & Hc & H)]; [by apply not_elem_of_empty in Hw|].
      exists token. split; [done|]. unfold KeywordExtractor.is_candidate in Hc.
      apply andb_true_iff in Hc as [[Hpos Hstop]%andb_true_iff Halpha].
      apply bool_decide_eq_true in Hpos. apply negb_true_iff in Hstop. done.
    - intros (token & Hin & Hpos & Hstop & Halpha & H). right. exists token.
      split; [done|]. split; [|done]. unfold KeywordExtractor.is_candidate.
      by rewrite (bool_decide_true _ Hpos), Hstop, Halpha. }
  split; [exact Hmem|].
  intros w (token & _ & _ & _ & _ & -> & Hlen & Hex)%Hmem.
  split; [done|]. unfold KeywordExtractor.strip in *. split; [|split].
  - apply forallb_str_rstrip, forallb_str_lstrip, lower_no_upper.
  - intros c Hc. rewrite rstrip_head in Hc.
    + by apply (lstrip_head _ _ Hc).
    + intros E. by rewrite E in Hlen; cbn in Hlen; lia.
  - intros c Hc.
    apply (rstrip_last (KeywordExtractor.lstrip (PyStr.lower (KeywordExtractor.lemma_ token)))
             None c); [|exact Hc].
    intros E. by rewrite E in Hlen; cbn in Hlen; lia.
Qed.

Lemma extract_keywords_from_text_exact_witness :
  KeywordExtractor.extract_keywords_from_text (Raises "OSError") "Designing gearboxes"
  = Raises "OSError"
  ∧ ∃ keywords,
      KeywordExtractor.extract_keywords_from_text (Returns Demo.tagged)
        "Designing gearboxes in Jan for the new Team" = Returns keywords
      ∧ ("gearbox" ∈ keywords).
Proof.
  destruct (extract_keywords_from_text_exact (Raises "OSError") "Designing gearboxes")
    as [Hraise _].
  destruct (extract_keywords_from_text_exact (Returns Demo.tagged)
              "Designing gearboxes in Jan for the new Team") as [_ Hret].
  assert (Hascii : Forall (λ token, KeywordExtractor.is_ascii
                                      (KeywordExtractor.lemma_ token) = true)
                     (Demo.tagged "Designing gearboxes in Jan for the new Team")).
  { repeat constructor. }
  destruct (Hret Demo.tagged eq_refl Hascii) as (keywords & Hk & _ & _ & Hmem & _).
  split; [by apply Hraise|]. exists keywords. split; [exact Hk|].
  apply Hmem. exists (KeywordExtractor.mkTagged "Gearbox " "NOUN" false true).
  split; [vm_compute; apply list_elem_of_further, list_elem_of_here|].
  split; [vm_compute; apply list_elem_of_here|].
  split; [reflexivity|]. split; [reflexivity|]. split; [reflexivity|].
  split; [cbn; lia|].
  apply (bool_decide_eq_false_1 ("gearbox" ∈ KeywordExtractor.EXCLUDE_TERMS)).
  vm_compute. reflexivity.
Defined.

(** ** The job search client: retries *)

Lemma attempt_loop_char (net : JSearchAPI.Network) (self : JSearchAPI.t) (url : string)
    (params : gmap string string) (attempts : nat) (retry_delay : Z)
    (w : JSearchAPI.World) :
  let reply j := net (JSearchAPI.sent w + j)%nat url (JSearchAPI.headers self) params in
  let result := JSearchAPI.attempt_loop net self url params attempts retry_delay w in
  ∃ k : nat,
    (k ≤ attempts)%nat
    ∧ (∀ j, (j < k)%nat → JSearchAPI.retried (reply j) = true)
    ∧ JSearchAPI.slept result.2 = JSearchAPI.slept w ++ JSearchAPI.backoff retry_delay k
    ∧ (((k < attempts)%nat
        ∧ JSearchAPI.sent result.2 = (JSearchAPI.sent w + k + 1)%nat
        ∧ JSearchAPI.retried (reply k) = false
        ∧ result.1 = JSearchAPI.reply_body (reply k))
       ∨ (k = attempts
          ∧ JSearchAPI.sent result.2 = (JSearchAPI.sent w + attempts)%nat
          ∧ result.1 = None)).
Proof.
  cbn zeta. revert retry_delay w.
  induction attempts as [|n IH]; intros d w.
  { exists 0%nat. cbn. split; [lia|]. split; [intros j; lia|].
    split; [by rewrite app_nil_r|]. right. split; [done|]. split; [lia|done]. }
  assert (Hstop : ∀ r w',
            JSearchAPI.retried
              (net (JSearchAPI.sent w) url (JSearchAPI.headers self) params) = false →
            r = JSearchAPI.reply_body
                  (net (JSearchAPI.sent w) url (JSearchAPI.headers self) params) →
            w' = JSearchAPI.send w →
            ∃ k : nat,
              (k ≤ S n)%nat
              ∧ (∀ j, (j < k)%nat →
                   JSearchAPI.retried
                     (net (JSearchAPI.sent w + j)%nat url (JSearchAPI.headers self) params)
                   = true)
              ∧ JSearchAPI.slept (r, w').2 = JSearchAPI.slept w ++ JSearchAPI.backoff d k
              ∧ (((k < S n)%nat
                  ∧ JSearchAPI.sent (r, w').2 = (JSearchAPI.sent w + k + 1)%nat
                  ∧ JSearchAPI.retried
                      (net (JSearchAPI.sent w + k)%nat url (JSearchAPI.headers self) params)
                    = false
                  ∧ (r, w').1
                    = JSearchAPI.reply_body
                        (net (JSearchAPI.sent w + k)%nat url (JSearchAPI.headers self)
                           params))
                 ∨ (k = S n
                    ∧ JSearchAPI.sent (r, w').2 = (JSearchAPI.sent w + S n)%nat
                    ∧ (r, w').1 = None))).
  { intros r w' Hr -> ->. exists 0%nat. rewrite Nat.add_0_r. cbn.
    split; [lia|]. split; [intros j; lia|]. split; [by rewrite app_nil_r|].
    left. split; [lia|]. split; [lia|]. done. }
  assert (Hretry :
            JSearchAPI.retried
              (net (JSearchAPI.sent w) url (JSearchAPI.headers self) params) = true →
            ∃ k : nat,
              (k ≤ S n)%nat
              ∧ (∀ j, (j < k)%nat →
                   JSearchAPI.retried
                     (net (JSearchAPI.sent w + j)%nat url (JSearchAPI.headers self) params)
                   = true)
              ∧ JSearchAPI.slept
                  (JSearchAPI.attempt_loop net self url params n (d * 2)
                     (JSearchAPI.sleep (inject_Z d) (JSearchAPI.send w))).2
                = JSearchAPI.slept w ++ JSearchAPI.backoff d k
              ∧ (((k < S n)%nat
                  ∧ JSearchAPI.sent
                      (JSearchAPI.attempt_loop net self url params n (d * 2)
                         (JSearchAPI.sleep (inject_Z d) (JSearchAPI.send w))).2
                    = (JSearchAPI.sent w + k + 1)%nat
                  ∧ JSearchAPI.retried
                      (net (JSearchAPI.sent w + k)%nat url (JSearchAPI.headers self) params)
                    = false
                  ∧ (JSearchAPI.attempt_loop net self url params n (d * 2)
                       (JSearchAPI.sleep (inject_Z d) (JSearchAPI.send w))).1
                    = JSearchAPI.reply_body
                        (net (JSearchAPI.sent w + k)%nat url (JSearchAPI.headers self)
                           params))
                 ∨ (k = S n
                    ∧ JSearchAPI.sent
                        (JSearchAPI.attempt_loop net self url params n (d * 2)
                           (JSearchAPI.sleep (inject_Z d) (JSearchAPI.send w))).2
                      = (JSearchAPI.sent w + S n)%nat
                    ∧ (JSearchAPI.attempt_loop net self url params n (d * 2)
                         (JSearchAPI.sleep (inject_Z d) (JSearchAPI.send w))).1 = None))).
  { intros Hr.
    destruct (IH (d * 2) (JSearchAPI.sleep (inject_Z d) (JSearchAPI.send w)))
      as (k & Hk & Hall & Hslept & Hend).
    cbn [JSearchAPI.sleep JSearchAPI.send JSearchAPI.sent JSearchAPI.slept] in *.
    exists (S k). split; [lia|]. split.
    { intros [|j] Hj; [by rewrite Nat.add_0_r|].
      replace (JSearchAPI.sent w + S j)%nat with (S (JSearchAPI.sent w) + j)%nat by lia.
      apply Hall. lia. }
    split; [by rewrite Hslept, <- app_assoc|].
    replace (JSearchAPI.sent w + S k)%nat with (S (JSearchAPI.sent w) + k)%nat by lia.
    destruct Hend as [(Hlt & Hsent & Hnot & Hres) | (-> & Hsent & Hres)].
    - left. split; [lia|]. split; [lia|]. done.
    - right. split; [done|]. split; [lia|done]. }
  cbn [JSearchAPI.attempt_loop].
  destruct (net (JSearchAPI.sent w) url (JSearchAPI.headers self) params)
    as [body | code | | |] eqn:Hreply.
  - by apply Hstop.
  - destruct (code =? 429) eqn:H429; [apply Hretry; cbn; by rewrite H429|].
    destruct ((400 <=? code) && (code <? 500)) eqn:H4xx.
    + apply Hstop; [cbn; by rewrite H429, H4xx|done|done].
    + apply Hretry. cbn. by rewrite H429, H4xx.
  - by apply Hretry.
  - by apply Hretry.
  - by apply Hstop.
Qed.

(** X23. What [_make_request] does, reply by reply: it sends requests while
    the replies are rate-limit (429) or server errors, connection errors or
    timeouts, pausing 5, 10, 20 seconds after them; the first other reply ends
    the call, with the parsed body for a success and with None for a client
    error or an unexpected exception; after three retried replies it gives up
    with None, the third pause included. *)
Theorem make_request_outcome (net : JSearchAPI.Network) (self : JSearchAPI.t)
    (endpoint : JSearchAPI.Endpoint) (params : gmap string string)
    (w : JSearchAPI.World) :
  let url := JSearchAPI.BASE_URL +:+ JSearchAPI.ENDPOINTS endpoint in
  let reply j := net (JSearchAPI.sent w + j)%nat url (JSearchAPI.headers self) params in
  let result := JSearchAPI._make_request net self endpoint params w in
  ∃ k : nat,
    (k ≤ 3)%nat
    ∧ (∀ j, (j < k)%nat → JSearchAPI.retried (reply j) = true)
    ∧ JSearchAPI.slept result.2 = JSearchAPI.slept w ++ JSearchAPI.backoff 5 k
    ∧ (((k < 3)%nat
        ∧ JSearchAPI.sent result.2 = (JSearchAPI.sent w + k + 1)%nat
        ∧ JSearchAPI.retried (reply k) = false
        ∧ result.1 = JSearchAPI.reply_body (reply k))
       ∨ (k = 3%nat
          ∧ JSearchAPI.sent result.2 = (JSearchAPI.sent w + 3)%nat
          ∧ result.1 = None)).
Proof.
  cbn zeta. unfold JSearchAPI._make_request.
  destruct (attempt_loop_char net self
              (JSearchAPI.BASE_URL +:+ JSearchAPI.ENDPOINTS endpoint) params 3 5 w)
    as (k & H). by exists k.
Qed.

Example backoff_5_10_20 : JSearchAPI.backoff 5 3 = [5%Q; 10%Q; 20%Q].
Proof. reflexivity. Qed.

(** X24. One [_make_request] call sends at least one and at most three
    requests and pauses for an initial part of 5, 10, 20 seconds; a client
    error other than 429 on the first reply ends it at once, without a pause
    or a second request; and a body is returned only if the last request sent
    was answered with it. *)
Theorem make_request_bounds (net : JSearchAPI.Network) (self : JSearchAPI.t)
    (endpoint : JSearchAPI.Endpoint) (params : gmap string string)
    (w : JSearchAPI.World) :
  let url := JSearchAPI.BASE_URL +:+ JSearchAPI.ENDPOINTS endpoint in
  let reply j := net (JSearchAPI.sent w + j)%nat url (JSearchAPI.headers self) params in
  let result := JSearchAPI._make_request net self endpoint params w in
  (JSearchAPI.sent w < JSearchAPI.sent result.2 ≤ JSearchAPI.sent w + 3)%nat
  ∧ (∃ pauses, JSearchAPI.slept result.2 = JSearchAPI.slept w ++ pauses
               ∧ pauses `prefix_of` JSearchAPI.backoff 5 3)
  ∧ (∀ code, reply 0%nat = JSearchAPI.HTTPError code →
             400 ≤ code < 500 → code ≠ 429 →
             result = (None, JSearchAPI.send w))
  ∧ (∀ body, result.1 = Some body →
             reply (JSearchAPI.sent result.2 - JSearchAPI.sent w - 1)%nat
             = JSearchAPI.Json body).
Proof.
  cbn zeta.
  destruct (attempt_loop_char net self
              (JSearchAPI.BASE_URL +:+ JSearchAPI.ENDPOINTS endpoint) params 3 5 w)
    as (k & Hk & Hall & Hslept & Hend).
  cbn zeta in *. fold (JSearchAPI._make_request net self endpoint params w) in *.
  split; [destruct Hend as [(? & -> & _) | (-> & -> & _)]; lia|].
  split.
  { exists (JSearchAPI.backoff 5 k). split; [done|].
    destruct k as [|[|[|[|k]]]]; [..|lia].
    - by exists (JSearchAPI.backoff 5 3).
    - by exists (JSearchAPI.backoff 10 2).
    - by exists (JSearchAPI.backoff 20 1).
    - by exists []. }
  split.
  - intros code Hreply [H400 H500] H429. rewrite Nat.add_0_r in Hreply.
    unfold JSearchAPI._make_request. cbn [JSearchAPI.attempt_loop]. rewrite Hreply.
    rewrite (proj2 (Z.eqb_neq _ _) H429).
    by rewrite (proj2 (Z.leb_le _ _) H400), (proj2 (Z.ltb_lt _ _) H500).
  - intros body Hbody.
    destruct Hend as [(Hlt & Hsent & Hnot & Hres) | (_ & _ & Hres)]; [|congruence].
    rewrite Hsent.
    replace (JSearchAPI.sent w + k + 1 - JSearchAPI.sent w - 1)%nat with k by lia.
    rewrite Hres in Hbody.
    destruct (net (JSearchAPI.sent w + k)%nat _ _ _) as [b|c| | |];
      cbn in Hbody; congruence.
Qed.

Lemma make_request_bounds_witness :
  JSearchAPI._make_request
    (λ n url headers params, JSearchAPI.HTTPError 404)
    Demo.api JSearchAPI.search ∅ Demo.world0
  = (None, JSearchAPI.send Demo.world0).
Proof.
  destruct (make_request_bounds (λ n url headers params, JSearchAPI.HTTPError 404)
              Demo.api JSearchAPI.search ∅ Demo.world0) as (_ & _ & H & _).
  cbv zeta in H. apply (H 404); [reflexivity|lia|lia].
Defined.

(** ** The job search client: pages *)

Lemma make_request_sent (net : JSearchAPI.Network) (self : JSearchAPI.t)
    (endpoint : JSearchAPI.Endpoint) (params : gmap string string)
    (w : JSearchAPI.World) :
  (JSearchAPI.sent w
   < JSearchAPI.sent (JSearchAPI._make_request net self endpoint params w).2
   ≤ JSearchAPI.sent w + 3)%nat.
Proof.
  destruct (attempt_loop_char net self
              (JSearchAPI.BASE_URL +:+ JSearchAPI.ENDPOINTS endpoint) params 3 5 w)
    as (k & Hk & _ & _ & Hend).
  cbn zeta in Hend. fold (JSearchAPI._make_request net self endpoint params w) in Hend.
  destruct Hend as [(? & -> & _) | (-> & -> & _)]; lia.
Qed.

Lemma page_loop_inv (net : JSearchAPI.Network) (self : JSearchAPI.t)
    (params_of : Z → gmap string string) (pages : list Z)
    (all_jobs : list (gmap string string)) (w : JSearchAPI.World) :
  ∃ more,
    (JSearchAPI.page_loop net self params_of pages all_jobs w).1 = all_jobs ++ more
    ∧ Forall (λ job : gmap string string, job !! "api_source" = Some "jsearch") more
    ∧ (JSearchAPI.sent w
       ≤ JSearchAPI.sent (JSearchAPI.page_loop net self params_of pages all_jobs w).2
       ≤ JSearchAPI.sent w + 3 * length pages)%nat.
Proof.
  revert all_jobs w. induction pages as [|p pages IH]; intros all_jobs w.
  { exists []. cbn. rewrite app_nil_r. split; [done|]. split; [done|lia]. }
  cbn [JSearchAPI.page_loop length].
  pose proof (make_request_sent net self JSearchAPI.search (params_of p) w) as Hsent.
  destruct (JSearchAPI._make_request net self JSearchAPI.search (params_of p) w)
    as [response_data w1]. cbn [snd] in Hsent.
  destruct response_data as [[[[|job jobs]|]]|].
  - destruct (IH all_jobs (JSearchAPI.sleep 0.5 w1)) as (more & -> & Htag & Hle).
    exists more. split; [done|]. split; [done|]. cbn in Hle |- *. lia.
  - destruct (IH (all_jobs ++ (JSearchAPI.tag <$> job :: jobs)) (JSearchAPI.sleep 0.5 w1))
      as (more & -> & Htag & Hle).
    exists ((JSearchAPI.tag <$> job :: jobs) ++ more).
    split; [by rewrite app_assoc|]. split; [|cbn in Hle |- *; lia].
    apply Forall_app. split; [|done]. apply Forall_fmap, Forall_forall.
    intros j _. apply lookup_insert_eq.
  - destruct (IH all_jobs (JSearchAPI.sleep 0.5 w1)) as (more & -> & Htag & Hle).
    exists more. split; [done|]. split; [done|]. cbn in Hle |- *. lia.
  - exists []. cbn. rewrite app_nil_r. split; [done|]. split; [done|lia].
Qed.

Lemma page_range_cons (page num_pages : Z) :
  0 < num_pages →
  JSearchAPI.page_range page num_pages
  = page :: JSearchAPI.page_range (page + 1) (num_pages - 1).
Proof.
  intros Hpos. unfold JSearchAPI.page_range.
  replace (Z.to_nat num_pages) with (S (Z.to_nat (num_pages - 1))) by lia.
  cbn [seq fmap list_fmap]. f_equal; [lia|].
  rewrite <- fmap_S_seq, <- list_fmap_compose. apply list_fmap_ext.
  intros i x _. cbn. lia.
Qed.

(** X25. Every job that [search_jobs] returns carries
    [api_source = 'jsearch']; the search sends at most three requests per
    page asked for, and with [num_pages] zero or negative it returns the
    empty list without sending anything. *)
Theorem search_jobs_tagged_and_bounded (net : JSearchAPI.Network) (self : JSearchAPI.t)
    (query : string) (location : option string) (page num_pages : Z)
    (date_posted : option string) (remote_jobs_only : bool)
    (employment_type experience_level : option string) (w : JSearchAPI.World) :
  let result :=
    JSearchAPI.search_jobs net self query location page num_pages date_posted
      remote_jobs_only employment_type experience_level w in
  Forall (λ job : gmap string string, job !! "api_source" = Some "jsearch") result.1
  ∧ (JSearchAPI.sent w ≤ JSearchAPI.sent result.2
     ≤ JSearchAPI.sent w + 3 * Z.to_nat num_pages)%nat
  ∧ (num_pages ≤ 0 → result = ([], w)).
Proof.
  cbn zeta. unfold JSearchAPI.search_jobs.
  destruct (page_loop_inv net self
              (λ p, JSearchAPI.page_params query location p date_posted
                      remote_jobs_only employment_type experience_level)
              (JSearchAPI.page_range page num_pages) [] w) as (more & Hres & Htag & Hle).
  rewrite Hres. split; [done|]. split.
  - unfold JSearchAPI.page_range in Hle. by rewrite length_fmap, length_seq in Hle.
  - intros Hneg. unfold JSearchAPI.page_range.
    replace (Z.to_nat num_pages) with 0%nat by lia. done.
Qed.

Lemma search_jobs_tagged_and_bounded_witness :
  JSearchAPI.search_jobs Demo.net Demo.api "designer" (Some "Vancouver") 1 0
    None false None None Demo.world0 = ([], Demo.world0).
Proof.
  destruct (search_jobs_tagged_and_bounded Demo.net Demo.api "designer"
              (Some "Vancouver") 1 0 None false None None Demo.world0) as (_ & _ & H).
  apply H. lia.
Defined.

(** X26. A page that fails does not cost the pages already fetched: the jobs
    of the first page stay at the head of the result whatever happens on the
    later pages, while a first page that fails (client error, unexpected
    exception, or three retried replies) ends the search with the empty list
    and no request for the later pages. *)
Theorem search_jobs_keeps_collected_pages (net : JSearchAPI.Network)
    (self : JSearchAPI.t) (query : string) (location : option string)
    (page num_pages : Z) (date_posted : option string) (remote_jobs_only : bool)
    (employment_type experience_level : option string) (w : JSearchAPI.World) :
  0 < num_pages →
  let first :=
    JSearchAPI._make_request net self JSearchAPI.search
      (JSearchAPI.page_params query location page date_posted remote_jobs_only
         employment_type experience_level) w in
  let result :=
    JSearchAPI.search_jobs net self query location page num_pages date_posted
      remote_jobs_only employment_type experience_level w in
  (∀ jobs, first.1 = Some (JSearchAPI.mkBody (Some jobs)) →
           (JSearchAPI.tag <$> jobs) `prefix_of` result.1)
  ∧ (first.1 = None → result = ([], first.2)).
Proof.
  intros Hpos. cbn zeta. unfold JSearchAPI.search_jobs.
  rewrite (page_range_cons page num_pages Hpos). cbn [JSearchAPI.page_loop].
  destruct (JSearchAPI._make_request net self JSearchAPI.search _ w)
    as [response_data w1]. cbn [fst snd].
  split; [|by intros ->].
  intros jobs ->. destruct jobs as [|job jobs]; [apply prefix_nil|].
  rewrite app_nil_l.
  destruct (page_loop_inv net self
              (λ p, JSearchAPI.page_params query location p date_posted
                      remote_jobs_only employment_type experience_level)
              (JSearchAPI.page_range (page + 1) (num_pages - 1))
              (JSearchAPI.tag <$> job :: jobs) (JSearchAPI.sleep 0.5 w1))
    as (more & -> & _). by exists more.
Qed.

Lemma search_jobs_keeps_collected_pages_witness :
  [JSearchAPI.tag Sample.job]
  `prefix_of` (JSearchAPI.search_jobs Demo.net Demo.api "designer" (Some "Vancouver")
                 1 3 None false None None Demo.world0).1.
Proof.
  destruct (search_jobs_keeps_collected_pages Demo.net Demo.api "designer"
              (Some "Vancouver") 1 3 None false None None Demo.world0 ltac:(lia))
    as [H _].
  apply (H [Sample.job]). vm_compute. reflexivity.
Defined.

(** ** Storing a batch of fetched jobs *)

Lemma insert_job_healthy_cases now (db : gmap string DBManager.Row)
    (job : gmap string string) :
  (DBManager.insert_job DBManager.Healthy now db job = (db, Returns false)
   ∧ ∀ id, job !! "job_id" = Some id → id ≠ "" → is_Some (db !! id))
  ∨ ∃ id row, job !! "job_id" = Some id ∧ id ≠ "" ∧ db !! id = None
              ∧ DBManager.insert_job DBManager.Healthy now db job
                = (<[id := row]> db, Returns true).
Proof.
  destruct (job !! "job_id") as [id|] eqn:Hid.
  2:{ left. split; [|done]. unfold DBManager.insert_job. by rewrite Hid. }
  destruct (decide (id = "")) as [->|Hne].
  { left. split; [|by intros ? [= <-]]. unfold DBManager.insert_job. by rewrite Hid. }
  destruct (db !! id) as [row|] eqn:Hrow.
  - left. split.
    + apply (insert_job_existing _ _ _ _ id); [done|done|by eexists].
    + intros id' [= <-] _. by eexists.
  - right. destruct (insert_job_fresh now db job id Hid Hne Hrow) as (row & Hins & _).
    by exists id, row.
Qed.

Lemma store_loop_healthy (jobs : list (gmap string string)) (clock : nat → string)
    (i : nat) (db : gmap string DBManager.Row) (n : nat) :
  ∃ db' added,
    App.store_loop DBManager.Healthy clock i db jobs n = (db', Returns (n + added)%nat)
    ∧ size db' = (size db + added)%nat
    ∧ (∀ id r, db !! id = Some r → db' !! id = Some r)
    ∧ (∀ id, is_Some (db' !! id)
             ↔ is_Some (db !! id)
               ∨ (id ≠ "" ∧ ∃ job, job ∈ jobs ∧ job !! "job_id" = Some id)).
Proof.
  revert i db n. induction jobs as [|job jobs IH]; intros i db n.
  { exists db, 0%nat. cbn. rewrite !Nat.add_0_r. split; [done|]. split; [done|].
    split; [done|]. intros id. split; [by left|].
    intros [?|(_ & j & Hin & _)]; [done|by apply elem_of_nil in Hin]. }
  cbn [App.store_loop].
  destruct (insert_job_healthy_cases (clock i) db job)
    as [[-> Hdup] | (id & row & Hid & Hne & Hfresh & ->)].
  - destruct (IH (S i) db n) as (db' & added & -> & Hsize & Hkeep & Hdom).
    exists db', added. split; [done|]. split; [done|]. split; [done|].
    intros id'. rewrite Hdom. split.
    + intros [?|(Hne & j & Hin & Hj)]; [by left|].
      right. split; [done|]. exists j. split; [by right|done].
    + intros [?|(Hne & j & Hin & Hj)]; [by left|].
      apply elem_of_cons in Hin as [-> | Hin]; [left; by apply Hdup|].
      right. split; [done|]. by exists j.
  - destruct (IH (S i) (<[id := row]> db) (S n)) as (db' & added & -> & Hsize & Hkeep & Hdom).
    exists db', (S added). split; [f_equal; f_equal; lia|].
    split; [rewrite Hsize, map_size_insert_None by done; lia|].
    split.
    + intros id' r Hr. apply Hkeep. rewrite lookup_insert_ne; [done|]. congruence.
    + intros id'. rewrite Hdom. rewrite lookup_insert_is_Some. split.
      * intros [[<- | [_ ?]] | (Hne' & j & Hin & Hj)].
        -- right. split; [done|]. exists job. split; [by left|done].
        -- by left.
        -- right. split; [done|]. exists j. split; [by right|done].
      * intros [? | (Hne' & j & Hin & Hj)].
        -- left. destruct (decide (id = id')); [by left|by right].
        -- apply elem_of_cons in Hin as [-> | Hin].
           ++ left. left. congruence.
           ++ right. split; [done|]. by exists j.
Qed.

(** X27. With a working database the batch loop of the app stores every
    fetched job whose id is non-empty and new, counts exactly the rows it
    adds (a job that occurs twice in the batch counts once), and leaves every
    row that was already stored, its status included, as it was. *)
Theorem store_fetched_jobs_counts_new_rows (clock : nat → string)
    (db : gmap string DBManager.Row) (fetched : list (gmap string string)) :
  ∃ db' new_jobs_count,
    App.store_fetched_jobs DBManager.Healthy clock db fetched
    = (db', Returns new_jobs_count)
    ∧ size db' = (size db + new_jobs_count)%nat
    ∧ (∀ id r, db !! id = Some r → db' !! id = Some r)
    ∧ (∀ id, is_Some (db' !! id)
             ↔ is_Some (db !! id)
               ∨ (id ≠ "" ∧ ∃ job, job ∈ fetched ∧ job !! "job_id" = Some id)).
Proof.
  destruct (store_loop_healthy fetched clock 0 db 0) as (db' & added & H).
  exists db', added. exact H.
Qed.

Lemma store_loop_nothing_new (jobs : list (gmap string string)) (clock : nat → string)
    (i : nat) (db : gmap string DBManager.Row) (n : nat) :
  (∀ job id, job ∈ jobs → job !! "job_id" = Some id → id ≠ "" → is_Some (db !! id)) →
  App.store_loop DBManager.Healthy clock i db jobs n = (db, Returns n).
Proof.
  revert i n. induction jobs as [|job jobs IH]; intros i n Hall; [done|].
  cbn [App.store_loop].
  destruct (insert_job_healthy_cases (clock i) db job)
    as [[-> _] | (id & row & Hid & Hne & Hfresh & _)].
  - apply IH. intros j id Hin. apply Hall. by right.
  - destruct (Hall job id (list_elem_of_here _ _) Hid Hne) as [r Hr]. congruence.
Qed.

(** X28. Storing a batch is idempotent: when the same jobs are fetched and
    stored again, at any later time, nothing is added, the count is 0 and the
    table is unchanged. *)
Theorem store_fetched_jobs_idempotent (clock clock' : nat → string)
    (db : gmap string DBManager.Row) (fetched : list (gmap string string)) :
  let db' := (App.store_fetched_jobs DBManager.Healthy clock db fetched).1 in
  App.store_fetched_jobs DBManager.Healthy clock' db' fetched = (db', Returns 0%nat).
Proof.
  cbn zeta.
  destruct (store_loop_healthy fetched clock 0 db 0) as (db' & added & Hrun & _ & _ & Hdom).
  unfold App.store_fetched_jobs. rewrite Hrun. cbn [fst].
  apply store_loop_nothing_new. intros job id Hin Hid Hne.
  apply Hdom. right. split; [done|]. by exists job.
Qed.

(** ** Ranking the stored jobs *)

Lemma insert_desc_perm (x : Q * gmap string App.Cell) (l : list (Q * gmap string App.Cell)) :
  App.insert_desc x l ≡ₚ x :: l.
Proof.
  induction l as [|y l IH]; [done|]. cbn.
  destruct (Qle_bool y.1 x.1); [done|]. rewrite IH. apply Permutation_swap.
Qed.

Lemma sorted_desc_perm (l : list (Q * gmap string App.Cell)) : App.sorted_desc l ≡ₚ l.
Proof.
  induction l as [|x l IH]; [done|]. cbn. by rewrite insert_desc_perm, IH.
Qed.

Lemma insert_desc_sorted (x : Q * gmap string App.Cell)
    (l : list (Q * gmap string App.Cell)) :
  StronglySorted (λ a b, (b.1 <= a.1)%Q) l →
  StronglySorted (λ a b, (b.1 <= a.1)%Q) (App.insert_desc x l).
Proof.
  induction 1 as [|y l Hsorted IH Hall]; [repeat constructor|]. cbn.
  destruct (Qle_bool y.1 x.1) eqn:Hle.
  - apply Qle_bool_iff in Hle. constructor; [by constructor|].
    constructor; [done|]. eapply Forall_impl; [exact Hall|].
    intros z Hz. cbn in *. by eapply Qle_trans.
  - assert (x.1 <= y.1)%Q as Hxy.
    { apply Qlt_le_weak, Qnot_le_lt. intros H%Qle_bool_iff. congruence. }
    constructor; [done|]. rewrite insert_desc_perm. by constructor.
Qed.

Lemma sorted_desc_sorted (l : list (Q * gmap string App.Cell)) :
  StronglySorted (λ a b, (b.1 <= a.1)%Q) (App.sorted_desc l).
Proof.
  induction l as [|x l IH]; [constructor|]. cbn. by apply insert_desc_sorted.
Qed.

Lemma match_result_final_score cfg self resume (job : gmap string string) :
  (∃ f, JobMatcher.match_job_to_resume cfg self resume job !! "final_score"
        = Some (VFloat f))
  ∧ ∀ key, is_Some (JobMatcher.match_job_to_resume cfg self resume job !! key) →
           key ∈ ["final_score"; "keyword_score"; "semantic_score"; "matched_keywords"].
Proof.
  unfold JobMatcher.match_job_to_resume.
  destruct (negb _ || negb _).
  - split; [by eexists|]. intros key. rewrite !elem_of_cons.
    destruct (decide (key = "final_score")) as [->|?]; [by auto|].
    destruct (decide (key = "keyword_score")) as [->|?]; [by auto|].
    destruct (decide (key = "semantic_score")) as [->|?]; [by auto|].
    rewrite !lookup_insert_ne by done. rewrite lookup_empty. by intros [? ?].
  - split; [eexists; by rewrite lookup_insert_eq|]. intros key. rewrite !elem_of_cons.
    destruct (decide (key = "final_score")) as [->|?]; [by auto|].
    destruct (decide (key = "keyword_score")) as [->|?]; [by auto|].
    destruct (decide (key = "semantic_score")) as [->|?]; [by auto|].
    destruct (decide (key = "matched_keywords")) as [->|?]; [by auto 6|].
    rewrite !lookup_insert_ne by done. rewrite lookup_empty. by intros [? ?].
Qed.

Lemma match_stored_job_scorable cfg self resume (job : DBManager.Row) :
  App.scorable resume job →
  App.match_stored_job cfg self resume job
  = Returns (JobMatcher.match_job_to_resume cfg self resume (App.string_columns job)).
Proof.
  unfold App.scorable, App.match_stored_job. intros Hs.
  destruct (DBManager.job_title job); [done|].
  destruct (Hs eq_refl) as [-> | ->]; [done|]. by rewrite andb_false_r.
Qed.

Lemma score_loop_scorable cfg self resume (jobs : list DBManager.Row) :
  Forall (App.scorable resume) jobs →
  App.score_loop cfg self resume jobs
  = Returns ((λ job, App.merge job
                       (JobMatcher.match_job_to_resume cfg self resume
                          (App.string_columns job))) <$> jobs).
Proof.
  induction 1 as [|job jobs Hjob _ IH]; [done|].
  cbn [App.score_loop]. by rewrite (match_stored_job_scorable _ _ _ _ Hjob), IH.
Qed.

Lemma merge_lookup_score (job : DBManager.Row) (result : gmap string PyVal)
    (key : string) (v : PyVal) :
  result !! key = Some v → App.merge job result !! key = Some (App.Match v).
Proof.
  intros Hv. unfold App.merge. rewrite lookup_union_l'; rewrite lookup_fmap, Hv; done.
Qed.

Lemma merge_lookup_column cfg self resume (job : DBManager.Row) (key : string) :
  key ∉ ["final_score"; "keyword_score"; "semantic_score"; "matched_keywords"] →
  App.merge job (JobMatcher.match_job_to_resume cfg self resume (App.string_columns job))
    !! key
  = App.Column <$> App.columns job !! key.
Proof.
  intros Hkey. unfold App.merge. rewrite lookup_union_r, lookup_fmap; [done|].
  rewrite lookup_fmap.
  destruct (JobMatcher.match_job_to_resume cfg self resume (App.string_columns job) !! key)
    eqn:Hv; [|done].
  destruct Hkey. apply (match_result_final_score cfg self resume (App.string_columns job)).
  by rewrite Hv.
Qed.

Lemma keyed_all (xs : list (gmap string App.Cell)) :
  Forall (λ x, ∃ k, App.final_score_key x = Returns k) xs →
  ∃ ks, App.keyed xs = Returns ks ∧ ks.*2 = xs
        ∧ Forall (λ kx, App.final_score_key kx.2 = Returns kx.1) ks.
Proof.
  induction 1 as [|x xs [k Hk] _ (ks & Hks & Hsnd & Hall)].
  - by exists [].
  - exists ((k, x) :: ks). cbn. rewrite Hk, Hks. split; [done|].
    split; [by rewrite Hsnd|]. by constructor.
Qed.

(** X29. When every stored row can be scored, the ranking of the app holds
    each stored job exactly once, merged with its match result, in descending
    order of [final_score]; the merge keeps every column of the row, the
    status among them, beside the scores. *)
Theorem rank_jobs_sorted_permutation cfg self resume (all_jobs : list DBManager.Row) :
  Forall (App.scorable resume) all_jobs →
  let display job :=
    App.merge job
      (JobMatcher.match_job_to_resume cfg self resume (App.string_columns job)) in
  ∃ ranked,
    App.rank_jobs cfg self resume all_jobs = Returns ranked
    ∧ ranked ≡ₚ display <$> all_jobs
    ∧ StronglySorted
        (λ x y, ∃ sx sy, App.final_score_key x = Returns sx
                         ∧ App.final_score_key y = Returns sy ∧ (sy <= sx)%Q) ranked
    ∧ (∀ job, display job !! "job_id" = Some (App.Column (Some (DBManager.job_id job)))
              ∧ display job !! "status"
                = Some (App.Column (Some (DBManager.status job)))
              ∧ display job !! "job_title" = Some (App.Column (DBManager.job_title job))
              ∧ ∃ f, display job !! "final_score" = Some (App.Match (VFloat f))).
Proof.
  intros Hall display.
  assert (Hcols : ∀ job,
            display job !! "job_id" = Some (App.Column (Some (DBManager.job_id job)))
            ∧ display job !! "status" = Some (App.Column (Some (DBManager.status job)))
            ∧ display job !! "job_title" = Some (App.Column (DBManager.job_title job))
            ∧ ∃ f, display job !! "final_score" = Some (App.Match (VFloat f))).
  { intros job. subst display. cbn beta.
    rewrite !merge_lookup_column
      by (apply (bool_decide_eq_false_1 (_ ∈ _)); by vm_compute).
    unfold App.columns.
    split; [by rewrite lookup_insert_eq|].
    split; [rewrite !lookup_insert_ne by done; by rewrite lookup_insert_eq|].
    split; [rewrite !lookup_insert_ne by done; by rewrite lookup_insert_eq|].
    destruct (match_result_final_score cfg self resume (App.string_columns job))
      as [[f Hf] _].
    exists f. by apply merge_lookup_score. }
  assert (Hkeys : Forall (λ x, ∃ k, App.final_score_key x = Returns k)
                    (display <$> all_jobs)).
  { apply Forall_fmap, Forall_forall. intros job _. cbn.
    destruct (Hcols job) as (_ & _ & _ & f & Hf). exists f.
    unfold App.final_score_key. by rewrite Hf. }
  destruct (keyed_all _ Hkeys) as (ks & Hks & Hsnd & Hinv).
  exists ((App.sorted_desc ks).*2). split.
  { unfold App.rank_jobs. destruct all_jobs as [|job jobs]; [by destruct ks|].
    rewrite (score_loop_scorable _ _ _ _ Hall). fold display. by rewrite Hks. }
  split; [by rewrite sorted_desc_perm, Hsnd|].
  split; [|exact Hcols].
  eapply (StronglySorted_fmap snd
            (λ a b, (b.1 <= a.1)%Q ∧ App.final_score_key a.2 = Returns a.1
                    ∧ App.final_score_key b.2 = Returns b.1)).
  { intros [ka a] [kb b] (Hle & Ha & Hb). cbn in *. by exists ka, kb. }
  assert (Hinv' : Forall (λ kx, App.final_score_key kx.2 = Returns kx.1)
                    (App.sorted_desc ks)) by (by rewrite sorted_desc_perm).
  pose proof (sorted_desc_sorted ks) as Hsorted.
  induction Hsorted as [|a l Hs IH Hfa]; [constructor|].
  apply Forall_cons in Hinv' as [Ha Hl]. constructor; [by apply IH|].
  apply Forall_forall. intros b Hb.
  split; [by apply (proj1 (Forall_forall _ _) Hfa)|].
  split; [done|]. by apply (proj1 (Forall_forall _ _) Hl).
Qed.

Lemma rank_jobs_sorted_permutation_witness :
  ∃ ranked,
    App.rank_jobs settings Sample.matcher Sample.resume [Demo.row1; Demo.row2]
    = Returns ranked
    ∧ length ranked = 2%nat.
Proof.
  destruct (rank_jobs_sorted_permutation settings Sample.matcher Sample.resume
              [Demo.row1; Demo.row2]) as (ranked & Hr & Hperm & _).
  { constructor; [|constructor; [|constructor]]; intros H; discriminate H. }
  exists ranked. split; [exact Hr|].
  by rewrite Hperm.
Defined.

Lemma store_fetched_jobs_counts_new_rows_witness :
  ∃ db',
    App.store_fetched_jobs DBManager.Healthy Demo.clock Sample.table
      [Sample.job_refetched; Demo.untitled_job; Demo.untitled_job;
       Sample.job_without_id]
    = (db', Returns 1%nat).
Proof.
  destruct (store_fetched_jobs_counts_new_rows Demo.clock Sample.table
              [Sample.job_refetched; Demo.untitled_job; Demo.untitled_job;
               Sample.job_without_id]) as (db' & n & Hrun & _).
  exists db'. rewrite Hrun. f_equal.
  assert (Hn : (App.store_fetched_jobs DBManager.Healthy Demo.clock Sample.table
                  [Sample.job_refetched; Demo.untitled_job; Demo.untitled_job;
                   Sample.job_without_id]).2 = Returns 1%nat) by (by vm_compute).
  rewrite Hrun in Hn. exact Hn.
Defined.

Lemma insert_job_then_get_row now (db : gmap string DBManager.Row)
    (job : gmap string string) (id : string) :
  job !! "job_id" = Some id → id ≠ "" → db !! id = None →
  (DBManager.insert_job DBManager.Healthy now db job).1 !! id
  = Some {| DBManager.job_id := id;
            DBManager.job_title := job !! "job_title";
            DBManager.company_name := job !! "company_name";
            DBManager.location := job !! "job_location";
            DBManager.job_description := job !! "job_description";
            DBManager.job_url := job !! "job_apply_link";
            DBManager.employer_website := job !! "employer_website";
            DBManager.job_employment_type := job !! "job_employment_type";
            DBManager.job_posted_at_datetime_utc := job !! "job_posted_at_datetime_utc";
            DBManager.status := "new";
            DBManager.retrieved_at := now |}.
Proof.
  intros Hid Hne Hfresh. unfold DBManager.insert_job. rewrite Hid.
  destruct id as [|c id]; [done|]. cbn [PyStr.truthy negb].
  unfold DBManager.with_connection, DBManager.insert_or_ignore. cbn.
  rewrite Hfresh. cbn. by rewrite lookup_insert_eq.
Qed.

Lemma score_loop_raises cfg self resume (jobs : list DBManager.Row)
    (job : DBManager.Row) (e : string) :
  job ∈ jobs → App.match_stored_job cfg self resume job = Raises e →
  ∃ e', App.score_loop cfg self resume jobs = Raises e'.
Proof.
  intros Hin Hraise. induction jobs as [|j jobs IH]; [by apply elem_of_nil in Hin|].
  cbn [App.score_loop]. apply elem_of_cons in Hin as [<- | Hin].
  - rewrite Hraise. by eexists.
  - destruct (App.match_stored_job cfg self resume j); [|by eexists].
    destruct (IH Hin) as [e' ->]. by eexists.
Qed.

(** X30. A fetched job may lack a title: [insert_job] stores it with a NULL
    title, and ranking the stored jobs right after that insert against a
    résumé with a non-empty text raises a [TypeError] when that job has a
    non-empty description. *)
Theorem rank_jobs_raises_on_missing_title cfg self resume now
    (db : gmap string DBManager.Row) (job_data : gmap string string)
    (id description : string) :
  job_data !! "job_id" = Some id → id ≠ "" → db !! id = None →
  job_data !! "job_title" = None →
  job_data !! "job_description" = Some description → description ≠ "" →
  get_or (r_text resume) "" ≠ "" →
  ∃ rows e,
    DBManager.get_all_jobs DBManager.Healthy
      (DBManager.insert_job DBManager.Healthy now db job_data).1 = Returns rows
    ∧ App.rank_jobs cfg self resume rows = Raises e.
Proof.
  intros Hid Hne Hfresh Htitle Hdesc Hd Ht.
  pose proof (insert_job_then_get_row now db job_data id Hid Hne Hfresh) as Hrow.
  set (db' := (DBManager.insert_job DBManager.Healthy now db job_data).1) in *.
  set (row := DBManager.mkRow id _ _ _ _ _ _ _ _ _ _) in Hrow.
  exists (map_to_list db').*2.
  assert (Hin : row ∈ (map_to_list db').*2).
  { apply list_elem_of_fmap. exists (id, row). split; [done|].
    by apply elem_of_map_to_list. }
  assert (Hraise : ∃ e, App.match_stored_job cfg self resume row = Raises e).
  { unfold App.match_stored_job. subst row. cbn. rewrite Htitle, Hdesc. cbn.
    destruct (get_or (r_text resume) "") as [|c t]; [done|].
    destruct description; [done|]. by eexists. }
  destruct Hraise as [e Hraise].
  destruct (score_loop_raises cfg self resume _ row e Hin Hraise) as [e' He'].
  exists e'. split; [done|]. unfold App.rank_jobs.
  destruct ((map_to_list db').*2) as [|r rs]; [by apply elem_of_nil in Hin|].
  by rewrite He'.
Qed.

Lemma rank_jobs_raises_on_missing_title_witness :
  ∃ rows e,
    DBManager.get_all_jobs DBManager.Healthy
      (DBManager.insert_job DBManager.Healthy Sample.later Sample.table
         Demo.untitled_job).1 = Returns rows
    ∧ App.rank_jobs settings Sample.matcher Sample.resume rows = Raises e.
Proof.
  apply (rank_jobs_raises_on_missing_title settings Sample.matcher Sample.resume
           Sample.later Sample.table Demo.untitled_job "job-3" "Design of gearboxes");
    try reflexivity; discriminate.
Defined.
